(** * Markdown cleanup and EPUB assembly: a shallow embedding

    The development follows [clean_markdown.py] (filename normalizer,
    image fetcher, content cleaner) and [build_epub.py] (cover selection).

    - A Python [str] is a list of characters.  A character of the model is
      a code point below 256, so the strings of the model are the Latin-1
      strings; [str.strip], [str.lower] and the UTF-8 encoding are those of
      Python on these code points.
    - Python integers that can be negative ([str.find] and [str.rfind]
      answer [-1]) are in [Z]; loop counters and lengths are in [nat].
    - The regular expressions are run by a backtracking matcher over the
      constructs the two programs use; [re.sub] and [re.search] scan the
      subject from the left.
    - [hashlib.md5] is MD5 as in RFC 1321; [urlparse] and [splitext]
      follow CPython 3.11 on POSIX.
    - The images directory and the network are a state, [Cleaner.world],
      passed through the cleaner; [download_image] answers an [option]
      because it catches every exception.

    The definitions come first, then the statements and their proofs. *)

From Stdlib Require Import Ascii String DecimalString ZArith Lia Bool Arith PeanoNat.
From Stdlib Require Import List Sorted Permutation.
From Stdlib Require DecimalNat.
Import ListNotations.

#[local] Open Scope string_scope.
#[local] Open Scope nat_scope.
#[local] Open Scope list_scope.

(** ** Python strings *)

Definition str := list ascii.

Definition lit (s : string) : str := list_ascii_of_string s.
Coercion lit : string >-> str.

Definition len (s : str) : Z := Z.of_nat (length s).

(** [s.startswith(p)] *)
Fixpoint startswith (s p : str) {struct p} : bool :=
  match p, s with
  | [], _ => true
  | _ :: _, [] => false
  | a :: p', b :: s' => Ascii.eqb a b && startswith s' p'
  end.

(** [s.endswith(p)] *)
Definition endswith (s p : str) : bool := startswith (rev s) (rev p).

(** [s == t] *)
Fixpoint str_eqb (s t : str) : bool :=
  match s, t with
  | [], [] => true
  | a :: s', b :: t' => Ascii.eqb a b && str_eqb s' t'
  | _, _ => false
  end.

(** [s.find(sub)], counting from [i]: the lowest index where [sub] starts,
    or [-1]. *)
Fixpoint find_from (sub : str) (i : Z) (s : str) : Z :=
  if startswith s sub then i
  else match s with
       | [] => (-1)%Z
       | _ :: s' => find_from sub (i + 1) s'
       end.

Definition find (s sub : str) : Z := find_from sub 0 s.

(** [s.rfind(sub)], counting from [i]: the highest index where [sub]
    starts, or [-1]. *)
Fixpoint rfind_from (sub : str) (i : Z) (s : str) : Z :=
  let later := match s with
               | [] => (-1)%Z
               | _ :: s' => rfind_from sub (i + 1) s'
               end in
  if (0 <=? later)%Z then later
  else if startswith s sub then i else (-1)%Z.

Definition rfind (s sub : str) : Z := rfind_from sub 0 s.

(** [sub in s] *)
Definition contains (s sub : str) : bool := (0 <=? find s sub)%Z.

(** [s[:n]] and [s[n:]] for [n >= 0]. *)
Definition upto (s : str) (n : Z) : str := firstn (Z.to_nat n) s.
Definition from (s : str) (n : Z) : str := skipn (Z.to_nat n) s.

(** [s[-n:]] for [n >= 1] and [s[:-n]] for [n >= 1]. *)
Definition last_chars (s : str) (n : nat) : str := skipn (length s - n) s.
Definition drop_last (s : str) (n : nat) : str := firstn (length s - n) s.

(** [s[i]] and [s[-i]], read only where the index is in range. *)
Definition char_at (s : str) (i : nat) : ascii := nth i s zero.
Definition char_from_end (s : str) (i : nat) : ascii := nth (length s - i) s zero.

(** [s.replace(old, new)] for a non-empty [old]: occurrences are replaced
    from the left and do not overlap.  [skip] counts the characters of the
    occurrence being replaced that are still to be passed. *)
Fixpoint replace_scan (old new : str) (skip : nat) (s : str) : str :=
  match s with
  | [] => []
  | c :: s' =>
      match skip with
      | S k => replace_scan old new k s'
      | O => if startswith s old
             then new ++ replace_scan old new (length old - 1) s'
             else c :: replace_scan old new 0 s'
      end
  end.

Definition replace (s old new : str) : str := replace_scan old new 0 s.

(** [c.isspace()] for a code point below 256. *)
Definition isspace (c : ascii) : bool :=
  let n := nat_of_ascii c in
  ((9 <=? n) && (n <=? 13)) || ((28 <=? n) && (n <=? 32))
  || (n =? 133) || (n =? 160).

Fixpoint lstrip (s : str) : str :=
  match s with
  | c :: s' => if isspace c then lstrip s' else s
  | [] => []
  end.

Definition rstrip (s : str) : str := rev (lstrip (rev s)).
Definition strip (s : str) : str := rstrip (lstrip s).

(** Truth of a string: [if s] holds for the non-empty strings. *)
Definition truthy (s : str) : bool :=
  match s with [] => false | _ :: _ => true end.

(** ** Regular expressions ([re])

    The patterns of the two programs are sequences of single characters,
    [x?], [x*?] and [x+] over one character class, groups and one negative
    look-behind.  [match_at] is the backtracking matcher of [re] on such
    sequences: each quantifier tries its choices in the order [re] does and
    the first that lets the rest of the pattern match wins. *)

Module Regex.

Definition newline : ascii := "010"%char.

Inductive cls : Type :=
| Dot                    (* [.]: any character but a newline *)
| Chr (c : ascii)        (* the character [c] *)
| NotChr (c : ascii).    (* [[^c]]: any character but [c] *)

Definition in_cls (k : cls) (c : ascii) : bool :=
  match k with
  | Dot => negb (Ascii.eqb c newline)
  | Chr d => Ascii.eqb c d
  | NotChr d => negb (Ascii.eqb c d)
  end.

Inductive item : Type :=
| One (k : cls)          (* [x] *)
| Maybe (k : cls)        (* [x?] *)
| Lazy (k : cls)         (* [x*?] *)
| Many1 (k : cls)        (* [x+] *)
| Open (g : nat)         (* [(], group [g] *)
| Close (g : nat)        (* [)], group [g] *)
| NotBehind (c : ascii). (* [(?<!c)] *)

Definition regex : Type := list item.

(** A literal text. *)
Definition lits (s : string) : regex := map (fun c => One (Chr c)) (lit s).

Inductive mark : Type := Start (g : nat) | End (g : nat).

Definition mark_eqb (a b : mark) : bool :=
  match a, b with
  | Start g, Start h => g =? h
  | End g, End h => g =? h
  | _, _ => false
  end.

(** The group boundaries passed so far, the latest first. *)
Definition marks : Type := list (mark * nat).

(** A match: the index where it ends and the group boundaries. *)
Definition result : Type := option (nat * marks).

(** What is left of a match: from index [i], after the character [prev],
    on the rest [s] of the subject. *)
Definition cont : Type := nat -> option ascii -> str -> result.

(** [x*?]: leave to the rest of the pattern as early as it matches. *)
Fixpoint lazy_loop (k : cls) (rest : cont) (i : nat) (prev : option ascii) (s : str) : result :=
  match rest i prev s with
  | Some r => Some r
  | None =>
      match s with
      | c :: s' => if in_cls k c then lazy_loop k rest (S i) (Some c) s' else None
      | [] => None
      end
  end.

(** [x*]: take what can be taken, and give back until the rest matches. *)
Fixpoint greedy_loop (k : cls) (rest : cont) (i : nat) (prev : option ascii) (s : str) : result :=
  match s with
  | c :: s' =>
      if in_cls k c then
        match greedy_loop k rest (S i) (Some c) s' with
        | Some r => Some r
        | None => rest i prev s
        end
      else rest i prev s
  | [] => rest i prev s
  end.

Fixpoint match_at (re : regex) (ms : marks) {struct re} : cont :=
  match re with
  | [] => fun i _ _ => Some (i, ms)
  | One k :: re' =>
      fun i _ s =>
        match s with
        | c :: s' => if in_cls k c then match_at re' ms (S i) (Some c) s' else None
        | [] => None
        end
  | Maybe k :: re' =>
      fun i prev s =>
        match s with
        | c :: s' =>
            if in_cls k c then
              match match_at re' ms (S i) (Some c) s' with
              | Some r => Some r
              | None => match_at re' ms i prev s
              end
            else match_at re' ms i prev s
        | [] => match_at re' ms i prev s
        end
  | Lazy k :: re' => lazy_loop k (match_at re' ms)
  | Many1 k :: re' =>
      fun i _ s =>
        match s with
        | c :: s' =>
            if in_cls k c then greedy_loop k (match_at re' ms) (S i) (Some c) s'
            else None
        | [] => None
        end
  | Open g :: re' => fun i => match_at re' ((Start g, i) :: ms) i
  | Close g :: re' => fun i => match_at re' ((End g, i) :: ms) i
  | NotBehind c :: re' =>
      fun i prev s =>
        match prev with
        | Some d => if Ascii.eqb d c then None else match_at re' ms i prev s
        | None => match_at re' ms i prev s
        end
  end.

(** A match object: the subject, the span of the match and the group
    boundaries. *)
Record match_obj : Type := {
  subject : str;
  span_start : nat;
  span_end : nat;
  boundaries : marks
}.

Fixpoint boundary (m : mark) (ms : marks) : option nat :=
  match ms with
  | [] => None
  | (m', i) :: ms' => if mark_eqb m m' then Some i else boundary m ms'
  end.

(** [s[a:b]] *)
Definition slice (s : str) (a b : nat) : str := firstn (b - a) (skipn a s).

(** [m.group(g)] *)
Definition group (m : match_obj) (g : nat) : str :=
  match g with
  | O => slice (subject m) (span_start m) (span_end m)
  | S _ =>
      match boundary (Start g) (boundaries m), boundary (End g) (boundaries m) with
      | Some a, Some b => slice (subject m) a b
      | _, _ => []
      end
  end.

(** [re.search(re, subject)]: the match at the lowest index. *)
Fixpoint search_scan (re : regex) (whole : str) (i : nat) (prev : option ascii) (s : str) : option match_obj :=
  match match_at re [] i prev s with
  | Some (e, ms) =>
      Some {| subject := whole; span_start := i; span_end := e; boundaries := ms |}
  | None =>
      match s with
      | [] => None
      | c :: s' => search_scan re whole (S i) (Some c) s'
      end
  end.

Definition search (re : regex) (s : str) : option match_obj :=
  search_scan re s 0 None s.

(** [re.sub(re, repl, subject)] with a function [repl] that may act on a
    state [W]: the matches are found from the left, do not overlap, and
    each is replaced by what [repl] answers.  [skip] counts the characters
    of the current match still to be passed.  No pattern of the two
    programs matches the empty string, so a match passes at least one
    character and nothing is tried at the end of the subject. *)
Fixpoint sub_scan {W : Type} (re : regex) (repl : match_obj -> W -> str * W)
    (whole : str) (i : nat) (prev : option ascii) (skip : nat) (s : str) (w : W) : str * W :=
  match s with
  | [] => ([], w)
  | c :: s' =>
      match skip with
      | S k => sub_scan re repl whole (S i) (Some c) k s' w
      | O =>
          match match_at re [] i prev s with
          | Some (e, ms) =>
              let m := {| subject := whole; span_start := i; span_end := e; boundaries := ms |} in
              let (r, w1) := repl m w in
              let (out, w2) := sub_scan re repl whole (S i) (Some c) (e - i - 1) s' w1 in
              (r ++ out, w2)
          | None =>
              let (out, w1) := sub_scan re repl whole (S i) (Some c) 0 s' w in
              (c :: out, w1)
          end
      end
  end.

Definition sub {W : Type} (re : regex) (repl : match_obj -> W -> str * W) (s : str) (w : W) : str * W :=
  sub_scan re repl s 0 None 0 s w.

(** [re.sub] with a constant replacement. *)
Definition sub_const (re : regex) (repl : str) (s : str) : str :=
  fst (sub re (fun _ (w : unit) => (repl, w)) s tt).

End Regex.

(** ** [hashlib.md5] (RFC 1321)

    Words are 32-bit integers in [Z]; every sum wraps at [2^32]. *)

Module MD5.
Local Open Scope Z_scope.

Definition wrap (x : Z) : Z := x mod 2 ^ 32.

Definition rotl (x c : Z) : Z :=
  wrap (Z.lor (Z.shiftl x c) (Z.shiftr x (32 - c))).

Definition not32 (x : Z) : Z := Z.lxor x 0xffffffff.

Definition shifts : list Z :=
  [7; 12; 17; 22; 7; 12; 17; 22; 7; 12; 17; 22; 7; 12; 17; 22;
   5; 9; 14; 20; 5; 9; 14; 20; 5; 9; 14; 20; 5; 9; 14; 20;
   4; 11; 16; 23; 4; 11; 16; 23; 4; 11; 16; 23; 4; 11; 16; 23;
   6; 10; 15; 21; 6; 10; 15; 21; 6; 10; 15; 21; 6; 10; 15; 21].

(** [floor(2^32 * abs(sin(i + 1)))] for [i] from 0 to 63. *)
Definition sines : list Z :=
  [0xd76aa478; 0xe8c7b756; 0x242070db; 0xc1bdceee; 0xf57c0faf; 0x4787c62a;
   0xa8304613; 0xfd469501; 0x698098d8; 0x8b44f7af; 0xffff5bb1; 0x895cd7be;
   0x6b901122; 0xfd987193; 0xa679438e; 0x49b40821; 0xf61e2562; 0xc040b340;
   0x265e5a51; 0xe9b6c7aa; 0xd62f105d; 0x02441453; 0xd8a1e681; 0xe7d3fbc8;
   0x21e1cde6; 0xc33707d6; 0xf4d50d87; 0x455a14ed; 0xa9e3e905; 0xfcefa3f8;
   0x676f02d9; 0x8d2a4c8a; 0xfffa3942; 0x8771f681; 0x6d9d6122; 0xfde5380c;
   0xa4beea44; 0x4bdecfa9; 0xf6bb4b60; 0xbebfbc70; 0x289b7ec6; 0xeaa127fa;
   0xd4ef3085; 0x04881d05; 0xd9d4d039; 0xe6db99e5; 0x1fa27cf8; 0xc4ac5665;
   0xf4292244; 0x432aff97; 0xab9423a7; 0xfc93a039; 0x655b59c3; 0x8f0ccc92;
   0xffeff47d; 0x85845dd1; 0x6fa87e4f; 0xfe2ce6e0; 0xa3014314; 0x4e0811a1;
   0xf7537e82; 0xbd3af235; 0x2ad7d2bb; 0xeb86d391].

(** The message followed by the bit [1], zeros up to 56 modulo 64 bytes,
    and the length in bits on 8 bytes, the lowest first. *)
Definition le_bytes (n : nat) (x : Z) : list Z :=
  map (fun i => Z.shiftr x (8 * Z.of_nat i) mod 256) (seq 0 n).

Definition pad (msg : list Z) : list Z :=
  let n := Z.of_nat (length msg) in
  let zeros := Z.to_nat ((55 - n) mod 64) in
  msg ++ [0x80] ++ repeat 0 zeros ++ le_bytes 8 ((8 * n) mod 2 ^ 64).

Definition le_word (bs : list Z) : Z :=
  fold_right (fun b acc => b + 256 * acc) 0 bs.

Fixpoint words (n : nat) (bs : list Z) : list Z :=
  match n with
  | O => []
  | S n' => le_word (firstn 4 bs) :: words n' (skipn 4 bs)
  end.

Definition state : Type := Z * Z * Z * Z.

Definition round (m : list Z) (st : state) (i : nat) : state :=
  let '(a, b, c, d) := st in
  let j := Z.of_nat i in
  let '(f, g) :=
    if j <? 16 then (Z.lor (Z.land b c) (Z.land (not32 b) d), j)
    else if j <? 32 then (Z.lor (Z.land d b) (Z.land (not32 d) c), (5 * j + 1) mod 16)
    else if j <? 48 then (Z.lxor (Z.lxor b c) d, (3 * j + 5) mod 16)
    else (Z.lxor c (Z.lor b (not32 d)), (7 * j) mod 16) in
  let f := wrap (f + a + nth i sines 0 + nth (Z.to_nat g) m 0) in
  (d, wrap (b + rotl f (nth i shifts 0)), b, c).

Definition block (st : state) (bs : list Z) : state :=
  let m := words 16 bs in
  let '(a, b, c, d) := st in
  let '(a', b', c', d') := fold_left (round m) (seq 0 64) st in
  (wrap (a + a'), wrap (b + b'), wrap (c + c'), wrap (d + d')).

Fixpoint blocks (n : nat) (st : state) (bs : list Z) : state :=
  match n with
  | O => st
  | S n' => blocks n' (block st (firstn 64 bs)) (skipn 64 bs)
  end.

Definition init : state := (0x67452301, 0xefcdab89, 0x98badcfe, 0x10325476).

(** [hashlib.md5(msg).digest()], 16 bytes. *)
Definition digest (msg : list Z) : list Z :=
  let bs := pad msg in
  let '(a, b, c, d) := blocks (length bs / 64) init bs in
  le_bytes 4 a ++ le_bytes 4 b ++ le_bytes 4 c ++ le_bytes 4 d.

Definition hex_digit (x : Z) : ascii :=
  nth (Z.to_nat x) (lit "0123456789abcdef") "0"%char.

Definition hex_byte (b : Z) : str := [hex_digit (b / 16); hex_digit (b mod 16)].

(** [s.encode()]: UTF-8, for code points below 256. *)
Definition encode (s : str) : list Z :=
  flat_map (fun c =>
              let n := Z.of_nat (nat_of_ascii c) in
              if n <? 128 then [n] else [192 + n / 64; 128 + n mod 64]) s.

(** [hashlib.md5(s.encode()).hexdigest()] *)
Definition hexdigest (s : str) : str :=
  flat_map hex_byte (digest (encode s)).

End MD5.

(** ** [urllib.parse.urlparse(url).path] and [os.path.splitext]

    [urlparse] raises [ValueError] on a network location with unbalanced
    brackets, and on a bracketed host that Python's [ipaddress] module (or
    the IPvFuture pattern) rejects.  That last check is not modelled: its
    verdict on a network location holding both brackets is the parameter
    [bracketed_ok].  [None] stands for the exception.  For code points below
    256 the NFKC check of the network location never raises. *)

Module Url.

Definition is_ascii_alpha (c : ascii) : bool :=
  let n := nat_of_ascii c in
  ((65 <=? n) && (n <=? 90)) || ((97 <=? n) && (n <=? 122)).

Definition is_digit (c : ascii) : bool :=
  let n := nat_of_ascii c in (48 <=? n) && (n <=? 57).

(** [c.lower()] for a code point below 256. *)
Definition lower_char (c : ascii) : ascii :=
  let n := nat_of_ascii c in
  if ((65 <=? n) && (n <=? 90))
     || ((192 <=? n) && (n <=? 222) && negb (n =? 215))
  then ascii_of_nat (n + 32) else c.

Definition lower (s : str) : str := map lower_char s.

(** [scheme_chars]: letters, digits and [+-.] *)
Definition scheme_char (c : ascii) : bool :=
  is_ascii_alpha c || is_digit c
  || Ascii.eqb c "+" || Ascii.eqb c "-" || Ascii.eqb c ".".

(** [url.lstrip(_WHATWG_C0_CONTROL_OR_SPACE)] *)
Fixpoint lstrip_c0 (s : str) : str :=
  match s with
  | c :: s' => if nat_of_ascii c <=? 32 then lstrip_c0 s' else s
  | [] => []
  end.

(** Tab, carriage return and newline are removed from the URL. *)
Definition unsafe (c : ascii) : bool :=
  let n := nat_of_ascii c in (n =? 9) || (n =? 13) || (n =? 10).

(** [s.find(sub, start)] *)
Definition find_after (s sub : str) (start : Z) : Z :=
  let r := find (from s start) sub in
  if (r <? 0)%Z then (-1)%Z else (r + start)%Z.

(** [s.split(c, 1)[0]] when [c in s] *)
Definition before (s sub : str) : str := upto s (find s sub).

Definition uses_params : list str :=
  map lit [""; "ftp"; "hdl"; "prospero"; "http"; "imap"; "https"; "shttp";
           "rtsp"; "rtspu"; "sip"; "sips"; "mms"; "sftp"; "tel"].

(** [_splitnetloc(url, 2)] *)
Definition splitnetloc (url : str) : str * str :=
  let delim :=
    fold_left (fun delim c =>
                 let wdelim := find_after url [c] 2 in
                 if (wdelim >=? 0)%Z then Z.min delim wdelim else delim)
              (lit "/?#") (len url) in
  (firstn (Z.to_nat delim - 2) (skipn 2 url), from url delim).

(** [urlsplit(url)]: the scheme and the path. *)
Definition urlsplit (bracketed_ok : str -> bool) (url : str) : option (str * str) :=
  let url := lstrip_c0 url in
  let url := filter (fun c => negb (unsafe c)) url in
  let i := find url ":" in
  let '(scheme, url) :=
    if (i >? 0)%Z && is_ascii_alpha (char_at url 0) && forallb scheme_char (upto url i)
    then (lower (upto url i), from url (i + 1))
    else ([], url) in
  let after_netloc :=
    if str_eqb (upto url 2) "//" then
      let '(netloc, url) := splitnetloc url in
      if (contains netloc "[" && negb (contains netloc "]"))
         || (contains netloc "]" && negb (contains netloc "["))
      then None
      else if contains netloc "[" && contains netloc "]" && negb (bracketed_ok netloc)
      then None
      else Some url
    else Some url in
  match after_netloc with
  | None => None
  | Some url =>
      let url := if contains url "#" then before url "#" else url in
      let url := if contains url "?" then before url "?" else url in
      Some (scheme, url)
  end.

(** [_splitparams(url)[0]] *)
Definition splitparams (url : str) : str :=
  if contains url "/" then
    let i := find_after url ";" (rfind url "/") in
    if (i <? 0)%Z then url else upto url i
  else upto url (find url ";").

(** [urlparse(url).path] *)
Definition urlparse_path (bracketed_ok : str -> bool) (url : str) : option str :=
  match urlsplit bracketed_ok url with
  | None => None
  | Some (scheme, url) =>
      if existsb (str_eqb scheme) uses_params && contains url ";"
      then Some (splitparams url)
      else Some url
  end.

(** The [while] of [_splitext]: is a character other than a dot met before
    [dotIndex]?  The index rises at each turn, so [length p] turns are
    enough. *)
Fixpoint splitext_while (turns : nat) (p : str) (filenameIndex dotIndex : Z) : bool :=
  match turns with
  | O => false
  | S t =>
      if (filenameIndex <? dotIndex)%Z then
        if negb (Ascii.eqb (char_at p (Z.to_nat filenameIndex)) ".") then true
        else splitext_while t p (filenameIndex + 1) dotIndex
      else false
  end.

(** [os.path.splitext(p)[1]] on POSIX. *)
Definition splitext_ext (p : str) : str :=
  let sepIndex := rfind p "/" in
  let dotIndex := rfind p "." in
  if (dotIndex >? sepIndex)%Z && splitext_while (length p) p (sepIndex + 1) dotIndex
  then from p dotIndex
  else [].

End Url.

(** ** Filename normalizer ([clean_markdown.py]) *)

Module Normalizer.

Definition sep : str := " - ".
Definition md : str := ".md".

(** The inner [while] of [find_common_prefix]:
    [while i < len(prefix) and i < len(name) and prefix[i] == name[i]: i += 1].
    Each turn raises [i], and the guard fails once [i = len(prefix)], so
    [length prefix] turns are enough. *)
Fixpoint prefix_while (turns i : nat) (prefix name : str) : nat :=
  match turns with
  | O => i
  | S t =>
      if (i <? length prefix) && (i <? length name)
         && Ascii.eqb (char_at prefix i) (char_at name i)
      then prefix_while t (S i) prefix name
      else i
  end.

(** The [for name in names[1:]] loop with its [break]. *)
Fixpoint prefix_for (prefix : str) (names : list str) : str :=
  match names with
  | [] => prefix
  | name :: rest =>
      let i := prefix_while (length prefix) 0 prefix name in
      let prefix := upto prefix (Z.of_nat i) in
      if negb (truthy prefix) then prefix else prefix_for prefix rest
  end.

Definition find_common_prefix (filenames : list str) : str :=
  match filenames with
  | [] => []
  | _ :: _ =>
      let names := map (fun f => replace f md []) filenames in
      match names with
      | [] => []
      | first :: others =>
          let prefix := prefix_for first others in
          let prefix :=
            if contains prefix sep then
              let last_separator := rfind prefix sep in
              if (last_separator >? 0)%Z
              then upto prefix (last_separator + 3)
              else prefix
            else prefix in
          if (len prefix >? 3)%Z then prefix else []
      end
  end.

(** The inner [while] of [find_common_suffix], counting from [i = 1]:
    [while i <= len(suffix) and i <= len(name) and suffix[-i] == name[-i]]. *)
Fixpoint suffix_while (turns i : nat) (suffix name : str) : nat :=
  match turns with
  | O => i
  | S t =>
      if (i <=? length suffix) && (i <=? length name)
         && Ascii.eqb (char_from_end suffix i) (char_from_end name i)
      then suffix_while t (S i) suffix name
      else i
  end.

Fixpoint suffix_for (suffix : str) (names : list str) : str :=
  match names with
  | [] => suffix
  | name :: rest =>
      let i := suffix_while (length suffix) 1 suffix name in
      let suffix := if 1 <? i then last_chars suffix (i - 1) else [] in
      if negb (truthy suffix) then suffix else suffix_for suffix rest
  end.

Definition find_common_suffix (filenames : list str) : str :=
  match filenames with
  | [] => []
  | _ :: _ =>
      let names := map (fun f => replace f md []) filenames in
      match names with
      | [] => []
      | first :: others =>
          let suffix := suffix_for first others in
          let suffix :=
            if contains suffix sep then
              let first_separator := find suffix sep in
              if (first_separator >=? 0)%Z
              then from suffix first_separator
              else suffix
            else suffix in
          if (len suffix >? 3)%Z then suffix else []
      end
  end.

Definition clean_filename (original_filename common_prefix common_suffix : str) : str :=
  let cleaned := replace original_filename md [] in
  let cleaned :=
    if truthy common_prefix && startswith cleaned common_prefix
    then skipn (length common_prefix) cleaned
    else cleaned in
  let cleaned :=
    if truthy common_suffix && endswith cleaned common_suffix
    then drop_last cleaned (length common_suffix)
    else cleaned in
  strip cleaned ++ md.

End Normalizer.

(** ** Chapter numbering ([get_files_by_timestamp], [clean_markdown_files]) *)

Module Chapters.
Import Normalizer.

(** A file met by [os.walk]: its name and its modification time.  The time
    stamps are compared only, so an integer stands for each. *)
Definition entry : Type := str * Z.

(** Python's [list.sort(key=...)] is stable: an entry is put before the
    already sorted later entries whose time is not smaller. *)
Fixpoint insert_by_mtime (x : entry) (l : list entry) : list entry :=
  match l with
  | [] => [x]
  | y :: l' => if (snd x <=? snd y)%Z then x :: l else y :: insert_by_mtime x l'
  end.

Definition sort_by_mtime (l : list entry) : list entry :=
  fold_right insert_by_mtime [] l.

Definition get_files_by_timestamp (walk : list entry) : list str :=
  let md_files := filter (fun e => endswith (fst e) md) walk in
  map fst (sort_by_mtime md_files).

(** [str(n)] *)
Definition decimal (n : nat) : str :=
  lit (DecimalString.NilZero.string_of_uint (Nat.to_uint n)).

(** [f"{n:02d}"]: the decimal digits, padded with zeros on the left to two
    characters. *)
Definition format_02d (n : nat) : str :=
  let d := decimal n in repeat "0"%char (2 - length d) ++ d.

(** [enumerate(files, start=1)] *)
Definition enumerate_from_1 {A : Type} (l : list A) : list (nat * A) :=
  combine (seq 1 (length l)) l.

(** The names [clean_markdown_files] writes, in the order it writes them. *)
Definition new_filenames (walk : list entry) : list str :=
  let files := get_files_by_timestamp walk in
  let common_prefix := find_common_prefix files in
  let common_suffix := find_common_suffix files in
  map (fun '(chapter_num, original_filename) =>
         let cleaned_name := clean_filename original_filename common_prefix common_suffix in
         format_02d chapter_num ++ lit " - " ++ cleaned_name)
      (enumerate_from_1 files).

End Chapters.

(** ** Image fetcher and content cleaner ([clean_markdown.py]) *)

Module Cleaner.
Import Regex.

(** What [urllib.request.urlretrieve(url, filepath)] can do: write the
    file and return; raise before the file is opened; or raise after the
    file was created (an interrupted or short transfer). *)
Inductive outcome : Type := Retrieved | Refused | Broken.

(** What a run depends on besides the text it cleans: the names of the
    files in the images directory, the requests made to the network so far
    (the latest first), the behaviour of the network (it may depend on the
    earlier requests, on the URL and on the target file name), and Python's
    verdict on a bracketed host. *)
Record world : Type := {
  files : list str;
  requests : list str;
  network : list str -> str -> str -> outcome;
  bracketed_ok : str -> bool
}.

Definition with_request (w : world) (url : str) (created : list str) : world :=
  {| files := created ++ files w;
     requests := url :: requests w;
     network := network w;
     bracketed_ok := bracketed_ok w |}.

(** [filepath.exists()] *)
Definition file_exists (w : world) (filename : str) : bool :=
  existsb (str_eqb filename) (files w).

(** The name [download_image] computes; [None] when [urlparse] raises. *)
Definition local_name (w : world) (url : str) : option str :=
  let url_hash := firstn 12 (MD5.hexdigest url) in
  match Url.urlparse_path (bracketed_ok w) url with
  | None => None
  | Some path =>
      let ext := Url.splitext_ext path in
      let ext := if negb (truthy ext) then lit ".jpg" else ext in
      Some (lit "image_" ++ url_hash ++ ext)
  end.

(** [download_image(url, images_dir)]: every exception is caught and
    answered by [None]. *)
Definition download_image (url : str) (w : world) : option str * world :=
  match local_name w url with
  | None => (None, w)
  | Some filename =>
      if negb (file_exists w filename) then
        match network w (requests w) url filename with
        | Retrieved => (Some filename, with_request w url [filename])
        | Broken => (None, with_request w url [filename])
        | Refused => (None, with_request w url [])
        end
      else (Some filename, w)
  end.

(** [if local_filename:] *)
Definition got (local_filename : option str) : bool :=
  match local_filename with
  | Some f => truthy f
  | None => false
  end.

Definition name_of (local_filename : option str) : str :=
  match local_filename with Some f => f | None => [] end.

(** [r'\[(!\[.*?\]\(.*?\))\]\((https?://[^\)]+)\)'] *)
Definition nested_re : regex :=
  lits "[" ++ [Open 1] ++ lits "![" ++ [Lazy Dot] ++ lits "](" ++ [Lazy Dot]
  ++ lits ")" ++ [Close 1] ++ lits "](" ++ [Open 2] ++ lits "http"
  ++ [Maybe (Chr "s")] ++ lits "://" ++ [Many1 (NotChr ")"); Close 2] ++ lits ")".

(** [r'!\[(.*?)\]'] *)
Definition alt_re : regex := lits "![" ++ [Open 1; Lazy Dot; Close 1] ++ lits "]".

(** [r'!\[(.*?)\]\((.*?)\)'] *)
Definition image_re : regex :=
  lits "![" ++ [Open 1; Lazy Dot; Close 1] ++ lits "](" ++ [Open 2; Lazy Dot; Close 2]
  ++ lits ")".

(** [r'(?<!!)\[(.*?)\]\((.*?)\)'] *)
Definition link_re : regex :=
  [NotBehind "!"] ++ lits "[" ++ [Open 1; Lazy Dot; Close 1] ++ lits "]("
  ++ [Open 2; Lazy Dot; Close 2] ++ lits ")".

(** [r'\n\n\n+'] *)
Definition blank_re : regex :=
  [One (Chr newline); One (Chr newline); Many1 (Chr newline)].

(** [f"![{alt}](images/{name})"] *)
Definition local_image (alt name : str) : str :=
  lit "![" ++ alt ++ lit "](images/" ++ name ++ lit ")".

Definition replace_nested_image (m : match_obj) (w : world) : str * world :=
  let image_markdown := group m 1 in
  let outer_url := group m 2 in
  let alt_text :=
    match search alt_re image_markdown with
    | Some alt_match => group alt_match 1
    | None => []
    end in
  if startswith outer_url "http" then
    let (local_filename, w') := download_image outer_url w in
    if got local_filename
    then (local_image alt_text (name_of local_filename), w')
    else (alt_text, w')
  else (group m 0, w).

Definition replace_image (m : match_obj) (w : world) : str * world :=
  let alt_text := group m 1 in
  let url := group m 2 in
  if negb (startswith url "http") then (group m 0, w)
  else
    let (local_filename, w') := download_image url w in
    if got local_filename
    then (local_image alt_text (name_of local_filename), w')
    else (alt_text, w').

Definition image_extensions : list str :=
  map lit [".jpg"; ".jpeg"; ".png"; ".gif"; ".webp"; ".svg"].

Definition replace_link (m : match_obj) (w : world) : str * world :=
  let text := group m 1 in
  let url := group m 2 in
  if startswith url "#" then (group m 0, w)
  else if startswith url "http"
          && existsb (fun ext => endswith (Url.lower url) ext) image_extensions
  then
    let (local_filename, w') := download_image url w in
    if got local_filename
    then (local_image text (name_of local_filename), w')
    else (text, w')
  else (text, w).

(** The three substitutions made on a line, in order. *)
Definition clean_line (line : str) (w : world) : str * world :=
  let (line, w) := sub nested_re replace_nested_image line w in
  let (line, w) := sub image_re replace_image line w in
  sub link_re replace_link line w.

(** [content.split('\n')] *)
Fixpoint split_lines (s : str) : list str :=
  match s with
  | [] => [[]]
  | c :: s' =>
      if Ascii.eqb c newline then [] :: split_lines s'
      else match split_lines s' with
           | l :: ls => (c :: l) :: ls
           | [] => [[c]]
           end
  end.

(** ['\n'.join(lines)] *)
Fixpoint join_lines (lines : list str) : str :=
  match lines with
  | [] => []
  | [l] => l
  | l :: ls => l ++ newline :: join_lines ls
  end.

(** The [for] loop of [clean_content]. *)
Fixpoint clean_loop (title : str) (lines : list str) (found_first_heading : bool)
    (cleaned_lines : list str) (w : world) : list str * world :=
  match lines with
  | [] => (cleaned_lines, w)
  | line :: rest =>
      if negb found_first_heading && startswith (strip line) "# " then
        clean_loop title rest true (cleaned_lines ++ [lit "# " ++ title]) w
      else if negb (match cleaned_lines with [] => false | _ => true end)
              && negb (truthy (strip line)) then
        clean_loop title rest found_first_heading cleaned_lines w
      else
        let (line', w') := clean_line line w in
        clean_loop title rest found_first_heading (cleaned_lines ++ [line']) w'
  end.

(** The last steps of [clean_content], on the joined text. *)
Definition finish (content : str) : str :=
  let content := sub_const blank_re [newline; newline] content in
  rstrip content ++ [newline].

Definition clean_content (content title : str) (w : world) : str * world :=
  let lines := split_lines content in
  let (cleaned_lines, w') := clean_loop title lines false [] w in
  (finish (join_lines cleaned_lines), w').

End Cleaner.

(** ** Cleaning a book ([clean_markdown_files]) *)

Module Book.
Import Normalizer Chapters Cleaner.

(** The [for] loop over the files: each file is renamed and its text,
    read by [read], is cleaned in the world the earlier files left.  The
    answer lists what is written: file name and text. *)
Fixpoint write_chapters (common_prefix common_suffix : str) (read : str -> str)
    (files : list (nat * str)) (w : world) : list (str * str) * world :=
  match files with
  | [] => ([], w)
  | (chapter_num, original_filename) :: rest =>
      let cleaned_name := clean_filename original_filename common_prefix common_suffix in
      let title := replace cleaned_name md [] in
      let new_filename := format_02d chapter_num ++ lit " - " ++ cleaned_name in
      let content := read original_filename in
      let (cleaned_content, w1) := clean_content content title w in
      let (others, w2) := write_chapters common_prefix common_suffix read rest w1 in
      ((new_filename, cleaned_content) :: others, w2)
  end.

(** [None] stands for the answer [False], given when no markdown file is
    found. *)
Definition clean_markdown_files (walk : list entry) (read : str -> str) (w : world)
  : option (list (str * str)) * world :=
  let files := get_files_by_timestamp walk in
  match files with
  | [] => (None, w)
  | _ :: _ =>
      let common_prefix := find_common_prefix files in
      let common_suffix := find_common_suffix files in
      let (written, w') :=
        write_chapters common_prefix common_suffix read (enumerate_from_1 files) w in
      (Some written, w')
  end.

End Book.

(** ** Cover selection ([build_epub.py]) *)

Module Epub.
Import Regex.

(** [s.split(sub)] for a non-empty [sub]; [piece] is the text gathered
    since the last occurrence. *)
Fixpoint split_scan (sub : str) (skip : nat) (piece : str) (s : str) : list str :=
  match s with
  | [] => [piece]
  | c :: s' =>
      match skip with
      | S k => split_scan sub k piece s'
      | O => if startswith s sub
             then piece :: split_scan sub (length sub - 1) [] s'
             else split_scan sub 0 (piece ++ [c]) s'
      end
  end.

Definition split (s sub : str) : list str := split_scan sub 0 [] s.

(** [r'!\[.*?\]\((.*?)\)'] *)
Definition first_image_re : regex :=
  lits "![" ++ [Lazy Dot] ++ lits "](" ++ [Open 1; Lazy Dot; Close 1] ++ lits ")".

Definition find_first_image (markdown_content : str) : option str :=
  match search first_image_re markdown_content with
  | Some m =>
      let img_path := group m 1 in
      if contains img_path "images/"
      then Some (last (split img_path "images/") [])
      else Some img_path
  | None => None
  end.

(** An entry of the images directory: its name, whether it is a regular
    file, and its bytes. *)
Record image_entry : Type := {
  img_name : str;
  img_is_file : bool;
  img_data : str
}.

(** A cleaned book: the [*.md] files of the directory (name and text, in
    the order the directory lists them) and the images directory, if it
    exists. *)
Record book : Type := {
  md_listing : list (str * str);
  images_dir : option (list image_entry)
}.

(** [a <= b] on strings, by code points. *)
Fixpoint str_leb (a b : str) : bool :=
  match a, b with
  | [], _ => true
  | _ :: _, [] => false
  | x :: a', y :: b' =>
      if Ascii.eqb x y then str_leb a' b'
      else nat_of_ascii x <? nat_of_ascii y
  end.

(** [sorted(...)] by name. *)
Fixpoint insert_by {A : Type} (key : A -> str) (x : A) (l : list A) : list A :=
  match l with
  | [] => [x]
  | y :: l' => if str_leb (key x) (key y) then x :: l else y :: insert_by key x l'
  end.

Definition sorted_by {A : Type} (key : A -> str) (l : list A) : list A :=
  fold_right (insert_by key) [] l.

(** [Path.suffix] *)
Definition suffix (name : str) : str :=
  let i := rfind name "." in
  if (0 <? i)%Z && (i <? len name - 1)%Z then from name i else [].

Definition images (b : book) : list image_entry :=
  match images_dir b with Some es => es | None => [] end.

(** [(images_dir / name).exists()] *)
Definition image_exists (b : book) (name : str) : bool :=
  existsb (fun e => str_eqb (img_name e) name) (images b).

(** The first [for] loop: [cover.webp], [cover.png], [cover.jpg],
    [cover.jpeg], with its [break]. *)
Fixpoint cover_loop (b : book) (exts : list str) (cover_image_name : option str) : option str :=
  match exts with
  | [] => cover_image_name
  | ext :: rest =>
      if image_exists b (lit "cover" ++ ext)
      then Some (lit "cover" ++ ext)
      else cover_loop b rest cover_image_name
  end.

(** The second loop, over the chapters in order, with its [break]: the
    name is assigned at every turn. *)
Fixpoint chapter_loop (md_files : list (str * str)) (cover_image_name : option str) : option str :=
  match md_files with
  | [] => cover_image_name
  | (_, content) :: rest =>
      let cover_image_name := find_first_image content in
      if Cleaner.got cover_image_name then cover_image_name
      else chapter_loop rest cover_image_name
  end.

Definition cover_extensions : list str := map lit [".webp"; ".png"; ".jpg"; ".jpeg"].
Definition image_suffixes : list str := map lit [".jpg"; ".jpeg"; ".png"; ".webp"].

(** The image files of the third rule, sorted. *)
Definition image_files (b : book) : list image_entry :=
  sorted_by img_name
    (filter (fun f => img_is_file f
                      && existsb (str_eqb (Url.lower (suffix (img_name f)))) image_suffixes)
            (images b)).

(** The value of [cover_image_name] when the chapters are processed. *)
Definition cover_image_name (b : book) : option str :=
  let md_files := sorted_by fst (md_listing b) in
  let name := cover_loop b cover_extensions None in
  let name :=
    if negb (Cleaner.got name) && (match md_files with [] => false | _ => true end)
    then chapter_loop md_files name
    else name in
  if negb (Cleaner.got name) && (match images_dir b with Some _ => true | None => false end)
  then match image_files b with
       | f :: _ => Some (img_name f)
       | [] => name
       end
  else name.

(** The cover handed to [book.set_cover], if any: the loop over the images
    directory keeps the bytes and the suffix of the file named
    [cover_image_name], and the cover is set when both are non-empty. *)
Definition cover_set (b : book) : option (str * str) :=
  let name := cover_image_name b in
  let kept :=
    fold_left (fun kept f =>
                 if img_is_file f
                    && Cleaner.got name && str_eqb (img_name f) (Cleaner.name_of name)
                 then Some (img_data f, suffix (img_name f))
                 else kept)
              (images b) None in
  match kept with
  | Some (data, ext) =>
      if truthy data && truthy ext then Some (lit "cover" ++ ext, data) else None
  | None => None
  end.

(** [create_epub]: [None] when there is no markdown file (the function
    returns [False]); else the chapter files in order and the cover. *)
Definition create_epub (b : book) : option (list str * option (str * str)) :=
  let md_files := sorted_by fst (md_listing b) in
  match md_files with
  | [] => None
  | _ :: _ => Some (map fst md_files, cover_set b)
  end.

End Epub.

(** ** Vocabulary of the statements *)

Definition is_prefix (p s : str) : Prop := exists t, s = p ++ t.
Definition is_suffix (p s : str) : Prop := exists t, s = t ++ p.

(** [sub] occurs in [s] at index [i]. *)
Definition occurs_at (sub s : str) (i : nat) : Prop :=
  exists a b, s = a ++ sub ++ b /\ length a = i.

(** One turn of the [for] loop of [find_common_prefix] and of
    [find_common_suffix]: the prefix, or suffix, kept after comparing with
    [name]. *)
Definition prefix_turn (prefix name : str) : str :=
  upto prefix (Z.of_nat (Normalizer.prefix_while (length prefix) 0 prefix name)).

Definition suffix_turn (suffix name : str) : str :=
  let i := Normalizer.suffix_while (length suffix) 1 suffix name in
  if 1 <? i then last_chars suffix (i - 1) else [].

(** The names the normalizer compares, as the code makes them: each
    filename with every [.md] removed ([f.replace('.md', '')]). *)
Definition replaced_names (filenames : list str) : list str :=
  map (fun f => replace f Normalizer.md []) filenames.

(** A filename with its extension stripped: the name without its final
    [.md]. *)
Definition strip_extension (f : str) : str :=
  if endswith f Normalizer.md then drop_last f 3 else f.

(** The names of the statements: the filenames, extensions stripped. *)
Definition stripped_names (filenames : list str) : list str :=
  map strip_extension filenames.

(** [s] is a suffix of every name, and no common suffix is longer. *)
Definition longest_common_suffix (names : list str) (s : str) : Prop :=
  Forall (is_suffix s) names
  /\ forall t, Forall (is_suffix t) names -> length t <= length s.

(** [s] is a prefix of every name, and no common prefix is longer. *)
Definition longest_common_prefix (names : list str) (s : str) : Prop :=
  Forall (is_prefix s) names
  /\ forall t, Forall (is_prefix t) names -> length t <= length s.

(** [s'] is [s] cut to start at the first occurrence of [sub], or [s]
    itself when [sub] does not occur in it. *)
Definition cut_at_first (sub s s' : str) : Prop :=
  ((forall i, ~ occurs_at sub s i) /\ s' = s)
  \/ (exists a b, s = a ++ sub ++ b
                  /\ (forall j, occurs_at sub s j -> length a <= j)
                  /\ s' = sub ++ b).

(** [s'] is [s] cut to end right after the last occurrence of [sub], or [s]
    itself when [sub] does not occur in it. *)
Definition cut_after_last (sub s s' : str) : Prop :=
  ((forall i, ~ occurs_at sub s i) /\ s' = s)
  \/ (exists a b, s = a ++ sub ++ b
                  /\ (forall j, occurs_at sub s j -> j <= length a)
                  /\ s' = a ++ sub).

(** A result shorter than 4 characters is discarded. *)
Definition discard_short (s : str) : str :=
  if length s <? 4 then [] else s.



(** The character a scan has just passed: the last of [t], or [prev] when
    [t] is empty. *)
Definition prev_after (prev : option ascii) (t : str) : option ascii :=
  fold_left (fun _ c => Some c) t prev.

(** [re] matches at no index of [pre], in the subject [pre ++ rest] read
    from index [i] after the character [prev]. *)
Fixpoint no_match_in (re : Regex.regex) (i : nat) (prev : option ascii) (pre rest : str) : Prop :=
  match pre with
  | [] => True
  | c :: pre' =>
      Regex.match_at re [] i prev (pre ++ rest) = None
      /\ no_match_in re (S i) (Some c) pre' rest
  end.

(** Blank-line squeezing, told directly: of each run of newlines the first
    two are kept.  [run] counts the newlines just passed. *)
Fixpoint squeeze_from (run : nat) (s : str) : str :=
  match s with
  | [] => []
  | c :: s' =>
      if Ascii.eqb c Regex.newline
      then if run <? 2 then c :: squeeze_from (S run) s' else squeeze_from (S run) s'
      else c :: squeeze_from 0 s'
  end.

(** [s] does not begin, or does not end, with a newline. *)
Definition no_newline_first (s : str) : Prop :=
  forall c s', s = c :: s' -> c <> Regex.newline.

Definition no_newline_last (s : str) : Prop :=
  forall s' c, s = s' ++ [c] -> c <> Regex.newline.

(** [n] newlines. *)
Definition newlines (n : nat) : str := repeat Regex.newline n.

(** The number of newlines [s] begins with. *)
Fixpoint leading_newlines (s : str) : nat :=
  match s with
  | c :: s' => if Ascii.eqb c Regex.newline then S (leading_newlines s') else 0
  | [] => 0
  end.

(** Characters that cannot open or close the parts of an image or link
    markup: the text between the square brackets holds no bracket and no
    newline, the target holds no opening bracket, no closing parenthesis
    and no newline, and the text around the markup holds no opening
    bracket. *)
Definition text_char (c : ascii) : Prop :=
  c <> "["%char /\ c <> "]"%char /\ c <> Regex.newline.

Definition target_char (c : ascii) : Prop :=
  c <> "["%char /\ c <> ")"%char /\ c <> Regex.newline.

Definition no_bracket (c : ascii) : Prop := c <> "["%char.

(** [![alt](url)] and [[text](url)] *)
Definition image_markup (alt url : str) : str :=
  lit "![" ++ alt ++ lit "](" ++ url ++ lit ")".

Definition link_markup (text url : str) : str :=
  lit "[" ++ text ++ lit "](" ++ url ++ lit ")".

(** A lower-case hexadecimal digit. *)
Definition is_hex (c : ascii) : Prop := In c (lit "0123456789abcdef").

(** The replacement of [re.sub(r'\n\n\n+', '\n\n', _)] as a function of
    the match. *)
Definition two : Regex.match_obj -> unit -> str * unit :=
  fun _ w => ([Regex.newline; Regex.newline], w).

(** The tail shared by [image_re] and [link_re], from the first group on:
    [(.*?)\]\((.*?)\)]. *)
Definition groups_re : Regex.regex :=
  [Regex.Open 1; Regex.Lazy Regex.Dot; Regex.Close 1] ++ Regex.lits "]("
  ++ [Regex.Open 2; Regex.Lazy Regex.Dot; Regex.Close 2] ++ Regex.lits ")".

(** The order of two items by their keys: [key x <= key y]. *)
Definition by_key {A : Type} (key : A -> str) (x y : A) : Prop :=
  Epub.str_leb (key x) (key y) = true.

(** The cover as the statements word it. *)
Module CoverSpec.
Import Epub.

(** A book directory holds one entry per name. *)
Definition image_names (b : book) : list str := map img_name (images b).

Definition one_entry_per_name (b : book) : Prop :=
  NoDup (map fst (md_listing b)) /\ NoDup (image_names b).

(** The chapters: the markdown files of the book in the order of their
    names. *)
Definition in_name_order (b : book) (chapters : list (str * str)) : Prop :=
  Permutation chapters (md_listing b)
  /\ Sorted (by_key fst) chapters.

(** The cover files the assembler looks for, in its order. *)
Definition cover_names : list str :=
  map lit ["cover.webp"; "cover.png"; "cover.jpg"; "cover.jpeg"].

(** Rule 1: [name] is the first of the cover names that is in the images
    directory. *)
Definition cover_file (b : book) (name : str) : Prop :=
  exists earlier later,
    cover_names = earlier ++ name :: later
    /\ In name (image_names b)
    /\ forall n, In n earlier -> ~ In n (image_names b).

Definition no_cover_file (b : book) : Prop :=
  forall n, In n cover_names -> ~ In n (image_names b).

(** The first image reference of a text, [![alt](target)]: no [![] comes
    before it, the alt text holds no []], the target no [)], and neither
    holds a line break. *)
Definition first_reference (text target : str) : Prop :=
  exists before alt after,
    text = before ++ image_markup alt target ++ after
    /\ (forall i, ~ occurs_at (lit "![") before i)
    /\ Forall (fun c => c <> "]"%char /\ c <> Regex.newline) alt
    /\ Forall (fun c => c <> ")"%char /\ c <> Regex.newline) target.

(** A text that opens no image reference. *)
Definition no_reference (text : str) : Prop :=
  forall i, ~ occurs_at (lit "![") text i.

(** The file a target names: what follows its last [images/], or the
    target itself when it holds no [images/]. *)
Definition names_file (target name : str) : Prop :=
  (exists a, target = a ++ lit "images/" ++ name
             /\ forall i, ~ occurs_at (lit "images/") name i)
  \/ ((forall i, ~ occurs_at (lit "images/") target i) /\ name = target).

(** Rule 2, for one chapter: the file its first image reference names,
    when that name is not empty. *)
Definition yields (text name : str) : Prop :=
  exists target, first_reference text target /\ names_file target name /\ name <> [].

Definition yields_nothing (text : str) : Prop :=
  no_reference text \/ exists target, first_reference text target /\ names_file target [].

(** An image file of the images directory: a regular file whose extension
    is, whatever the case, [.jpg], [.jpeg], [.png] or [.webp]. *)
Definition image_file (e : image_entry) : Prop :=
  img_is_file e = true
  /\ In (Url.lower (suffix (img_name e))) (map lit [".jpg"; ".jpeg"; ".png"; ".webp"]).

(** Rule 3: the image file whose name comes first. *)
Definition first_image_file (b : book) (name : str) : Prop :=
  exists e, In e (images b) /\ image_file e /\ img_name e = name
            /\ forall e', In e' (images b) -> image_file e' ->
                          str_leb name (img_name e') = true.

Definition no_image_file (b : book) : Prop :=
  forall e, In e (images b) -> ~ image_file e.

(** The name the three rules select, the first rule that yields a name
    winning; the chapters are tried in order. *)
Inductive selects (b : book) (chapters : list (str * str)) : str -> Prop :=
| by_cover_file (name : str) :
    cover_file b name -> selects b chapters name
| by_reference (before : list (str * str)) (chapter text : str)
    (after : list (str * str)) (name : str) :
    no_cover_file b ->
    chapters = before ++ (chapter, text) :: after ->
    Forall (fun c => yields_nothing (snd c)) before ->
    yields text name ->
    selects b chapters name
| by_image_file (name : str) :
    no_cover_file b ->
    Forall (fun c => yields_nothing (snd c)) chapters ->
    first_image_file b name ->
    selects b chapters name.

Definition selects_none (b : book) (chapters : list (str * str)) : Prop :=
  no_cover_file b
  /\ Forall (fun c => yields_nothing (snd c)) chapters
  /\ no_image_file b.

(** The cover the file [name] makes: it is a regular file of the images
    directory with content, its name has an extension, and the cover is
    stored as [cover] with that extension. *)
Definition cover_of (b : book) (name : str) (cover : str * str) : Prop :=
  exists e, In e (images b) /\ img_name e = name /\ img_is_file e = true
            /\ img_data e <> [] /\ suffix name <> []
            /\ cover = (lit "cover" ++ suffix name, img_data e).

(** The file [name] makes no cover: it is missing from the images
    directory, is not a regular file, is empty, or has no extension. *)
Definition no_cover_of (b : book) (name : str) : Prop :=
  forall e, In e (images b) -> img_name e = name ->
            img_is_file e = false \/ img_data e = [] \/ suffix name = [].

End CoverSpec.

(** ** Sample inputs *)

(** An empty images directory with a network that delivers every image,
    and one with a network that refuses every request. *)
Definition online : Cleaner.world :=
  {| Cleaner.files := [];
     Cleaner.requests := [];
     Cleaner.network := fun _ _ _ => Cleaner.Retrieved;
     Cleaner.bracketed_ok := fun _ => true |}.

Definition offline : Cleaner.world :=
  {| Cleaner.files := [];
     Cleaner.requests := [];
     Cleaner.network := fun _ _ _ => Cleaner.Refused;
     Cleaner.bracketed_ok := fun _ => true |}.

(** A book of two chapters, listed out of order, with no cover file. *)
Definition sample_book : Epub.book :=
  {| Epub.md_listing := [("02 - B.md" : str, "text ![b](images/image_2.png)" : str);
                    ("01 - A.md" : str, "intro ![a](images/image_1.png) end" : str)];
     Epub.images_dir := Some [ {| Epub.img_name := "image_0.png"; Epub.img_is_file := true; Epub.img_data := "x" |};
                          {| Epub.img_name := "image_1.png"; Epub.img_is_file := true; Epub.img_data := "y" |} ] |}.

(** A book whose only chapter refers to an image that is not in the images
    directory, and a book whose images directory holds [cover.gif] only. *)
Definition book_without_referenced_image : Epub.book :=
  {| Epub.md_listing := [("01 - A.md" : str, "![a](pic.png)" : str)];
     Epub.images_dir := Some [ {| Epub.img_name := "image_0.png"; Epub.img_is_file := true; Epub.img_data := "x" |} ] |}.

Definition book_with_gif_cover : Epub.book :=
  {| Epub.md_listing := [("01 - A.md" : str, "text" : str)];
     Epub.images_dir := Some [ {| Epub.img_name := "cover.gif"; Epub.img_is_file := true; Epub.img_data := "g" |} ] |}.

(** A link target the cleaner takes for an image: it starts with [http]
    and, in lower case, the target itself ends with one of the six
    extensions. *)
Definition image_target (url : str) : bool :=
  startswith url "http"
  && existsb (fun ext => endswith (Url.lower url) ext) Cleaner.image_extensions.

(** The number a written chapter name begins with: its leading decimal
    digits, read from the left. *)
Fixpoint leading_number (acc : nat) (s : str) : nat :=
  match s with
  | c :: s' =>
      if Url.is_digit c
      then leading_number (10 * acc + (nat_of_ascii c - 48)) s'
      else acc
  | [] => acc
  end.

(** The world [w'] comes after [w]: no file of the images directory is
    lost, the requests of [w] are still recorded, after those made since,
    and the network and the library verdicts are the same. *)
Definition grows (w w' : Cleaner.world) : Prop :=
  incl (Cleaner.files w) (Cleaner.files w')
  /\ (exists made, Cleaner.requests w' = made ++ Cleaner.requests w)
  /\ Cleaner.network w' = Cleaner.network w
  /\ Cleaner.bracketed_ok w' = Cleaner.bracketed_ok w.

(** ** Lines made of texts and references *)

(** The parts of a line: a text, an image reference [![alt](url)], a
    hyperlink [[text](url)], and the nested form of the clipper,
    [[![alt](inner)](outer)], an image reference wrapped in a link to the
    image itself. *)
Inductive piece : Type :=
| Text (t : str)
| Image (alt url : str)
| Link (text url : str)
| Nested (alt inner outer : str).

Definition nested_markup (alt inner outer : str) : str :=
  lit "[" ++ image_markup alt inner ++ lit "](" ++ outer ++ lit ")".

Definition render (p : piece) : str :=
  match p with
  | Text t => t
  | Image alt url => image_markup alt url
  | Link text url => link_markup text url
  | Nested alt inner outer => nested_markup alt inner outer
  end.

(** The line the parts make, written one after the other. *)
Definition render_line (ps : list piece) : str := flat_map render ps.

(** The outer URL of a nested form: [http://] or [https://] and at least
    one more character. *)
Definition remote (url : str) : bool :=
  (startswith url "http://" && (7 <? length url))
  || (startswith url "https://" && (8 <? length url)).

(** The characters of the parts: a text holds no [[]; the text between the
    square brackets of a reference holds no square bracket, its target no
    [[] and no [)], and neither holds a line break. *)
Definition piece_ok (p : piece) : Prop :=
  match p with
  | Text t => Forall no_bracket t
  | Image alt url => Forall text_char alt /\ Forall target_char url
  | Link text url => Forall text_char text /\ Forall target_char url
  | Nested alt inner outer =>
      Forall text_char alt /\ Forall target_char inner
      /\ Forall target_char outer /\ remote outer = true
  end.

(** The text of a part: what is left of a reference reduced to its text. *)
Definition label (p : piece) : str :=
  match p with
  | Text t => t
  | Image alt _ => alt
  | Link text _ => text
  | Nested alt _ _ => alt
  end.

(** Whether a text ends with [!]; an empty text leaves the answer [bang]
    of what comes before it. *)
Definition bang_after (bang : bool) (t : str) : bool :=
  fold_left (fun _ c => Ascii.eqb c "!") t bang.

(** No hyperlink comes right after a [!]: not in the line, and not once
    references before it are reduced to their texts.  [bang] tells whether
    the texts before [ps] end with [!]. *)
Fixpoint links_clear (bang : bool) (ps : list piece) : bool :=
  match ps with
  | [] => true
  | p :: rest =>
      match p with Link _ _ => negb bang | _ => true end
      && links_clear (bang_after bang (label p)) rest
  end.

Definition well_formed (ps : list piece) : Prop :=
  Forall piece_ok ps /\ links_clear false ps = true.

(** What a reference becomes once its image is asked for: a reference to
    the local file under [images/], or its text alone when the download
    fails. *)
Definition fetched (text url : str) (w : Cleaner.world) : piece * Cleaner.world :=
  match Cleaner.download_image url w with
  | (Some name, w') => (Image text (lit "images/" ++ name), w')
  | (None, w') => (Text text, w')
  end.

(** The nested form is fetched from its outer URL. *)
Definition unwrap (p : piece) (w : Cleaner.world) : piece * Cleaner.world :=
  match p with
  | Nested alt _ outer => fetched alt outer w
  | _ => (p, w)
  end.

(** An image reference is fetched when its URL starts with [http], and
    kept as written otherwise. *)
Definition localize (p : piece) (w : Cleaner.world) : piece * Cleaner.world :=
  match p with
  | Image alt url => if startswith url "http" then fetched alt url w else (p, w)
  | _ => (p, w)
  end.

(** A hyperlink is kept when its target starts with [#], fetched as an
    image when its target is taken for one, and reduced to its text
    otherwise. *)
Definition unlink (p : piece) (w : Cleaner.world) : piece * Cleaner.world :=
  match p with
  | Link text url =>
      if startswith url "#" then (p, w)
      else if image_target url then fetched text url w
      else (Text text, w)
  | _ => (p, w)
  end.

(** One rule applied to the parts from left to right, the world passed
    along. *)
Fixpoint each (f : piece -> Cleaner.world -> piece * Cleaner.world)
    (ps : list piece) (w : Cleaner.world) : list piece * Cleaner.world :=
  match ps with
  | [] => ([], w)
  | p :: rest =>
      let (p', w1) := f p w in
      let (rest', w2) := each f rest w1 in
      (p' :: rest', w2)
  end.

(** The line cleaned part by part: the nested forms first, then the image
    references, then the hyperlinks. *)
Definition clean_pieces (ps : list piece) (w : Cleaner.world) : list piece * Cleaner.world :=
  let (ps1, w1) := each unwrap ps w in
  let (ps2, w2) := each localize ps1 w1 in
  each unlink ps2 w2.

(** A part that is not the nested form. *)
Definition plain (p : piece) : Prop :=
  match p with Nested _ _ _ => False | _ => True end.

(** What a fetched reference is found to be: what [fetched] answers in a
    world that comes after [w]. *)
Definition fetched_later (w : Cleaner.world) (text url : str) (q : piece) : Prop :=
  exists w', grows w w' /\ q = fst (fetched text url w').

(** What a part of a line has become once the line is cleaned, from the
    world [w] on. *)
Definition becomes (w : Cleaner.world) (p q : piece) : Prop :=
  match p with
  | Text t => q = Text t
  | Image alt url =>
      if startswith url "http" then fetched_later w alt url q else q = Image alt url
  | Link text url =>
      if startswith url "#" then q = Link text url
      else if image_target url then fetched_later w text url q
      else q = Text text
  | Nested alt _ outer => fetched_later w alt outer q
  end.

(** An image reference is settled when it is one of the references of the
    line [ps] whose URL does not start with [http], or when its target is
    under [images/]; a hyperlink, when its target starts with [#]. *)
Definition settled (ps : list piece) (q : piece) : Prop :=
  match q with
  | Text _ => True
  | Image alt url =>
      (In (Image alt url) ps /\ startswith url "http" = false)
      \/ startswith url "images/" = true
  | Link _ url => startswith url "#" = true
  | Nested _ _ _ => False
  end.

(** The download of [url] is refused in [w]: the URL cannot be parsed, or
    no file of its name is in the images directory and the network refuses
    it whatever was requested before. *)
Definition refused (w : Cleaner.world) (url : str) : Prop :=
  Cleaner.local_name w url = None
  \/ exists name,
       Cleaner.local_name w url = Some name
       /\ Cleaner.file_exists w name = false
       /\ forall reqs, Cleaner.network w reqs url name = Cleaner.Refused.

(** Every download the part asks for is refused. *)
Definition doomed (w : Cleaner.world) (p : piece) : Prop :=
  match p with
  | Text _ => True
  | Image _ url => startswith url "http" = true -> refused w url
  | Link _ url => startswith url "#" = false -> image_target url = true -> refused w url
  | Nested _ _ outer => refused w outer
  end.

(** A part whose downloads fail: the reference gives way to its text. *)
Definition degraded (p : piece) : piece :=
  match p with
  | Text t => Text t
  | Image alt url => if startswith url "http" then Text alt else Image alt url
  | Link text url => if startswith url "#" then Link text url else Text text
  | Nested alt _ _ => Text alt
  end.

(** What each of the three rules makes of a part. *)
Definition unwrapped (w : Cleaner.world) (p q : piece) : Prop :=
  match p with
  | Nested alt _ outer => fetched_later w alt outer q
  | _ => q = p
  end.

Definition localized (w : Cleaner.world) (p q : piece) : Prop :=
  match p with
  | Image alt url => if startswith url "http" then fetched_later w alt url q else q = p
  | _ => q = p
  end.

Definition unlinked (w : Cleaner.world) (p q : piece) : Prop :=
  match p with
  | Link text url =>
      if startswith url "#" then q = p
      else if image_target url then fetched_later w text url q
      else q = Text text
  | _ => q = p
  end.

(** Two worlds with the same images directory, network and library
    verdicts: they differ by the requests recorded. *)
Definition same_store (w w' : Cleaner.world) : Prop :=
  Cleaner.files w' = Cleaner.files w
  /\ Cleaner.network w' = Cleaner.network w
  /\ Cleaner.bracketed_ok w' = Cleaner.bracketed_ok w.

(** What the three rules make of a part whose download fails. *)
Definition unwrap_failed (p : piece) : piece :=
  match p with Nested alt _ _ => Text alt | _ => p end.

Definition localize_failed (p : piece) : piece :=
  match p with
  | Image alt url => if startswith url "http" then Text alt else p
  | _ => p
  end.

Definition unlink_failed (p : piece) : piece :=
  match p with
  | Link text url => if startswith url "#" then p else Text text
  | _ => p
  end.

(** * Properties *)

(** ** Strings *)

Lemma startswith_iff (s p : str) : startswith s p = true <-> is_prefix p s.
Proof.
  revert s; induction p as [|a p IH]; intros s; simpl.
  - split; [intros _; exists s; reflexivity | reflexivity].
  - destruct s as [|b s].
    + split; [discriminate | intros [t H]; discriminate].
    + rewrite andb_true_iff, Ascii.eqb_eq, IH. split.
      * intros [-> [t ->]]. exists t; reflexivity.
      * intros [t H]. injection H as -> ->. split; [reflexivity | exists t; reflexivity].
Qed.

Lemma startswith_app (p t : str) : startswith (p ++ t) p = true.
Proof. apply startswith_iff; exists t; reflexivity. Qed.

Lemma endswith_iff (s p : str) : endswith s p = true <-> is_suffix p s.
Proof.
  unfold endswith. rewrite startswith_iff. split.
  - intros [t H]. exists (rev t).
    rewrite <- (rev_involutive s), H, rev_app_distr, rev_involutive. reflexivity.
  - intros [t ->]. exists (rev t). apply rev_app_distr.
Qed.

Lemma str_eqb_eq (s t : str) : str_eqb s t = true <-> s = t.
Proof.
  revert t; induction s as [|a s IH]; intros [|b t]; simpl;
    try (split; [discriminate | discriminate]); try tauto.
  rewrite andb_true_iff, Ascii.eqb_eq, IH. split.
  - intros [-> ->]; reflexivity.
  - intros H; injection H as -> ->; auto.
Qed.

Lemma occurs_at_skipn (sub s : str) (i : nat) :
  occurs_at sub s i <-> i <= length s /\ startswith (skipn i s) sub = true.
Proof.
  split.
  - intros (a & b & -> & <-). split.
    + rewrite length_app. lia.
    + rewrite skipn_app, Nat.sub_diag, skipn_all. simpl. apply startswith_app.
  - intros [Hi H]. apply startswith_iff in H as [b Hb].
    exists (firstn i s), b. split.
    + rewrite <- Hb. symmetry. apply firstn_skipn.
    + apply firstn_length_le. exact Hi.
Qed.

(** [find]: either no occurrence and [-1], or the index of the first. *)
Lemma find_from_spec (sub s : str) (k : Z) :
  (find_from sub k s = (-1)%Z /\ forall i, ~ occurs_at sub s i)
  \/ (exists i, find_from sub k s = (k + Z.of_nat i)%Z /\ occurs_at sub s i
                /\ forall j, occurs_at sub s j -> i <= j).
Proof.
  revert k; induction s as [|c s IH]; intros k; simpl.
  - destruct (startswith [] sub) eqn:E.
    + right. exists 0. split; [lia|]. split; [|intros; lia].
      apply occurs_at_skipn. split; [simpl; lia | exact E].
    + left. split; [reflexivity|]. intros i Hi.
      apply occurs_at_skipn in Hi as [Hl Hs]. simpl in Hl.
      replace i with 0 in Hs by lia. simpl in Hs. congruence.
  - destruct (startswith (c :: s) sub) eqn:E.
    + right. exists 0. split; [lia|]. split; [|intros; lia].
      apply occurs_at_skipn. split; [simpl; lia | exact E].
    + destruct (IH (k + 1)%Z) as [[H1 H2] | (i & H1 & H2 & H3)].
      * left. split; [exact H1|]. intros i Hi.
        apply occurs_at_skipn in Hi as [Hl Hs].
        destruct i as [|i]; [simpl in Hs; congruence|].
        apply (H2 i). apply occurs_at_skipn. simpl in Hl, Hs. split; [lia | exact Hs].
      * right. exists (S i). split; [rewrite H1; lia|]. split.
        -- apply occurs_at_skipn in H2 as [Hl Hs].
           apply occurs_at_skipn. simpl. split; [lia | exact Hs].
        -- intros j Hj. apply occurs_at_skipn in Hj as [Hl Hs].
           destruct j as [|j]; [simpl in Hs; congruence|].
           apply le_n_S, H3, occurs_at_skipn. simpl in Hl, Hs. split; [lia | exact Hs].
Qed.

Lemma contains_true (s sub : str) :
  contains s sub = true ->
  exists i, find s sub = Z.of_nat i /\ occurs_at sub s i
            /\ forall j, occurs_at sub s j -> i <= j.
Proof.
  unfold contains, find. intros H.
  destruct (find_from_spec sub s 0) as [[H1 _] | (i & H1 & H2 & H3)].
  - rewrite H1 in H. discriminate.
  - exists i. rewrite H1. split; [lia | split; assumption].
Qed.

Lemma contains_false (s sub : str) :
  contains s sub = false -> forall i, ~ occurs_at sub s i.
Proof.
  unfold contains, find. intros H.
  destruct (find_from_spec sub s 0) as [[_ H2] | (i & H1 & _)]; [exact H2|].
  rewrite H1 in H. apply Z.leb_gt in H. lia.
Qed.

(** [rfind]: either no occurrence and [-1], or the index of the last. *)
Lemma rfind_from_spec (sub s : str) (k : Z) :
  (0 <= k)%Z ->
  (rfind_from sub k s = (-1)%Z /\ forall i, ~ occurs_at sub s i)
  \/ (exists i, rfind_from sub k s = (k + Z.of_nat i)%Z /\ occurs_at sub s i
                /\ forall j, occurs_at sub s j -> j <= i).
Proof.
  revert k; induction s as [|c s IH]; intros k Hk.
  - simpl. destruct (startswith [] sub) eqn:E.
    + right. exists 0. split; [lia|]. split.
      * apply occurs_at_skipn. split; [simpl; lia | exact E].
      * intros j Hj. apply occurs_at_skipn in Hj as [Hl _]. simpl in Hl. lia.
    + left. split; [reflexivity|]. intros i Hi.
      apply occurs_at_skipn in Hi as [Hl Hs]. simpl in Hl.
      replace i with 0 in Hs by lia. simpl in Hs. congruence.
  - cbn [rfind_from].
    destruct (IH (k + 1)%Z ltac:(lia)) as [[H1 H2] | (i & H1 & H2 & H3)].
    + rewrite H1. cbn [Z.leb Z.compare].
      destruct (startswith (c :: s) sub) eqn:E.
      * right. exists 0. split; [lia|]. split.
        -- apply occurs_at_skipn. split; [simpl; lia | exact E].
        -- intros j Hj. destruct j as [|j]; [lia|]. exfalso.
           apply occurs_at_skipn in Hj as [Hl Hs]. apply (H2 j).
           apply occurs_at_skipn. simpl in Hl, Hs. split; [lia | exact Hs].
      * left. split; [reflexivity|]. intros i Hi.
        apply occurs_at_skipn in Hi as [Hl Hs].
        destruct i as [|i]; [simpl in Hs; congruence|].
        apply (H2 i). apply occurs_at_skipn. simpl in Hl, Hs. split; [lia | exact Hs].
    + rewrite H1.
      destruct (0 <=? k + 1 + Z.of_nat i)%Z eqn:E.
      * right. exists (S i). split; [lia|]. split.
        -- apply occurs_at_skipn in H2 as [Hl Hs].
           apply occurs_at_skipn. simpl. split; [lia | exact Hs].
        -- intros j Hj. destruct j as [|j]; [lia|].
           apply occurs_at_skipn in Hj as [Hl Hs].
           apply le_n_S, H3, occurs_at_skipn. simpl in Hl, Hs. split; [lia | exact Hs].
      * apply Z.leb_gt in E. lia.
Qed.

Lemma skipn_nth_cons (s : str) (i : nat) :
  i < length s -> skipn i s = nth i s zero :: skipn (S i) s.
Proof.
  revert i; induction s as [|c s IH]; intros i H; simpl in H; [lia|].
  destruct i as [|i]; [reflexivity|]. simpl. apply IH. lia.
Qed.

Lemma last_chars_is_suffix (s : str) (k : nat) : is_suffix (last_chars s k) s.
Proof.
  exists (firstn (length s - k) s). symmetry. apply firstn_skipn.
Qed.

Lemma last_chars_length (s : str) (k : nat) :
  k <= length s -> length (last_chars s k) = k.
Proof. intros H. unfold last_chars. rewrite length_skipn. lia. Qed.

Lemma last_chars_S (s : str) (k : nat) :
  S k <= length s ->
  last_chars s (S k) = char_from_end s (S k) :: last_chars s k.
Proof.
  intros H. unfold last_chars, char_from_end.
  rewrite skipn_nth_cons by lia.
  replace (S (length s - S k)) with (length s - k) by lia. reflexivity.
Qed.

Lemma is_suffix_length (t s : str) : is_suffix t s -> length t <= length s.
Proof. intros [a ->]. rewrite length_app. lia. Qed.

Lemma is_suffix_last_chars (t s : str) :
  is_suffix t s -> t = last_chars s (length t).
Proof.
  intros [a ->]. unfold last_chars.
  rewrite length_app, Nat.add_sub, skipn_app, Nat.sub_diag, skipn_all.
  reflexivity.
Qed.

Lemma is_suffix_char (t s : str) (j : nat) :
  is_suffix t s -> 1 <= j <= length t ->
  char_from_end s j = char_from_end t j.
Proof.
  intros [a ->] H. unfold char_from_end.
  rewrite length_app, app_nth2 by lia. f_equal. lia.
Qed.

Lemma last_chars_mono (s : str) (k m : nat) :
  k <= m -> is_suffix (last_chars s k) (last_chars s m).
Proof.
  intros H. unfold last_chars.
  exists (firstn ((length s - k) - (length s - m)) (skipn (length s - m) s)).
  rewrite <- (firstn_skipn ((length s - k) - (length s - m)) (skipn (length s - m) s)) at 1.
  f_equal. rewrite skipn_skipn. f_equal. lia.
Qed.

Lemma is_suffix_refl (s : str) : is_suffix s s.
Proof. exists []. reflexivity. Qed.

Lemma is_suffix_nil (s : str) : is_suffix [] s.
Proof. exists s. symmetry. apply app_nil_r. Qed.

Lemma is_suffix_trans (a b c : str) : is_suffix a b -> is_suffix b c -> is_suffix a c.
Proof. intros [x ->] [y ->]. exists (y ++ x). apply app_assoc. Qed.

Lemma is_suffix_of_nil (t : str) : is_suffix t [] -> t = [].
Proof. intros [a H]. symmetry in H. apply app_eq_nil in H. tauto. Qed.

Module NormalizerFacts.
Import Normalizer.

(** The [while] of [find_common_suffix] stops on its guard, not on its
    bound: at the index it answers, the last [i - 1] characters agree and the
    guard is false. *)
Lemma suffix_while_spec (turns i : nat) (suffix name : str) :
  1 <= i -> i + turns = S (length suffix) -> i - 1 <= length name ->
  last_chars suffix (i - 1) = last_chars name (i - 1) ->
  let j := suffix_while turns i suffix name in
  1 <= j /\ j - 1 <= length suffix /\ j - 1 <= length name
  /\ last_chars suffix (j - 1) = last_chars name (j - 1)
  /\ (j <= length suffix -> j <= length name ->
      char_from_end suffix j <> char_from_end name j).
Proof.
  revert i; induction turns as [|t IH]; intros i H1 H2 H3 H4; simpl.
  - repeat split; auto; try lia.
  - destruct (i <=? length suffix) eqn:E1; simpl.
    2:{ apply Nat.leb_gt in E1. lia. }
    apply Nat.leb_le in E1.
    destruct (i <=? length name) eqn:E2; simpl.
    2:{ apply Nat.leb_gt in E2. repeat split; auto; try lia. }
    apply Nat.leb_le in E2.
    destruct (Ascii.eqb (char_from_end suffix i) (char_from_end name i)) eqn:E3.
    + apply Ascii.eqb_eq in E3.
      assert (IH' := IH (S i)). simpl in IH'. rewrite Nat.sub_0_r in IH'.
      destruct IH' as (K1 & K2 & K3 & K4 & K5); try lia.
      * destruct i as [|i]; [lia|].
        rewrite !last_chars_S by lia. simpl in H4. rewrite Nat.sub_0_r in H4.
        rewrite E3, H4. reflexivity.
      * repeat split; try lia; auto.
    + apply Ascii.eqb_neq in E3. repeat split; try lia; auto.
Qed.

Lemma suffix_turn_spec (suffix name : str) :
  is_suffix (suffix_turn suffix name) suffix
  /\ is_suffix (suffix_turn suffix name) name
  /\ forall t, is_suffix t suffix -> is_suffix t name ->
               is_suffix t (suffix_turn suffix name).
Proof.
  unfold suffix_turn.
  destruct (suffix_while_spec (length suffix) 1 suffix name)
    as (K1 & K2 & K3 & K4 & K5); try lia.
  { simpl. unfold last_chars. rewrite !Nat.sub_0_r, !skipn_all. reflexivity. }
  set (j := suffix_while (length suffix) 1 suffix name) in *.
  assert (E : (if 1 <? j then last_chars suffix (j - 1) else []) = last_chars suffix (j - 1)).
  { destruct (1 <? j) eqn:E; [reflexivity|]. apply Nat.ltb_ge in E.
    replace (j - 1) with 0 by lia. unfold last_chars.
    rewrite Nat.sub_0_r, skipn_all. reflexivity. }
  rewrite E. split; [apply last_chars_is_suffix|]. split.
  { rewrite K4. apply last_chars_is_suffix. }
  intros t T1 T2.
  destruct (Nat.le_gt_cases (length t) (j - 1)) as [L|L].
  - rewrite (is_suffix_last_chars _ _ T1). apply last_chars_mono. exact L.
  - exfalso. apply is_suffix_length in T1 as L1. apply is_suffix_length in T2 as L2.
    apply K5; try lia.
    rewrite (is_suffix_char t suffix j T1), (is_suffix_char t name j T2) by lia.
    reflexivity.
Qed.

Lemma suffix_for_spec (names : list str) (suffix : str) :
  Forall (is_suffix (suffix_for suffix names)) (suffix :: names)
  /\ forall t, Forall (is_suffix t) (suffix :: names) ->
               is_suffix t (suffix_for suffix names).
Proof.
  revert suffix; induction names as [|name rest IH]; intros suffix.
  - simpl. split.
    + constructor; [apply is_suffix_refl | constructor].
    + intros t H. inversion H; assumption.
  - cbn [suffix_for]. fold (suffix_turn suffix name).
    destruct (suffix_turn_spec suffix name) as (S1 & S2 & S3).
    destruct (truthy (suffix_turn suffix name)) eqn:E; cbn [negb].
    + destruct (IH (suffix_turn suffix name)) as [I1 I2].
      inversion I1 as [|? ? I3 I4]; subst. split.
      * constructor; [eapply is_suffix_trans; eauto|].
        constructor; [eapply is_suffix_trans; eauto | assumption].
      * intros t H. inversion H as [|? ? T1 T2]; subst.
        inversion T2 as [|? ? T3 T4]; subst.
        apply I2. constructor; [apply S3; assumption | assumption].
    + destruct (suffix_turn suffix name) as [|c r] eqn:E'; [|discriminate]. split.
      * apply Forall_forall. intros x _. apply is_suffix_nil.
      * intros t H. inversion H as [|? ? T1 T2]; subst.
        inversion T2 as [|? ? T3 T4]; subst. apply S3; assumption.
Qed.

Lemma len_gt_3 (s : str) :
  (if (len s >? 3)%Z then s else []) = discard_short s.
Proof.
  unfold discard_short, len.
  destruct (length s <? 4) eqn:E.
  - apply Nat.ltb_lt in E. destruct (Z.gtb_spec (Z.of_nat (length s)) 3); [lia | reflexivity].
  - apply Nat.ltb_ge in E. destruct (Z.gtb_spec (Z.of_nat (length s)) 3); [reflexivity | lia].
Qed.

End NormalizerFacts.

Lemma is_prefix_refl (s : str) : is_prefix s s.
Proof. exists []. symmetry. apply app_nil_r. Qed.

Lemma is_prefix_nil (s : str) : is_prefix [] s.
Proof. exists s. reflexivity. Qed.

Lemma is_prefix_trans (a b c : str) : is_prefix a b -> is_prefix b c -> is_prefix a c.
Proof. intros [x ->] [y ->]. exists (x ++ y). symmetry. apply app_assoc. Qed.

Lemma is_prefix_length (t s : str) : is_prefix t s -> length t <= length s.
Proof. intros [a ->]. rewrite length_app. lia. Qed.

Lemma is_prefix_firstn (t s : str) : is_prefix t s -> t = firstn (length t) s.
Proof.
  intros [a ->]. rewrite firstn_app, Nat.sub_diag, firstn_all. simpl.
  symmetry. apply app_nil_r.
Qed.

Lemma firstn_is_prefix (s : str) (k : nat) : is_prefix (firstn k s) s.
Proof. exists (skipn k s). symmetry. apply firstn_skipn. Qed.

Lemma firstn_mono (s : str) (k m : nat) :
  k <= m -> is_prefix (firstn k s) (firstn m s).
Proof.
  intros H. replace k with (Nat.min k m) by lia.
  rewrite <- firstn_firstn. apply firstn_is_prefix.
Qed.

Lemma is_prefix_char (t s : str) (j : nat) :
  is_prefix t s -> j < length t -> char_at s j = char_at t j.
Proof. intros [a ->] H. unfold char_at. apply app_nth1. exact H. Qed.

Lemma firstn_S_char (s : str) (k : nat) :
  k < length s -> firstn (S k) s = firstn k s ++ [char_at s k].
Proof.
  revert k; induction s as [|c s IH]; intros k H; simpl in H; [lia|].
  destruct k as [|k]; [reflexivity|].
  rewrite !firstn_cons, IH by lia. reflexivity.
Qed.

Module PrefixFacts.
Import Normalizer.

(** The [while] of [find_common_prefix] stops on its guard, not on its
    bound. *)
Lemma prefix_while_spec (turns i : nat) (prefix name : str) :
  i + turns = length prefix -> i <= length name ->
  firstn i prefix = firstn i name ->
  let j := prefix_while turns i prefix name in
  j <= length prefix /\ j <= length name
  /\ firstn j prefix = firstn j name
  /\ (j < length prefix -> j < length name ->
      char_at prefix j <> char_at name j).
Proof.
  revert i; induction turns as [|t IH]; intros i H1 H2 H3; simpl.
  - repeat split; auto; try lia.
  - destruct (i <? length prefix) eqn:E1; simpl.
    2:{ apply Nat.ltb_ge in E1. lia. }
    apply Nat.ltb_lt in E1.
    destruct (i <? length name) eqn:E2; simpl.
    2:{ apply Nat.ltb_ge in E2. repeat split; auto; try lia. }
    apply Nat.ltb_lt in E2.
    destruct (Ascii.eqb (char_at prefix i) (char_at name i)) eqn:E3.
    + apply Ascii.eqb_eq in E3. apply IH; try lia.
      rewrite !firstn_S_char by lia. rewrite H3, E3. reflexivity.
    + apply Ascii.eqb_neq in E3. repeat split; auto; try lia.
Qed.

Lemma prefix_turn_spec (prefix name : str) :
  is_prefix (prefix_turn prefix name) prefix
  /\ is_prefix (prefix_turn prefix name) name
  /\ forall t, is_prefix t prefix -> is_prefix t name ->
               is_prefix t (prefix_turn prefix name).
Proof.
  unfold prefix_turn, upto. rewrite Nat2Z.id.
  destruct (prefix_while_spec (length prefix) 0 prefix name)
    as (K1 & K2 & K3 & K4); try lia; [reflexivity|].
  set (j := prefix_while (length prefix) 0 prefix name) in *.
  split; [apply firstn_is_prefix|]. split.
  { rewrite K3. apply firstn_is_prefix. }
  intros t T1 T2.
  destruct (Nat.le_gt_cases (length t) j) as [L|L].
  - rewrite (is_prefix_firstn _ _ T1). apply firstn_mono. exact L.
  - exfalso. apply is_prefix_length in T1 as L1. apply is_prefix_length in T2 as L2.
    apply K4; try lia.
    rewrite (is_prefix_char t prefix j T1), (is_prefix_char t name j T2) by lia.
    reflexivity.
Qed.

Lemma prefix_for_spec (names : list str) (prefix : str) :
  Forall (is_prefix (prefix_for prefix names)) (prefix :: names)
  /\ forall t, Forall (is_prefix t) (prefix :: names) ->
               is_prefix t (prefix_for prefix names).
Proof.
  revert prefix; induction names as [|name rest IH]; intros prefix.
  - simpl. split.
    + constructor; [apply is_prefix_refl | constructor].
    + intros t H. inversion H; assumption.
  - cbn [prefix_for]. fold (prefix_turn prefix name).
    destruct (prefix_turn_spec prefix name) as (S1 & S2 & S3).
    destruct (truthy (prefix_turn prefix name)) eqn:E; cbn [negb].
    + destruct (IH (prefix_turn prefix name)) as [I1 I2].
      inversion I1 as [|? ? I3 I4]; subst. split.
      * constructor; [eapply is_prefix_trans; eauto|].
        constructor; [eapply is_prefix_trans; eauto | assumption].
      * intros t H. inversion H as [|? ? T1 T2]; subst.
        inversion T2 as [|? ? T3 T4]; subst.
        apply I2. constructor; [apply S3; assumption | assumption].
    + destruct (prefix_turn prefix name) as [|c r] eqn:E'; [|discriminate]. split.
      * apply Forall_forall. intros x _. apply is_prefix_nil.
      * intros t H. inversion H as [|? ? T1 T2]; subst.
        inversion T2 as [|? ? T3 T4]; subst. apply S3; assumption.
Qed.

End PrefixFacts.

Module SuffixFacts.
Import Normalizer NormalizerFacts.

(** What [find_common_suffix] computes for a non-empty list: the longest
    string that is a suffix of every name, the names being the filenames
    with every [.md] removed, cut to start at the first [" - "] when it has
    one, and discarded when shorter than 4. *)
Lemma find_common_suffix_code (filenames : list str) :
  filenames <> [] ->
  exists s s',
    longest_common_suffix (replaced_names filenames) s
    /\ cut_at_first sep s s'
    /\ find_common_suffix filenames = discard_short s'.
Proof.
  intros Hne. destruct filenames as [|f fs]; [congruence|].
  unfold find_common_suffix, replaced_names. cbn [map].
  set (first := replace f md []).
  set (others := map (fun f0 => replace f0 md []) fs).
  destruct (suffix_for_spec others first) as [L1 L2].
  set (s := suffix_for first others) in *.
  exists s.
  destruct (contains s sep) eqn:C.
  - destruct (contains_true _ _ C) as (i & F1 & F2 & F3).
    destruct F2 as (a & b & Hs & Ha).
    exists (sep ++ b). split; [|split].
    + split; [exact L1|]. intros t Ht. apply is_suffix_length, L2, Ht.
    + right. exists a, b. split; [exact Hs|]. split; [|reflexivity].
      intros j Hj. rewrite Ha. apply F3, Hj.
    + rewrite F1.
      destruct (Z.geb_spec (Z.of_nat i) 0); [|lia].
      rewrite len_gt_3. f_equal. unfold from. rewrite Nat2Z.id, Hs, <- Ha.
      rewrite skipn_app, Nat.sub_diag, skipn_all. reflexivity.
  - exists s. split; [|split].
    + split; [exact L1|]. intros t Ht. apply is_suffix_length, L2, Ht.
    + left. split; [apply contains_false, C | reflexivity].
    + apply len_gt_3.
Qed.

End SuffixFacts.

Module SuffixClaim.
Import Normalizer NormalizerFacts.

(** C6, at an input where the code leaves the claim: [.md] is removed
    wherever it occurs in a name, not only as the extension.  With their
    extensions stripped the two names are [1.mdab] and [2.mdab]; their
    longest common suffix is [.mdab], which holds no [" - "] and has 5
    characters, so [.mdab] is expected.  [find_common_suffix] compares
    [1ab] and [2ab], finds [ab], and answers the empty string. *)
Theorem find_common_suffix_inner_md :
  let filenames : list str := ["1.mdab.md" : str; "2.mdab.md" : str] in
  stripped_names filenames = ["1.mdab" : str; "2.mdab" : str]
  /\ longest_common_suffix (stripped_names filenames) ".mdab"
  /\ cut_at_first sep ".mdab" ".mdab"
  /\ discard_short ".mdab" = lit ".mdab"
  /\ replaced_names filenames = ["1ab" : str; "2ab" : str]
  /\ find_common_suffix filenames = [].
Proof.
  cbv zeta. split; [|split; [|split; [|split; [|split]]]]; try reflexivity.
  - destruct (suffix_for_spec [lit "2.mdab"] (lit "1.mdab")) as [L1 L2].
    split; [exact L1|]. intros t Ht. apply is_suffix_length, L2, Ht.
  - left. split; [|reflexivity]. apply contains_false. reflexivity.
Qed.

End SuffixClaim.

Module PrefixClaim.
Import Normalizer PrefixFacts.

(** What [find_common_prefix] computes for a non-empty list: the longest
    common prefix of the names, cut after the last [" - "] unless that
    separator starts at index 0, and discarded when shorter than 4. *)
Lemma find_common_prefix_code (filenames : list str) :
  filenames <> [] ->
  exists p p',
    longest_common_prefix (replaced_names filenames) p
    /\ cut_after_last sep p p'
    /\ find_common_prefix filenames =
       discard_short (if (rfind p sep =? 0)%Z then p else p').
Proof.
  intros Hne. destruct filenames as [|f fs]; [congruence|].
  unfold find_common_prefix, replaced_names. cbn [map].
  set (first := replace f md []).
  set (others := map (fun f0 => replace f0 md []) fs).
  destruct (prefix_for_spec others first) as [L1 L2].
  set (p := prefix_for first others) in *.
  exists p.
  assert (LCP : longest_common_prefix (first :: others) p).
  { split; [exact L1|]. intros t Ht. apply is_prefix_length, L2, Ht. }
  destruct (contains p sep) eqn:C.
  - destruct (contains_true _ _ C) as (i0 & _ & O & _).
    destruct (rfind_from_spec sep p 0 ltac:(lia)) as [[_ N] | (i & R1 & R2 & R3)].
    { exfalso. exact (N _ O). }
    fold (rfind p sep) in R1. destruct R2 as (a & b & Hp & Ha).
    exists (a ++ sep). split; [exact LCP|]. split.
    + right. exists a, b. split; [exact Hp|]. split; [|reflexivity].
      intros j Hj. rewrite Ha. apply R3, Hj.
    + rewrite NormalizerFacts.len_gt_3, R1. simpl (0 + Z.of_nat i)%Z.
      destruct (Z.gtb_spec (Z.of_nat i) 0) as [G|G];
        destruct (Z.eqb_spec (Z.of_nat i) 0) as [E|E]; try lia; try reflexivity.
      f_equal. unfold upto. replace (Z.to_nat (Z.of_nat i + 3)) with (i + 3) by lia.
      rewrite Hp, <- Ha, app_assoc.
      replace (length a + 3) with (length (a ++ sep)) by (rewrite length_app; reflexivity).
      rewrite firstn_app, Nat.sub_diag, firstn_all. simpl. apply app_nil_r.
  - exists p. split; [exact LCP|]. split.
    + left. split; [apply contains_false, C | reflexivity].
    + rewrite NormalizerFacts.len_gt_3. destruct (rfind p sep =? 0)%Z; reflexivity.
Qed.

(** C5, at the input where the code leaves the claim: the two names share
    the prefix [" - abc"], whose only [" - "] starts at index 0.  Cut right
    after that separator the prefix is [" - "], shorter than 4 characters,
    so the empty string is expected; [find_common_prefix] answers
    [" - abc"], and [clean_filename] strips it. *)
Theorem find_common_prefix_separator_at_start :
  let filenames : list str := [" - abcX.md" : str; " - abcY.md" : str] in
  longest_common_prefix (stripped_names filenames) " - abc"
  /\ cut_after_last sep " - abc" " - "
  /\ discard_short " - " = []
  /\ find_common_prefix filenames = " - abc"
  /\ clean_filename " - abcX.md" (find_common_prefix filenames) [] = "X.md".
Proof.
  cbv zeta. split; [|split; [|split; [|split]]]; try reflexivity.
  - destruct (prefix_for_spec [lit " - abcY"] (lit " - abcX")) as [L1 L2].
    split; [exact L1|]. intros t Ht. apply is_prefix_length, L2, Ht.
  - right. exists [], (lit "abc"). split; [reflexivity|]. split; [|reflexivity].
    intros j Hj.
    destruct (rfind_from_spec sep (lit " - abc") 0 ltac:(lia)) as [[_ N] | (i & R1 & _ & R3)].
    + exfalso. exact (N _ Hj).
    + assert (R : rfind_from sep 0 (lit " - abc") = 0%Z) by reflexivity.
      rewrite R in R1. assert (i = 0) by lia. subst i. apply R3, Hj.
Qed.

End PrefixClaim.

(** ** Adequacy of the scans *)

Module Adequacy.
Import Regex Cleaner.

(** A match never ends before the index where it starts. *)
Lemma lazy_loop_ge (k : cls) (rest : cont) :
  (forall i p s r, rest i p s = Some r -> i <= fst r) ->
  forall s i p r, lazy_loop k rest i p s = Some r -> i <= fst r.
Proof.
  intros H. induction s as [|c s IH]; intros i p r; cbn [lazy_loop].
  - destruct (rest i p []) eqn:E; [|discriminate].
    intros K. injection K as <-. exact (H _ _ _ _ E).
  - destruct (rest i p (c :: s)) eqn:E.
    + intros K. injection K as <-. exact (H _ _ _ _ E).
    + destruct (in_cls k c); [|discriminate].
      intros K. apply IH in K. lia.
Qed.

Lemma greedy_loop_ge (k : cls) (rest : cont) :
  (forall i p s r, rest i p s = Some r -> i <= fst r) ->
  forall s i p r, greedy_loop k rest i p s = Some r -> i <= fst r.
Proof.
  intros H. induction s as [|c s IH]; intros i p r; cbn [greedy_loop].
  - apply H.
  - destruct (in_cls k c); [|apply H].
    destruct (greedy_loop k rest (S i) (Some c) s) eqn:E.
    + intros K. injection K as <-. apply IH in E. lia.
    + apply H.
Qed.

Lemma match_at_ge (re : regex) :
  forall ms i p s r, match_at re ms i p s = Some r -> i <= fst r.
Proof.
  induction re as [|it re IH]; intros ms i p s r; cbn [match_at].
  - intros K. injection K as <-. simpl. lia.
  - destruct it as [k|k|k|k|g|g|c].
    + destruct s as [|c s]; [discriminate|].
      destruct (in_cls k c); [|discriminate]. intros K. apply IH in K. lia.
    + destruct s as [|c s]; [apply IH|].
      destruct (in_cls k c); [|apply IH].
      destruct (match_at re ms (S i) (Some c) s) eqn:E; [|apply IH].
      intros K. injection K as <-. apply IH in E. lia.
    + apply lazy_loop_ge. intros j q t r'. apply IH.
    + destruct s as [|c s]; [discriminate|].
      destruct (in_cls k c); [|discriminate].
      intros K. apply greedy_loop_ge in K; [lia|]. intros j q t r'. apply IH.
    + apply IH.
    + apply IH.
    + destruct p as [d|]; [destruct (Ascii.eqb d c); [discriminate|]|]; apply IH.
Qed.

(** The patterns given to [re.sub] pass at least one character, as
    [Regex.sub_scan] takes for granted. *)
Lemma match_at_one_gt (k : cls) (re : regex) (ms : marks) (i : nat)
    (p : option ascii) (s : str) (r : nat * marks) :
  match_at (One k :: re) ms i p s = Some r -> i < fst r.
Proof.
  cbn [match_at]. destruct s as [|c s]; [discriminate|].
  destruct (in_cls k c); [|discriminate]. intros K. apply match_at_ge in K. lia.
Qed.

Lemma sub_patterns_advance (re : regex) :
  In re [nested_re; image_re; link_re; blank_re] ->
  forall i p s r, match_at re [] i p s = Some r -> i < fst r.
Proof.
  intros [<-|[<-|[<-|[<-|[]]]]] i p s r.
  - apply match_at_one_gt.
  - apply match_at_one_gt.
  - unfold link_re. cbn [app match_at].
    destruct p as [d|]; [destruct (Ascii.eqb d "!"); [discriminate|]|];
      apply match_at_one_gt.
  - apply match_at_one_gt.
Qed.

(** The [while] of [_splitext] within its bound: it answers [true] exactly
    when a character other than a dot stands between the two indices. *)
Lemma splitext_while_spec (p : str) (turns : nat) :
  forall filenameIndex dotIndex,
    (0 <= filenameIndex)%Z ->
    (dotIndex - filenameIndex <= Z.of_nat turns)%Z ->
    Url.splitext_while turns p filenameIndex dotIndex = true
    <-> exists j, (filenameIndex <= j < dotIndex)%Z
                  /\ char_at p (Z.to_nat j) <> "."%char.
Proof.
  induction turns as [|t IH]; intros fi di H0 H; cbn [Url.splitext_while].
  - split; [discriminate | intros (j & Hj & _); lia].
  - destruct (Z.ltb_spec fi di) as [L|L].
    + destruct (Ascii.eqb_spec (char_at p (Z.to_nat fi)) ".") as [E|E]; cbn [negb].
      * rewrite IH by lia. split.
        -- intros (j & Hj & Hc). exists j. split; [lia | exact Hc].
        -- intros (j & Hj & Hc). exists j. split; [|exact Hc].
           destruct (Z.eq_dec j fi) as [->|]; [contradiction | lia].
      * split; [|reflexivity]. intros _. exists fi. split; [lia | exact E].
    + split; [discriminate | intros (j & Hj & _); lia].
Qed.

Lemma rfind_bounds (s sub : str) :
  (-1 <= rfind s sub <= Z.of_nat (length s))%Z.
Proof.
  unfold rfind.
  destruct (rfind_from_spec sub s 0 ltac:(lia)) as [[E _] | (i & E & O & _)].
  - rewrite E. lia.
  - rewrite E. apply occurs_at_skipn in O as [O _]. lia.
Qed.

(** [length p] turns are within the bound for the indices [_splitext]
    uses. *)
Lemma splitext_turns_enough (p : str) :
  (rfind p "." - (rfind p "/" + 1) <= Z.of_nat (length p))%Z
  /\ (0 <= rfind p "/" + 1)%Z.
Proof.
  assert (A := rfind_bounds p "."). assert (B := rfind_bounds p "/"). lia.
Qed.

(** Removing [.md] from a name in which it occurs only as the extension
    gives the stem. *)
Lemma replace_extension (stem : str) :
  (forall i, occurs_at Normalizer.md (stem ++ Normalizer.md) i -> i = length stem) ->
  replace (stem ++ Normalizer.md) Normalizer.md [] = stem.
Proof.
  unfold replace. induction stem as [|c stem IH]; intros H.
  - reflexivity.
  - cbn [app replace_scan].
    destruct (startswith (c :: stem ++ Normalizer.md) Normalizer.md) eqn:E.
    + exfalso. assert (K : occurs_at Normalizer.md ((c :: stem) ++ Normalizer.md) 0).
      { apply occurs_at_skipn. split; [simpl; lia | exact E]. }
      apply H in K. discriminate.
    + f_equal. apply IH. intros i Hi.
      assert (K : occurs_at Normalizer.md ((c :: stem) ++ Normalizer.md) (S i)).
      { destruct Hi as (a & b & Ha & Hl). exists (c :: a), b. split.
        - cbn [app]. rewrite Ha. reflexivity.
        - simpl. rewrite Hl. reflexivity. }
      apply H in K. simpl in K. lia.
Qed.

End Adequacy.

(** ** Sorting by time *)

Module SortFacts.
Import Chapters.

Lemma insert_by_mtime_perm (x : entry) (l : list entry) :
  Permutation (insert_by_mtime x l) (x :: l).
Proof.
  induction l as [|y l IH]; simpl; [apply Permutation_refl|].
  destruct (snd x <=? snd y)%Z; [apply Permutation_refl|].
  eapply perm_trans; [apply perm_skip, IH | apply perm_swap].
Qed.

(** [sort_by_mtime] rearranges the files, ... *)
Lemma sort_by_mtime_perm (l : list entry) : Permutation (sort_by_mtime l) l.
Proof.
  induction l as [|x l IH]; simpl; [constructor|].
  eapply perm_trans; [apply insert_by_mtime_perm | apply perm_skip, IH].
Qed.

Lemma insert_by_mtime_sorted (x : entry) (l : list entry) :
  Sorted (fun a b => (snd a <= snd b)%Z) l ->
  Sorted (fun a b => (snd a <= snd b)%Z) (insert_by_mtime x l).
Proof.
  induction 1 as [|y l S IH H]; simpl.
  - repeat constructor.
  - destruct (Z.leb_spec (snd x) (snd y)).
    + constructor; [constructor; assumption | constructor; assumption].
    + constructor; [exact IH|].
      destruct l as [|z l]; simpl.
      * constructor. lia.
      * destruct (Z.leb_spec (snd x) (snd z)); constructor; [lia|].
        inversion H; assumption.
Qed.

(** ... puts them in ascending order of time, ... *)
Lemma sort_by_mtime_sorted (l : list entry) :
  Sorted (fun a b => (snd a <= snd b)%Z) (sort_by_mtime l).
Proof.
  induction l as [|x l IH]; simpl; [constructor | apply insert_by_mtime_sorted, IH].
Qed.

Lemma insert_by_mtime_filter (t : Z) (x : entry) (l : list entry) :
  filter (fun e => (snd e =? t)%Z) (insert_by_mtime x l)
  = filter (fun e => (snd e =? t)%Z) (x :: l).
Proof.
  induction l as [|y l IH]; [reflexivity|].
  cbn [insert_by_mtime]. destruct (Z.leb_spec (snd x) (snd y)) as [L|L]; [reflexivity|].
  cbn [filter] in *. rewrite IH.
  destruct (Z.eqb_spec (snd x) t) as [Ex|Ex], (Z.eqb_spec (snd y) t) as [Ey|Ey];
    try reflexivity.
  lia.
Qed.

(** ... and keeps the files of equal time in the order it met them. *)
Lemma sort_by_mtime_stable (t : Z) (l : list entry) :
  filter (fun e => (snd e =? t)%Z) (sort_by_mtime l)
  = filter (fun e => (snd e =? t)%Z) l.
Proof.
  induction l as [|x l IH]; [reflexivity|].
  cbn [sort_by_mtime fold_right]. fold (sort_by_mtime l).
  rewrite insert_by_mtime_filter. cbn [filter]. rewrite IH. reflexivity.
Qed.

End SortFacts.

Module ChapterClaim.
Import Normalizer Chapters.

(** The [k]-th name written is the number [k + 1] on two digits, [" - "],
    and [clean_filename] of the [k]-th file in time order. *)
Lemma new_filenames_nth (walk : list entry) (k : nat) (f : str) :
  nth_error (get_files_by_timestamp walk) k = Some f ->
  nth_error (new_filenames walk) k =
  Some (format_02d (S k) ++ lit " - "
        ++ clean_filename f (find_common_prefix (get_files_by_timestamp walk))
                            (find_common_suffix (get_files_by_timestamp walk))).
Proof.
  intros H. unfold new_filenames, enumerate_from_1.
  set (files := get_files_by_timestamp walk) in *.
  assert (Hk : k < length files) by (apply nth_error_Some; congruence).
  rewrite nth_error_map.
  assert (E : forall n, nth_error (combine (seq n (length files)) files) k
                        = Some (n + k, f)).
  { clear - H. revert k H.
    induction files as [|x l IH]; intros k H n; destruct k as [|k]; simpl in *;
      try discriminate.
    - injection H as ->. f_equal. f_equal. lia.
    - rewrite (IH k H (S n)). f_equal. f_equal. lia. }
  rewrite (E 1). reflexivity.
Qed.

Lemma write_chapters_names (cp cs : str) (read : str -> str) (files : list (nat * str)) :
  forall w,
    map fst (fst (Book.write_chapters cp cs read files w))
    = map (fun '(n, f) => format_02d n ++ lit " - " ++ clean_filename f cp cs) files.
Proof.
  induction files as [|[n f] rest IH]; intros w; [reflexivity|].
  cbn [Book.write_chapters]. destruct (Cleaner.clean_content _ _ w) as [c w1].
  specialize (IH w1). destruct (Book.write_chapters cp cs read rest w1) as [others w2].
  cbn [fst map] in *. rewrite IH. reflexivity.
Qed.

(** The files [clean_markdown_files] writes are named by [new_filenames]. *)
Lemma clean_markdown_files_names (walk : list entry) (read : str -> str)
    (w w' : Cleaner.world) (written : list (str * str)) :
  Book.clean_markdown_files walk read w = (Some written, w') ->
  map fst written = new_filenames walk.
Proof.
  unfold Book.clean_markdown_files, new_filenames.
  destruct (get_files_by_timestamp walk) as [|f fs] eqn:E; [discriminate|].
  destruct (Book.write_chapters _ _ read _ w) as [wr w2] eqn:W.
  intros H. injection H as <- <-.
  apply (f_equal (fun r => map fst (fst r))) in W. cbn [fst] in W.
  rewrite <- W. apply write_chapters_names.
Qed.

(** C7, at an input where the code leaves the claim: [".md"] is removed
    wherever it occurs in a name, not only as the extension, so the chapter
    made from [notes.mdown.md] is written as [01 - notesown.md]. *)
Theorem new_filenames_inner_md :
  let walk := [("notes.mdown.md" : str, 1%Z); ("intro.md" : str, 2%Z)] in
  new_filenames walk = ["01 - notesown.md" : str; "02 - intro.md" : str]
  /\ find_common_prefix ["notes.mdown.md" : str; "intro.md" : str] = []
  /\ find_common_suffix ["notes.mdown.md" : str; "intro.md" : str] = []
  /\ forall read w written w',
       Book.clean_markdown_files walk read w = (Some written, w') ->
       map fst written = ["01 - notesown.md" : str; "02 - intro.md" : str].
Proof.
  cbv zeta. repeat split; try reflexivity.
  intros read w written w' H. apply clean_markdown_files_names in H. exact H.
Qed.

(** Where [.md] occurs in a name only as its extension, the cleaned name
    is made as told: the stem without the common prefix and suffix,
    trimmed, with [.md] put back. *)
Lemma clean_filename_of_stem (stem common_prefix common_suffix : str) :
  (forall i, occurs_at md (stem ++ md) i -> i = length stem) ->
  clean_filename (stem ++ md) common_prefix common_suffix
  = strip (let cleaned :=
             if truthy common_prefix && startswith stem common_prefix
             then skipn (length common_prefix) stem else stem in
           if truthy common_suffix && endswith cleaned common_suffix
           then drop_last cleaned (length common_suffix) else cleaned)
    ++ md.
Proof.
  intros H. unfold clean_filename. rewrite (Adequacy.replace_extension stem H).
  reflexivity.
Qed.

End ChapterClaim.


(** ** The matcher *)

Module RegexFacts.
Import Regex.

Lemma prev_after_app (prev : option ascii) (t u : str) :
  prev_after prev (t ++ u) = prev_after (prev_after prev t) u.
Proof. unfold prev_after. apply fold_left_app. Qed.

Lemma prev_after_cons (prev : option ascii) (c : ascii) (t : str) :
  prev_after prev (c :: t) = prev_after (Some c) t.
Proof. reflexivity. Qed.

(** A lazy star passes over a text [t] of its class when the rest of the
    pattern cannot start at any character of [t]. *)
Lemma lazy_loop_skip (k : cls) (rest : cont) (stop : ascii) (t : str) :
  (forall i p c s, c <> stop -> rest i p (c :: s) = None) ->
  Forall (fun c => in_cls k c = true /\ c <> stop) t ->
  forall i prev s,
    lazy_loop k rest i prev (t ++ s)
    = lazy_loop k rest (i + length t) (prev_after prev t) s.
Proof.
  intros Hrest Ht. induction Ht as [|c t [Hc Hs] _ IH]; intros i prev s.
  - simpl. rewrite Nat.add_0_r. reflexivity.
  - cbn [app lazy_loop]. rewrite (Hrest i prev c (t ++ s) Hs), Hc, IH.
    cbn [length]. rewrite Nat.add_succ_r. reflexivity.
Qed.

Lemma lazy_loop_here (k : cls) (rest : cont) (i : nat) (prev : option ascii) (s : str) (r : nat * marks) :
  rest i prev s = Some r -> lazy_loop k rest i prev s = Some r.
Proof. intros H. destruct s; simpl; rewrite H; reflexivity. Qed.

(** A greedy plus takes the whole run of its class when the rest of the
    pattern matches after the run. *)
Lemma greedy_loop_run (k : cls) (rest : cont) (t s : str) (r : nat * marks) :
  Forall (fun c => in_cls k c = true) t ->
  (forall d s', s = d :: s' -> in_cls k d = false) ->
  forall i prev,
    rest (i + length t) (prev_after prev t) s = Some r ->
    greedy_loop k rest i prev (t ++ s) = Some r.
Proof.
  intros Ht Hs. induction Ht as [|c t Hc _ IH]; intros i prev H.
  - simpl in *. rewrite Nat.add_0_r in H. destruct s as [|d s']; [exact H|].
    cbn [greedy_loop]. rewrite (Hs d s' eq_refl). exact H.
  - cbn [app greedy_loop]. rewrite Hc, (IH (S i) (Some c)); [reflexivity|].
    cbn [length] in H. rewrite Nat.add_succ_r in H. exact H.
Qed.

(** [re.sub] on a subject without a match. *)
Lemma sub_scan_no_match {W : Type} (re : regex) (repl : match_obj -> W -> str * W)
    (whole : str) (pre rest : str) :
  forall i prev (w : W),
    no_match_in re i prev pre rest ->
    sub_scan re repl whole i prev 0 (pre ++ rest) w
    = (let (out, w') := sub_scan re repl whole (i + length pre) (prev_after prev pre) 0 rest w
       in (pre ++ out, w')).
Proof.
  induction pre as [|c pre IH]; intros i prev w H.
  - simpl. rewrite Nat.add_0_r.
    destruct (sub_scan re repl whole i prev 0 rest w); reflexivity.
  - destruct H as [H1 H2]. cbn [app sub_scan]. cbn [app] in H1. rewrite H1.
    rewrite (IH (S i) (Some c) w H2). cbn [length]. rewrite Nat.add_succ_r, prev_after_cons.
    cbn [plus].
    destruct (sub_scan re repl whole (S (i + length pre)) (prev_after (Some c) pre) 0 rest w).
    reflexivity.
Qed.

(** Passing the rest of a match. *)
Lemma sub_scan_skip {W : Type} (re : regex) (repl : match_obj -> W -> str * W)
    (whole : str) (t rest : str) :
  forall i prev (w : W),
    sub_scan re repl whole i prev (length t) (t ++ rest) w
    = sub_scan re repl whole (i + length t) (prev_after prev t) 0 rest w.
Proof.
  induction t as [|c t IH]; intros i prev w.
  - simpl. rewrite Nat.add_0_r. reflexivity.
  - cbn [app length sub_scan]. rewrite IH, Nat.add_succ_r. reflexivity.
Qed.

End RegexFacts.

(** ** Blank lines *)

Module BlankLines.
Import Regex RegexFacts Cleaner.

Lemma blank_no_match (ms : marks) (i : nat) (prev : option ascii) (s : str) :
  (forall t, s <> newline :: newline :: newline :: t) ->
  match_at blank_re ms i prev s = None.
Proof.
  intros H. unfold blank_re. cbn [match_at in_cls].
  destruct s as [|a [|b [|c t]]]; try reflexivity.
  - destruct (Ascii.eqb a newline); reflexivity.
  - destruct (Ascii.eqb a newline); [|reflexivity].
    destruct (Ascii.eqb b newline); reflexivity.
  - destruct (Ascii.eqb_spec a newline) as [->|]; [|reflexivity].
    destruct (Ascii.eqb_spec b newline) as [->|]; [|reflexivity].
    destruct (Ascii.eqb_spec c newline) as [->|]; [|reflexivity].
    exfalso. exact (H t eq_refl).
Qed.

Lemma blank_match (i : nat) (prev : option ascii) (n : nat) (s : str) :
  no_newline_first s ->
  match_at blank_re [] i prev (newlines (3 + n) ++ s) = Some (i + (3 + n), []).
Proof.
  intros H. unfold blank_re, newlines. cbn [repeat plus app match_at in_cls].
  rewrite !Ascii.eqb_refl.
  rewrite (greedy_loop_run (Chr newline) (match_at [] []) (repeat newline n) s
             (i + S (S (S n)), [])).
  - reflexivity.
  - apply Forall_forall. intros c Hc. apply repeat_spec in Hc. subst.
    reflexivity.
  - intros d s' ->. cbn [in_cls]. apply Ascii.eqb_neq. exact (H d s' eq_refl).
  - simpl. rewrite repeat_length. do 2 f_equal. lia.
Qed.

(** The scan of [re.sub(r'\n\n\n+', '\n\n', _)] keeps two newlines of a run
    of three or more, and copies everything else. *)
Lemma scan_squeeze (whole : str) (n : nat) :
  forall s i prev, length s <= n ->
    fst (sub_scan blank_re two whole i prev 0 s tt) = squeeze_from 0 s.
Proof.
  induction n as [|n IH]; intros s i prev L.
  { destruct s; [reflexivity | simpl in L; lia]. }
  destruct s as [|a s]; [reflexivity|].
  destruct (Ascii.eqb_spec a newline) as [->|Ha].
  2:{ cbn [sub_scan]. rewrite blank_no_match by (intros t E; congruence).
      specialize (IH s (S i) (Some a) ltac:(simpl in L; lia)).
      destruct (sub_scan blank_re two whole (S i) (Some a) 0 s tt) as [out u].
      cbn [fst squeeze_from] in *. apply Ascii.eqb_neq in Ha. rewrite Ha, IH. reflexivity. }
  destruct s as [|b s].
  { reflexivity. }
  destruct (Ascii.eqb_spec b newline) as [->|Hb].
  2:{ cbn [sub_scan]. rewrite !blank_no_match by (intros t E; congruence).
      specialize (IH s (S (S i)) (Some b) ltac:(simpl in L; lia)).
      destruct (sub_scan blank_re two whole (S (S i)) (Some b) 0 s tt) as [out u].
      cbn [fst squeeze_from] in *. rewrite Ascii.eqb_refl. cbn [Nat.ltb Nat.leb].
      apply Ascii.eqb_neq in Hb. rewrite Hb, IH. reflexivity. }
  destruct s as [|c s].
  { reflexivity. }
  destruct (Ascii.eqb_spec c newline) as [->|Hc].
  2:{ cbn [sub_scan]. rewrite !blank_no_match by (intros t E; congruence).
      specialize (IH s (S (S (S i))) (Some c) ltac:(simpl in L; lia)).
      destruct (sub_scan blank_re two whole (S (S (S i))) (Some c) 0 s tt) as [out u].
      cbn [fst squeeze_from] in *. rewrite !Ascii.eqb_refl. cbn [Nat.ltb Nat.leb].
      apply Ascii.eqb_neq in Hc. rewrite Hc, IH. reflexivity. }
  (* a run of at least three newlines *)
  assert (R : exists k t, s = newlines k ++ t /\ no_newline_first t).
  { clear. induction s as [|d s (k & t & -> & Ht)].
    - exists 0, []. split; [reflexivity | intros c s' E; discriminate].
    - destruct (Ascii.eqb_spec d newline) as [->|Hd].
      + exists (S k), t. split; [reflexivity | exact Ht].
      + exists 0, (d :: newlines k ++ t). split; [reflexivity|].
        intros c s' E. injection E as <- _. exact Hd. }
  destruct R as (k & t & -> & Ht).
  change (newline :: newline :: newline :: newlines k ++ t)
    with (newlines (3 + k) ++ t).
  assert (M := blank_match i prev k t Ht).
  change (newlines (3 + k) ++ t) with (newline :: (newlines (2 + k) ++ t)) in M |- * at 1.
  cbn [sub_scan]. rewrite M. unfold two at 1.
  replace (i + (3 + k) - i - 1) with (length (newlines (2 + k)))
    by (unfold newlines; rewrite repeat_length; lia).
  rewrite sub_scan_skip.
  specialize (IH t (S i + length (newlines (2 + k)))
                 (prev_after (Some newline) (newlines (2 + k)))).
  destruct (sub_scan blank_re two whole _ _ 0 t tt) as [out u].
  cbn [fst] in *. rewrite IH.
  2:{ simpl in L. rewrite length_app in L. lia. }
  clear - Ht. change (newlines (3 + k) ++ t)
    with (newline :: newline :: newline :: newlines k ++ t).
  cbn [squeeze_from]. rewrite !Ascii.eqb_refl. cbn [Nat.ltb Nat.leb app].
  do 2 f_equal.
  assert (E : forall r, 2 <= r -> squeeze_from r (newlines k ++ t) = squeeze_from 0 t).
  { induction k as [|k IHk]; intros r Hr.
    - simpl. destruct t as [|d t']; [reflexivity|].
      cbn [squeeze_from].
      assert (Hd : d <> newline) by (apply (Ht d t'); reflexivity).
      apply Ascii.eqb_neq in Hd. rewrite Hd. reflexivity.
    - cbn [newlines repeat app squeeze_from]. rewrite Ascii.eqb_refl.
      destruct (Nat.ltb_spec r 2); [lia|]. apply IHk. lia. }
  symmetry. apply E. lia.
Qed.

Lemma collapse_squeeze (s : str) :
  sub_const blank_re [newline; newline] s = squeeze_from 0 s.
Proof. unfold sub_const, sub. apply (scan_squeeze s (length s)). lia. Qed.

End BlankLines.

Module BlankLinesClaim.
Import Regex RegexFacts Cleaner BlankLines.

Lemma occurs_at_cons (sub s : str) (c : ascii) (i : nat) :
  occurs_at sub (c :: s) (S i) <-> occurs_at sub s i.
Proof. rewrite !occurs_at_skipn. simpl. split; intros [H1 H2]; (split; [lia | exact H2]). Qed.

Lemma triple_needs_three (s : str) :
  occurs_at (newlines 3) s 0 -> 3 <= leading_newlines s.
Proof.
  intros (a & b & -> & Ha). apply length_zero_iff_nil in Ha. subst a. simpl. lia.
Qed.

Lemma squeeze_no_triple (s : str) :
  forall r,
    leading_newlines (squeeze_from r s) <= 2 - Nat.min r 2
    /\ forall i, ~ occurs_at (newlines 3) (squeeze_from r s) i.
Proof.
  induction s as [|c s IH]; intros r.
  - simpl. split; [lia|]. intros i H. apply occurs_at_skipn in H as [H1 H2].
    simpl in H1. replace i with 0 in H2 by lia. discriminate.
  - cbn [squeeze_from]. destruct (Ascii.eqb_spec c newline) as [->|Hc].
    + destruct (Nat.ltb_spec r 2) as [Hr|Hr].
      * destruct (IH (S r)) as [L T]. cbn [leading_newlines]. rewrite Ascii.eqb_refl.
        split; [lia|]. intros [|i] H.
        -- apply triple_needs_three in H. cbn [leading_newlines] in H.
           rewrite Ascii.eqb_refl in H. lia.
        -- apply occurs_at_cons in H. exact (T i H).
      * destruct (IH (S r)) as [L T]. split; [lia | exact T].
    + destruct (IH 0) as [L T]. cbn [leading_newlines].
      apply Ascii.eqb_neq in Hc. rewrite Hc. split; [lia|]. intros [|i] H.
      * apply triple_needs_three in H. cbn [leading_newlines] in H. rewrite Hc in H. lia.
      * apply occurs_at_cons in H. exact (T i H).
Qed.

Lemma squeeze_app (a x : str) (c : ascii) :
  c <> newline ->
  forall r, squeeze_from r ((a ++ [c]) ++ x)
            = squeeze_from r (a ++ [c]) ++ squeeze_from 0 x.
Proof.
  intros Hc. apply Ascii.eqb_neq in Hc.
  induction a as [|d a IH]; intros r.
  - simpl. rewrite Hc. reflexivity.
  - cbn [app squeeze_from]. destruct (Ascii.eqb d newline).
    + destruct (r <? 2); cbn [app]; rewrite IH; reflexivity.
    + cbn [app]. rewrite IH. reflexivity.
Qed.

Lemma squeeze_after (a x : str) :
  no_newline_last a ->
  squeeze_from 0 (a ++ x) = squeeze_from 0 a ++ squeeze_from 0 x.
Proof.
  intros H. destruct (rev a) as [|c ra] eqn:E.
  - apply (f_equal (@rev ascii)) in E. rewrite rev_involutive in E. subst a. reflexivity.
  - apply (f_equal (@rev ascii)) in E. rewrite rev_involutive in E. simpl in E. subst a.
    apply squeeze_app. apply (H (rev ra) c). reflexivity.
Qed.

Lemma squeeze_run (k : nat) (b : str) :
  no_newline_first b ->
  forall r, squeeze_from r (newlines k ++ b)
            = newlines (Nat.min (r + k) 2 - Nat.min r 2) ++ squeeze_from 0 b.
Proof.
  intros Hb. induction k as [|k IH]; intros r.
  - rewrite Nat.add_0_r, Nat.sub_diag. simpl. destruct b as [|d b']; [reflexivity|].
    cbn [squeeze_from]. assert (Hd : d <> newline) by (apply (Hb d b'); reflexivity).
    apply Ascii.eqb_neq in Hd. rewrite Hd. reflexivity.
  - cbn [newlines repeat app squeeze_from]. rewrite Ascii.eqb_refl.
    fold (newlines k). rewrite IH.
    destruct (Nat.ltb_spec r 2).
    + replace (Nat.min (r + S k) 2 - Nat.min r 2)
        with (S (Nat.min (S r + k) 2 - Nat.min (S r) 2)) by lia.
      reflexivity.
    + f_equal. f_equal. lia.
Qed.

Lemma lstrip_spec (y : str) :
  exists ws, y = ws ++ lstrip y /\ Forall (fun c => isspace c = true) ws
             /\ forall c t, lstrip y = c :: t -> isspace c = false.
Proof.
  induction y as [|c y (ws & E & F & N)]; simpl.
  - exists []. repeat split; [constructor | discriminate].
  - destruct (isspace c) eqn:S.
    + exists (c :: ws). split; [simpl; f_equal; exact E|]. split; [constructor; assumption | exact N].
    + exists []. split; [reflexivity|]. split; [constructor|].
      intros d t H. injection H as <- _. exact S.
Qed.

Lemma rstrip_spec (x : str) :
  exists ws, x = rstrip x ++ ws /\ Forall (fun c => isspace c = true) ws
             /\ forall t c, rstrip x = t ++ [c] -> isspace c = false.
Proof.
  unfold rstrip. destruct (lstrip_spec (rev x)) as (ws & E & F & N).
  exists (rev ws). split; [|split].
  - rewrite <- rev_app_distr, <- E, rev_involutive. reflexivity.
  - apply Forall_rev. exact F.
  - intros t c H. apply (f_equal (@rev ascii)) in H.
    rewrite rev_involutive, rev_app_distr in H. simpl in H. exact (N c (rev t) H).
Qed.

Lemma isspace_newline : isspace newline = true.
Proof. reflexivity. Qed.

Lemma occurs_at_prefix (sub x ws : str) (i : nat) :
  occurs_at sub x i -> occurs_at sub (x ++ ws) i.
Proof.
  intros (a & b & -> & H). exists a, (b ++ ws). split; [|exact H].
  rewrite <- !app_assoc. reflexivity.
Qed.

(** No three newlines in a row are left by [finish]. *)
Lemma finish_no_triple (content : str) (i : nat) :
  ~ occurs_at (newlines 3) (finish content) i.
Proof.
  unfold finish. rewrite collapse_squeeze.
  set (x := squeeze_from 0 content).
  destruct (rstrip_spec x) as (ws & E & F & N).
  destruct (squeeze_no_triple content 0) as [_ T]. fold x in T.
  intros (a & b & H & Ha).
  (* the occurrence ends inside [rstrip x], or its last newline is the added one *)
  destruct b as [|c b].
  - (* occurrence at the very end: [rstrip x] would end with a newline *)
    rewrite app_nil_r in H.
    change (newlines 3) with ([newline; newline] ++ [newline]) in H.
    rewrite !app_assoc in H. apply app_inj_tail in H as [H _].
    assert (K := N (a ++ [newline]) newline).
    rewrite <- app_assoc in K. specialize (K H).
    rewrite isspace_newline in K. discriminate.
  - assert (P : occurs_at (newlines 3) (rstrip x) i).
    { destruct (rev (c :: b)) as [|d rb] eqn:R.
      { apply (f_equal (@rev ascii)) in R. rewrite rev_involutive in R. discriminate. }
      apply (f_equal (@rev ascii)) in R. rewrite rev_involutive in R. simpl in R.
      rewrite R in H. rewrite !app_assoc in H. apply app_inj_tail in H as [H _].
      exists a, (rev rb). split; [rewrite H, <- !app_assoc; reflexivity | exact Ha]. }
    apply (T i). rewrite E. apply occurs_at_prefix. exact P.
Qed.

(** C8: in the last pass of the cleaner over the joined text, a blank line
    being an empty line, a run of three or more blank lines between two
    blocks ([n + 1] newlines with [3 <= n]) becomes one blank line; the
    result never holds three newlines in a row (at most one blank line
    between blocks); it is the text without its trailing whitespace followed
    by one newline; and four blank lines between two paragraphs become
    one. *)
Theorem blank_lines_collapsed :
  (forall a b n,
      3 <= n -> no_newline_last a -> no_newline_first b ->
      sub_const blank_re [newline; newline] (a ++ newlines (S n) ++ b)
      = sub_const blank_re [newline; newline] a
        ++ newlines 2 ++ sub_const blank_re [newline; newline] b)
  /\ (forall content,
         (forall i, ~ occurs_at (newlines 3) (finish content) i)
         /\ exists body,
              finish content = body ++ [newline]
              /\ forall t c, body = t ++ [c] -> isspace c = false)
  /\ (forall title w,
         fst (clean_content (lit "p1" ++ newlines 5 ++ lit "p2") title w)
         = lit "p1" ++ newlines 2 ++ lit "p2" ++ newlines 1).
Proof.
  split; [|split].
  - intros a b n Hn Ha Hb. rewrite !collapse_squeeze.
    rewrite (squeeze_after a _ Ha). f_equal.
    rewrite (squeeze_run (S n) b Hb 0). f_equal. f_equal. lia.
  - intros content. split; [apply finish_no_triple|].
    unfold finish. destruct (rstrip_spec (sub_const blank_re [newline; newline] content))
      as (ws & _ & _ & N).
    eexists. split; [reflexivity | exact N].
  - intros title w. reflexivity.
Qed.

Lemma blank_lines_collapsed_witness :
  3 <= 4
  /\ sub_const blank_re [newline; newline] (lit "p1" ++ newlines 5 ++ lit "p2")
     = sub_const blank_re [newline; newline] (lit "p1")
       ++ newlines 2 ++ sub_const blank_re [newline; newline] (lit "p2").
Proof.
  split; [lia|].
  apply (proj1 blank_lines_collapsed (lit "p1") (lit "p2") 4); [lia | |].
  - intros s' c H. change (lit "p1") with (lit "p" ++ ["1"%char]) in H.
    apply app_inj_tail in H as [_ <-]. discriminate.
  - intros c s' H. injection H as <- _. discriminate.
Defined.

End BlankLinesClaim.

(** ** The patterns of the cleaner *)

Module PatternFacts.
Import Regex RegexFacts Cleaner.

(** Appends are associated to the right and literal heads are exposed. *)
Ltac right_assoc :=
  repeat progress (rewrite <- ?app_assoc; cbn [app lit list_ascii_of_string]).

Ltac lengths :=
  repeat progress (cbn [length lit list_ascii_of_string]; rewrite ?length_app).

Lemma match_one (c : ascii) (re : regex) (ms : marks) (i : nat) (prev : option ascii) (s : str) :
  match_at (One (Chr c) :: re) ms i prev (c :: s) = match_at re ms (S i) (Some c) s.
Proof. cbn [match_at in_cls]. rewrite Ascii.eqb_refl. reflexivity. Qed.

Lemma match_one_other (c d : ascii) (re : regex) (ms : marks) (i : nat) (prev : option ascii) (s : str) :
  d <> c -> match_at (One (Chr c) :: re) ms i prev (d :: s) = None.
Proof. intros H. cbn [match_at in_cls]. apply Ascii.eqb_neq in H. rewrite H. reflexivity. Qed.

Lemma match_one_nil (k : cls) (re : regex) (ms : marks) (i : nat) (prev : option ascii) :
  match_at (One k :: re) ms i prev [] = None.
Proof. reflexivity. Qed.

Lemma dot_text (t : str) :
  Forall text_char t ->
  Forall (fun c => in_cls Dot c = true /\ c <> "]"%char) t.
Proof.
  apply Forall_impl. intros c (_ & H2 & H3). split; [|exact H2].
  simpl. apply Ascii.eqb_neq in H3. rewrite H3. reflexivity.
Qed.

Lemma dot_target (t : str) :
  Forall target_char t ->
  Forall (fun c => in_cls Dot c = true /\ c <> ")"%char) t.
Proof.
  apply Forall_impl. intros c (_ & H2 & H3). split; [|exact H2].
  simpl. apply Ascii.eqb_neq in H3. rewrite H3. reflexivity.
Qed.

Lemma groups_match (text url tail : str) (ms : marks) (i : nat) (prev : option ascii) :
  Forall text_char text -> Forall target_char url ->
  match_at groups_re ms i prev (text ++ lit "](" ++ url ++ lit ")" ++ tail)
  = Some (i + length text + 2 + length url + 1,
          [(End 2, i + length text + 2 + length url);
           (Start 2, i + length text + 2);
           (End 1, i + length text);
           (Start 1, i)] ++ ms).
Proof.
  intros Ht Hu. unfold groups_re. cbn [app lits map lit list_ascii_of_string match_at].
  rewrite (lazy_loop_skip Dot _ "]"%char text).
  2:{ intros j p c s Hc. cbn [match_at in_cls]. apply Ascii.eqb_neq in Hc.
      rewrite Hc. reflexivity. }
  2:{ apply dot_text, Ht. }
  apply lazy_loop_here. cbn [match_at in_cls app]. rewrite !Ascii.eqb_refl.
  rewrite (lazy_loop_skip Dot _ ")"%char url).
  2:{ intros j p c s Hc. cbn [match_at in_cls]. apply Ascii.eqb_neq in Hc.
      rewrite Hc. reflexivity. }
  2:{ apply dot_target, Hu. }
  apply lazy_loop_here. cbn [match_at in_cls app]. rewrite !Ascii.eqb_refl.
  f_equal. f_equal; [lia|]. cbn [app].
  repeat (f_equal; try lia).
Qed.

Lemma image_re_eq : image_re = lits "![" ++ groups_re.
Proof. reflexivity. Qed.

Lemma link_re_eq : link_re = [NotBehind "!"%char] ++ lits "[" ++ groups_re.
Proof. reflexivity. Qed.

(** [image_re] on an image markup. *)
Lemma image_match (alt url tail : str) (i : nat) (prev : option ascii) :
  Forall text_char alt -> Forall target_char url ->
  match_at image_re [] i prev (image_markup alt url ++ tail)
  = Some (i + length (image_markup alt url),
          [(End 2, i + 2 + length alt + 2 + length url);
           (Start 2, i + 2 + length alt + 2);
           (End 1, i + 2 + length alt);
           (Start 1, i + 2)]).
Proof.
  intros Ha Hu. rewrite image_re_eq. unfold image_markup.
  cbn [lits map lit list_ascii_of_string app]. rewrite !match_one.
  assert (G := groups_match alt url tail [] (S (S i)) (Some "["%char) Ha Hu).
  cbn [lit list_ascii_of_string app] in G. right_assoc.
  rewrite G. f_equal. f_equal.
  - lengths. lia.
  - rewrite ?app_nil_r. repeat (f_equal; try lia).
Qed.

(** [link_re] on a link markup that does not follow [!]. *)
Lemma link_match (text url tail : str) (i : nat) (prev : option ascii) :
  prev <> Some "!"%char ->
  Forall text_char text -> Forall target_char url ->
  match_at link_re [] i prev (link_markup text url ++ tail)
  = Some (i + length (link_markup text url),
          [(End 2, i + 1 + length text + 2 + length url);
           (Start 2, i + 1 + length text + 2);
           (End 1, i + 1 + length text);
           (Start 1, i + 1)]).
Proof.
  intros Hp Ha Hu. rewrite link_re_eq. unfold link_markup.
  cbn [lits map lit list_ascii_of_string app match_at].
  assert (E : match prev with
              | Some d => if Ascii.eqb d "!" then true else false
              | None => false
              end = false).
  { destruct prev as [d|]; [|reflexivity].
    destruct (Ascii.eqb_spec d "!"); [subst; congruence | reflexivity]. }
  destruct prev as [d|].
  - destruct (Ascii.eqb d "!"); [discriminate|].
    cbn [in_cls]. rewrite Ascii.eqb_refl.
    assert (G := groups_match text url tail [] (S i) (Some "["%char) Ha Hu).
    cbn [lit list_ascii_of_string app] in G. right_assoc.
    rewrite G. f_equal. f_equal.
    + lengths. lia.
    + rewrite ?app_nil_r. repeat (f_equal; try lia).
  - cbn [in_cls]. rewrite Ascii.eqb_refl.
    assert (G := groups_match text url tail [] (S i) (Some "["%char) Ha Hu).
    cbn [lit list_ascii_of_string app] in G. right_assoc.
    rewrite G. f_equal. f_equal.
    + lengths. lia.
    + rewrite ?app_nil_r. repeat (f_equal; try lia).
Qed.

End PatternFacts.

Module ScanFacts.
Import Regex RegexFacts Cleaner PatternFacts.

Lemma no_match_in_first (re : regex) (P : ascii -> Prop) (pre rest : str) :
  (forall c t i p, P c -> match_at re [] i p (c :: t) = None) ->
  Forall P pre ->
  forall i prev, no_match_in re i prev pre rest.
Proof.
  intros H F. induction F as [|c pre Hc _ IH]; intros i prev; cbn [no_match_in];
    [exact I|].
  split; [apply H, Hc | apply IH].
Qed.

Lemma no_match_in_app (re : regex) (a b rest : str) :
  forall i prev,
    no_match_in re i prev a (b ++ rest) ->
    no_match_in re (i + length a) (prev_after prev a) b rest ->
    no_match_in re i prev (a ++ b) rest.
Proof.
  induction a as [|c a IH]; intros i prev H1 H2.
  - simpl in *. rewrite Nat.add_0_r in H2. exact H2.
  - destruct H1 as [H1 H1']. cbn [app no_match_in]. split.
    + rewrite <- app_assoc. exact H1.
    + apply IH; [exact H1'|]. cbn [length] in H2. rewrite Nat.add_succ_r in H2. exact H2.
Qed.

(** Where the three patterns cannot match. *)
Lemma nested_first (c : ascii) (t : str) (ms : marks) (i : nat) (p : option ascii) :
  c <> "["%char -> match_at nested_re ms i p (c :: t) = None.
Proof. intros H. unfold nested_re. cbn [lits map lit list_ascii_of_string app]. apply match_one_other, H. Qed.

Lemma nested_single_bracket (body : str) (ms : marks) (i : nat) (p : option ascii) :
  Forall no_bracket body -> match_at nested_re ms i p ("["%char :: body) = None.
Proof.
  intros H. unfold nested_re. cbn [lits map lit list_ascii_of_string app].
  rewrite match_one. cbn [match_at in_cls].
  destruct body as [|c [|d b]]; try reflexivity.
  - destruct (Ascii.eqb c "!"); reflexivity.
  - destruct (Ascii.eqb c "!"); [|reflexivity].
    inversion H as [|? ? _ H']; subst. inversion H' as [|? ? Hd _]; subst.
    apply Ascii.eqb_neq in Hd. rewrite Hd. reflexivity.
Qed.

Lemma link_first (c : ascii) (t : str) (ms : marks) (i : nat) (p : option ascii) :
  c <> "["%char -> match_at link_re ms i p (c :: t) = None.
Proof.
  intros H. unfold link_re. cbn [lits map lit list_ascii_of_string app match_at in_cls].
  apply Ascii.eqb_neq in H. rewrite H.
  destruct p as [d|]; [destruct (Ascii.eqb d "!")|]; reflexivity.
Qed.

Lemma link_after_bang (s : str) (ms : marks) (i : nat) :
  match_at link_re ms i (Some "!"%char) s = None.
Proof. reflexivity. Qed.

Lemma image_first (c : ascii) (t : str) (ms : marks) (i : nat) (p : option ascii) :
  c <> "!"%char -> match_at image_re ms i p (c :: t) = None.
Proof. intros H. unfold image_re. cbn [lits map lit list_ascii_of_string app]. apply match_one_other, H. Qed.

Lemma image_second (c : ascii) (t : str) (ms : marks) (i : nat) (p : option ascii) :
  (forall d t', t = d :: t' -> d <> "["%char) ->
  match_at image_re ms i p (c :: t) = None.
Proof.
  intros H. unfold image_re. cbn [lits map lit list_ascii_of_string app match_at in_cls].
  destruct (Ascii.eqb c "!"); [|reflexivity].
  destruct t as [|d t']; [reflexivity|].
  assert (Hd := H d t' eq_refl). apply Ascii.eqb_neq in Hd. rewrite Hd. reflexivity.
Qed.

(** No image starts in a text without [[], followed by a text that does
    not begin with [[]. *)
Lemma image_no_match_in (pre rest : str) :
  Forall no_bracket pre ->
  (forall d t, rest = d :: t -> d <> "["%char) ->
  forall i prev, no_match_in image_re i prev pre rest.
Proof.
  intros F R. induction F as [|c pre Hc F IH]; intros i prev; cbn [no_match_in];
    [exact I|].
  split; [|apply IH]. apply image_second. intros d t' E.
  destruct pre as [|x pre'].
  - simpl in E. exact (R d t' E).
  - simpl in E. injection E as <- _. inversion F; assumption.
Qed.

Lemma nested_no_match_in (pre rest : str) :
  Forall no_bracket pre -> forall i prev, no_match_in nested_re i prev pre rest.
Proof.
  apply no_match_in_first. intros c t i p H. apply nested_first, H.
Qed.

Lemma link_no_match_in (pre rest : str) :
  Forall no_bracket pre -> forall i prev, no_match_in link_re i prev pre rest.
Proof.
  apply no_match_in_first. intros c t i p H. apply link_first, H.
Qed.

(** [re.sub] on a subject with one match. *)
Lemma sub_single {W : Type} (re : regex) (repl : match_obj -> W -> str * W)
    (pre mid post : str) (ms : marks) (w : W) :
  mid <> [] ->
  no_match_in re 0 None pre (mid ++ post) ->
  match_at re [] (length pre) (prev_after None pre) (mid ++ post)
  = Some (length pre + length mid, ms) ->
  no_match_in re (length pre + length mid) (prev_after None (pre ++ mid)) post [] ->
  sub re repl (pre ++ mid ++ post) w
  = (let (r, w1) := repl {| subject := pre ++ mid ++ post;
                            span_start := length pre;
                            span_end := length pre + length mid;
                            boundaries := ms |} w in
     (pre ++ r ++ post, w1)).
Proof.
  intros Hmid N1 M N2. unfold sub.
  rewrite (sub_scan_no_match re repl _ pre (mid ++ post) 0 None w N1). cbn [plus].
  destruct mid as [|c mid]; [congruence|].
  cbn [app sub_scan]. cbn [app] in M. rewrite M.
  destruct (repl _ w) as [r w1].
  replace (length pre + length (c :: mid) - length pre - 1) with (length mid)
    by (cbn [length]; lia).
  rewrite sub_scan_skip.
  assert (E := sub_scan_no_match re repl (pre ++ c :: mid ++ post) post []
                 (S (length pre) + length mid)
                 (prev_after (Some c) mid) w1).
  rewrite app_nil_r in E. rewrite E.
  - destruct post; simpl; rewrite ?app_nil_r; reflexivity.
  - replace (S (length pre) + length mid) with (length pre + length (c :: mid))
      by (cbn [length]; lia).
    rewrite prev_after_app in N2. exact N2.
Qed.

(** [re.sub] on a subject without a match. *)
Lemma sub_none {W : Type} (re : regex) (repl : match_obj -> W -> str * W) (s : str) (w : W) :
  no_match_in re 0 None s [] -> sub re repl s w = (s, w).
Proof.
  intros N. unfold sub.
  assert (E := sub_scan_no_match re repl s s [] 0 None w).
  rewrite app_nil_r in E. rewrite (E N). simpl. rewrite app_nil_r. reflexivity.
Qed.

Lemma slice_mid (a x b : str) (n m : nat) :
  n = length a -> m = n + length x -> slice (a ++ x ++ b) n m = x.
Proof.
  intros -> ->. unfold slice.
  rewrite skipn_app, Nat.sub_diag, skipn_all. cbn [skipn app].
  replace (length a + length x - length a) with (length x) by lia.
  rewrite firstn_app, Nat.sub_diag, firstn_all. simpl. apply app_nil_r.
Qed.

End ScanFacts.

(** ** The image fetcher *)

Module FetcherFacts.
Import Cleaner.

Lemma Forall_upto (P : ascii -> Prop) (s : str) (n : Z) :
  Forall P s -> Forall P (upto s n).
Proof.
  unfold upto. generalize (Z.to_nat n) as k. intros k H. revert k.
  induction H as [|c s Hc _ IH]; intros [|k]; simpl; constructor; auto.
Qed.

Lemma Forall_from (P : ascii -> Prop) (s : str) (n : Z) :
  Forall P s -> Forall P (from s n).
Proof.
  unfold from. generalize (Z.to_nat n) as k. intros k H. revert k.
  induction H as [|c s Hc H IH]; intros [|k]; simpl; try constructor; auto.
Qed.

Lemma Forall_lstrip_c0 (P : ascii -> Prop) (s : str) :
  Forall P s -> Forall P (Url.lstrip_c0 s).
Proof.
  induction 1 as [|c s Hc H IH]; simpl; [constructor|].
  destruct (nat_of_ascii c <=? 32); [exact IH | constructor; assumption].
Qed.

Lemma Forall_filter (P : ascii -> Prop) (f : ascii -> bool) (s : str) :
  Forall P s -> Forall P (filter f s).
Proof.
  induction 1 as [|c s Hc H IH]; simpl; [constructor|].
  destruct (f c); [constructor; assumption | exact IH].
Qed.

Ltac break_if :=
  match goal with
  | |- context [if ?b then _ else _] => destruct b
  end.

(** The path [urlparse] answers is made of characters of the URL. *)
Lemma urlsplit_chars (P : ascii -> Prop) (ok : str -> bool) (url scheme path : str) :
  Forall P url -> Url.urlsplit ok url = Some (scheme, path) -> Forall P path.
Proof.
  intros H. unfold Url.urlsplit, Url.splitnetloc, Url.before.
  set (u1 := filter _ (Url.lstrip_c0 url)).
  assert (H1 : Forall P u1) by (apply Forall_filter, Forall_lstrip_c0, H).
  clearbody u1.
  repeat break_if; try discriminate;
    intros E; injection E as _ <-;
    repeat apply Forall_upto; repeat apply Forall_from; exact H1.
Qed.

Lemma urlparse_path_chars (P : ascii -> Prop) (ok : str -> bool) (url path : str) :
  Forall P url -> Url.urlparse_path ok url = Some path -> Forall P path.
Proof.
  intros H. unfold Url.urlparse_path.
  destruct (Url.urlsplit ok url) as [[scheme p]|] eqn:E; [|discriminate].
  apply (urlsplit_chars P) in E; [|exact H].
  destruct (_ && _).
  - intros K. injection K as <-. unfold Url.splitparams.
    destruct (contains p "/"); [destruct (_ <? 0)%Z|]; auto using Forall_upto.
  - intros K. injection K as <-. exact E.
Qed.

Lemma splitext_chars (P : ascii -> Prop) (p : str) :
  Forall P p -> Forall P (Url.splitext_ext p).
Proof.
  intros H. unfold Url.splitext_ext.
  destruct (_ && _); [apply Forall_from, H | constructor].
Qed.

(** The verdict on bracketed hosts decides only whether [urlparse] raises. *)
Lemma urlsplit_any_verdict (ok : str -> bool) (url : str) (r : str * str) :
  Url.urlsplit ok url = Some r -> Url.urlsplit (fun _ => true) url = Some r.
Proof.
  unfold Url.urlsplit. cbn [negb]. rewrite ?andb_false_r.
  set (u1 := filter _ (Url.lstrip_c0 url)). clearbody u1.
  destruct ((find u1 ":" >? 0)%Z && Url.is_ascii_alpha (char_at u1 0)
            && forallb Url.scheme_char (upto u1 (find u1 ":"))).
  - destruct (str_eqb (upto (from u1 (find u1 ":" + 1)) 2) "//"); [|auto].
    destruct (Url.splitnetloc (from u1 (find u1 ":" + 1))) as [netloc rest].
    rewrite ?andb_false_r. repeat break_if; try discriminate; auto.
  - destruct (str_eqb (upto u1 2) "//"); [|auto].
    destruct (Url.splitnetloc u1) as [netloc rest].
    rewrite ?andb_false_r. repeat break_if; try discriminate; auto.
Qed.

Lemma urlparse_path_any_verdict (ok : str -> bool) (url path : str) :
  Url.urlparse_path ok url = Some path ->
  Url.urlparse_path (fun _ => true) url = Some path.
Proof.
  unfold Url.urlparse_path.
  destruct (Url.urlsplit ok url) as [[scheme p]|] eqn:E; [|discriminate].
  rewrite (urlsplit_any_verdict ok url _ E). auto.
Qed.

(** The digest has 16 bytes, written with 32 hexadecimal digits. *)
Lemma digest_length (msg : list Z) : length (MD5.digest msg) = 16.
Proof.
  unfold MD5.digest.
  destruct (MD5.blocks _ MD5.init (MD5.pad msg)) as [[[a b] c] d].
  unfold MD5.le_bytes. rewrite !length_app, !length_map, !length_seq. reflexivity.
Qed.

Lemma hex_bytes_length (l : list Z) : length (flat_map MD5.hex_byte l) = 2 * length l.
Proof. induction l as [|x l IH]; simpl; [reflexivity | rewrite IH; lia]. Qed.

Lemma hexdigest_length (s : str) : length (MD5.hexdigest s) = 32.
Proof. unfold MD5.hexdigest. rewrite hex_bytes_length, digest_length. reflexivity. Qed.

Lemma hex_digit_is_hex (x : Z) : is_hex (MD5.hex_digit x).
Proof.
  unfold is_hex, MD5.hex_digit.
  destruct (Nat.lt_ge_cases (Z.to_nat x) (length (lit "0123456789abcdef"))) as [L|L].
  - apply nth_In, L.
  - rewrite nth_overflow by exact L. left. reflexivity.
Qed.

Lemma hexdigest_is_hex (s : str) : Forall is_hex (MD5.hexdigest s).
Proof.
  unfold MD5.hexdigest. generalize (MD5.digest (MD5.encode s)) as l.
  induction l as [|x l IH]; simpl; [constructor|].
  constructor; [apply hex_digit_is_hex|]. constructor; [apply hex_digit_is_hex | exact IH].
Qed.

Lemma is_hex_no_bracket (c : ascii) : is_hex c -> no_bracket c.
Proof.
  unfold is_hex, no_bracket. simpl. intros H.
  repeat (destruct H as [<-|H]; [discriminate|]). contradiction.
Qed.

Lemma url_hash_length (url : str) : length (firstn 12 (MD5.hexdigest url)) = 12.
Proof. rewrite length_firstn, hexdigest_length. reflexivity. Qed.

Lemma url_hash_is_hex (url : str) : Forall is_hex (firstn 12 (MD5.hexdigest url)).
Proof. apply (Forall_upto is_hex _ 12), hexdigest_is_hex. Qed.

Lemma local_name_no_bracket (w : world) (url name : str) :
  Forall no_bracket url -> local_name w url = Some name -> Forall no_bracket name.
Proof.
  intros H. unfold local_name.
  destruct (Url.urlparse_path (bracketed_ok w) url) as [path|] eqn:E; [|discriminate].
  cbv zeta. intros K.
  match type of K with Some ?n = _ => assert (K' : name = n) by congruence end.
  subst name. clear K.
  apply Forall_app. split.
  { repeat constructor; discriminate. }
  apply Forall_app. split.
  { eapply Forall_impl; [apply is_hex_no_bracket | apply url_hash_is_hex]. }
  destruct (negb (truthy (Url.splitext_ext path))).
  - repeat constructor; discriminate.
  - apply splitext_chars. eapply urlparse_path_chars; eauto.
Qed.

Lemma local_name_truthy (w : world) (url name : str) :
  local_name w url = Some name -> truthy name = true.
Proof.
  unfold local_name. destruct (Url.urlparse_path _ url); [|discriminate].
  cbv zeta. intros K.
  match type of K with Some ?n = _ => assert (K' : name = n) by congruence end.
  subst name. reflexivity.
Qed.

(** When [download_image] answers a name, it is the computed one. *)
Lemma download_image_name (url : str) (w w' : world) (name : str) :
  download_image url w = (Some name, w') -> local_name w url = Some name.
Proof.
  unfold download_image. destruct (local_name w url) as [n|]; [|discriminate].
  destruct (negb (file_exists w n)).
  - destruct (network w (requests w) url n); intros K; inversion K; reflexivity.
  - intros K; inversion K; reflexivity.
Qed.

End FetcherFacts.

(** ** One line with one markup *)

Module LineFacts.
Import Regex RegexFacts Cleaner PatternFacts ScanFacts FetcherFacts.

Lemma text_no_bracket (t : str) : Forall text_char t -> Forall no_bracket t.
Proof. apply Forall_impl. intros c [H _]. exact H. Qed.

Lemma target_no_bracket (t : str) : Forall target_char t -> Forall no_bracket t.
Proof. apply Forall_impl. intros c [H _]. exact H. Qed.

Lemma lit_no_bracket_close : Forall no_bracket (lit "](").
Proof. repeat constructor; discriminate. Qed.

Lemma lit_no_bracket_paren : Forall no_bracket (lit ")").
Proof. repeat constructor; discriminate. Qed.

(** What follows [![] in an image markup, and [[] in a link markup, holds
    no other [[]. *)
Lemma body_no_bracket (text url post : str) :
  Forall no_bracket text -> Forall no_bracket url -> Forall no_bracket post ->
  Forall no_bracket (text ++ lit "](" ++ url ++ lit ")" ++ post).
Proof.
  intros H1 H2 H3.
  repeat (apply Forall_app; split);
    auto using lit_no_bracket_close, lit_no_bracket_paren.
Qed.

Lemma nested_none_image_shape (pre body : str) :
  Forall no_bracket pre -> Forall no_bracket body ->
  no_match_in nested_re 0 None (pre ++ "!"%char :: "["%char :: body) [].
Proof.
  intros H1 H2. apply no_match_in_app; [apply nested_no_match_in, H1|].
  cbn [no_match_in app]. split; [apply nested_first; discriminate|].
  split; [apply nested_single_bracket; rewrite app_nil_r; exact H2|].
  apply nested_no_match_in, H2.
Qed.

Lemma link_none_image_shape (pre body : str) :
  Forall no_bracket pre -> Forall no_bracket body ->
  no_match_in link_re 0 None (pre ++ "!"%char :: "["%char :: body) [].
Proof.
  intros H1 H2. apply no_match_in_app; [apply link_no_match_in, H1|].
  cbn [no_match_in app]. split; [apply link_first; discriminate|].
  split; [apply link_after_bang|].
  apply link_no_match_in, H2.
Qed.

Lemma image_groups (pre alt url post : str) :
  let m := {| subject := pre ++ image_markup alt url ++ post;
              span_start := length pre;
              span_end := length pre + length (image_markup alt url);
              boundaries := [(End 2, length pre + 2 + length alt + 2 + length url);
                             (Start 2, length pre + 2 + length alt + 2);
                             (End 1, length pre + 2 + length alt);
                             (Start 1, length pre + 2)] |} in
  group m 0 = image_markup alt url /\ group m 1 = alt /\ group m 2 = url.
Proof.
  cbv zeta. unfold group.
  cbn [subject span_start span_end boundaries boundary mark_eqb Nat.eqb].
  split; [|split].
  - apply slice_mid; reflexivity.
  - replace (pre ++ image_markup alt url ++ post)
      with ((pre ++ lit "![") ++ alt ++ (lit "](" ++ url ++ lit ")" ++ post))
      by (unfold image_markup; rewrite <- !app_assoc; reflexivity).
    apply slice_mid; [rewrite length_app; reflexivity | reflexivity].
  - replace (pre ++ image_markup alt url ++ post)
      with ((pre ++ lit "![" ++ alt ++ lit "](") ++ url ++ (lit ")" ++ post))
      by (unfold image_markup; rewrite <- !app_assoc; reflexivity).
    apply slice_mid; [rewrite !length_app; simpl; lia | reflexivity].
Qed.

Lemma link_groups (pre text url post : str) :
  let m := {| subject := pre ++ link_markup text url ++ post;
              span_start := length pre;
              span_end := length pre + length (link_markup text url);
              boundaries := [(End 2, length pre + 1 + length text + 2 + length url);
                             (Start 2, length pre + 1 + length text + 2);
                             (End 1, length pre + 1 + length text);
                             (Start 1, length pre + 1)] |} in
  group m 0 = link_markup text url /\ group m 1 = text /\ group m 2 = url.
Proof.
  cbv zeta. unfold group.
  cbn [subject span_start span_end boundaries boundary mark_eqb Nat.eqb].
  split; [|split].
  - apply slice_mid; reflexivity.
  - replace (pre ++ link_markup text url ++ post)
      with ((pre ++ lit "[") ++ text ++ (lit "](" ++ url ++ lit ")" ++ post))
      by (unfold link_markup; rewrite <- !app_assoc; reflexivity).
    apply slice_mid; [rewrite length_app; reflexivity | reflexivity].
  - replace (pre ++ link_markup text url ++ post)
      with ((pre ++ lit "[" ++ text ++ lit "](") ++ url ++ (lit ")" ++ post))
      by (unfold link_markup; rewrite <- !app_assoc; reflexivity).
    apply slice_mid; [rewrite !length_app; simpl; lia | reflexivity].
Qed.

Lemma image_markup_shape (alt url : str) (post : str) :
  image_markup alt url ++ post
  = "!"%char :: "["%char :: (alt ++ lit "](" ++ url ++ lit ")" ++ post).
Proof. unfold image_markup. right_assoc. reflexivity. Qed.

Lemma image_markup_not_nil (alt url : str) : image_markup alt url <> [].
Proof. discriminate. Qed.

(** The image pass on a line with one image markup. *)
Lemma image_pass (repl : match_obj -> world -> str * world)
    (pre alt url post : str) (w : world) :
  Forall no_bracket pre -> Forall text_char alt -> Forall target_char url ->
  Forall no_bracket post ->
  sub image_re repl (pre ++ image_markup alt url ++ post) w
  = (let (r, w1) :=
       repl {| subject := pre ++ image_markup alt url ++ post;
               span_start := length pre;
               span_end := length pre + length (image_markup alt url);
               boundaries := [(End 2, length pre + 2 + length alt + 2 + length url);
                              (Start 2, length pre + 2 + length alt + 2);
                              (End 1, length pre + 2 + length alt);
                              (Start 1, length pre + 2)] |} w in
     (pre ++ r ++ post, w1)).
Proof.
  intros Hpre Halt Hurl Hpost.
  apply sub_single.
  - apply image_markup_not_nil.
  - apply image_no_match_in; [exact Hpre|].
    intros d t E. rewrite image_markup_shape in E. injection E as <- _. discriminate.
  - apply image_match; assumption.
  - apply image_no_match_in; [exact Hpost | intros d t E; discriminate].
Qed.

End LineFacts.

Module CleanLine.
Import Regex RegexFacts Cleaner PatternFacts ScanFacts FetcherFacts LineFacts.

(** A line with one image markup, no other [[] around it: a local target
    is kept, a remote image that is fetched gets its local path, and a
    failed fetch leaves the alt text. *)
Lemma clean_line_image (pre alt url post : str) (w : world) :
  Forall no_bracket pre -> Forall text_char alt -> Forall target_char url ->
  Forall no_bracket post ->
  clean_line (pre ++ image_markup alt url ++ post) w
  = if negb (startswith url "http")
    then (pre ++ image_markup alt url ++ post, w)
    else match download_image url w with
         | (Some name, w') => (pre ++ local_image alt name ++ post, w')
         | (None, w') => (pre ++ alt ++ post, w')
         end.
Proof.
  intros Hpre Halt Hurl Hpost. unfold clean_line.
  assert (Hbody : Forall no_bracket (alt ++ lit "](" ++ url ++ lit ")" ++ post)).
  { apply body_no_bracket; auto using text_no_bracket, target_no_bracket. }
  (* the nested pattern finds nothing *)
  rewrite (sub_none nested_re).
  2:{ rewrite image_markup_shape. apply nested_none_image_shape; assumption. }
  (* the image pattern finds the markup *)
  rewrite (image_pass replace_image pre alt url post w Hpre Halt Hurl Hpost).
  destruct (image_groups pre alt url post) as (G0 & G1 & G2). cbv zeta in G0, G1, G2.
  unfold replace_image. rewrite G0, G1, G2.
  destruct (startswith url "http") eqn:Hhttp; cbn [negb].
  - destruct (download_image url w) as [[name|] w'] eqn:D.
    + cbn [got Cleaner.name_of].
      rewrite (local_name_truthy w url name (download_image_name _ _ _ _ D)).
      (* the link pattern finds nothing after [!] *)
      apply sub_none. unfold local_image. right_assoc.
      apply link_none_image_shape; [exact Hpre|].
      apply Forall_app; split; [apply text_no_bracket, Halt|].
      apply Forall_app with (l1 := lit "](images/"); split.
      { repeat constructor; discriminate. }
      apply Forall_app; split.
      { apply (local_name_no_bracket w url); [apply target_no_bracket, Hurl|].
        exact (download_image_name _ _ _ _ D). }
      constructor; [discriminate | exact Hpost].
    + cbn [got]. apply sub_none, link_no_match_in.
      repeat (apply Forall_app; split); auto using text_no_bracket.
  - apply sub_none. rewrite image_markup_shape.
    apply link_none_image_shape; assumption.
Qed.

End CleanLine.

(** ** The world through a download *)

Module WorldGrowth.
Import Cleaner.

Lemma grows_refl (w : world) : grows w w.
Proof.
  split; [apply incl_refl|]. split; [exists []; reflexivity|]. split; reflexivity.
Qed.

Lemma grows_trans (a b c : world) : grows a b -> grows b c -> grows a c.
Proof.
  intros (F1 & (m1 & R1) & N1 & B1) (F2 & (m2 & R2) & N2 & B2).
  split; [eapply incl_tran; eauto|]. split.
  - exists (m2 ++ m1). rewrite R2, R1. apply app_assoc.
  - split; congruence.
Qed.

Lemma grows_with_request (w : world) (url : str) (created : list str) :
  grows w (with_request w url created).
Proof.
  split; [apply incl_appr, incl_refl|]. split; [exists [url]; reflexivity|].
  split; reflexivity.
Qed.

Lemma download_image_grows (url : str) (w : world) :
  grows w (snd (download_image url w)).
Proof.
  unfold download_image. destruct (local_name w url) as [n|]; [|apply grows_refl].
  destruct (negb (file_exists w n)); [|apply grows_refl].
  destruct (network w (requests w) url n); apply grows_with_request.
Qed.

End WorldGrowth.

(** ** Lines made of parts *)

Module PieceFacts.
Import Regex RegexFacts Cleaner PatternFacts ScanFacts FetcherFacts LineFacts.

Lemma bang_after_app (b : bool) (t u : str) :
  bang_after b (t ++ u) = bang_after (bang_after b t) u.
Proof. unfold bang_after. apply fold_left_app. Qed.

Lemma bang_after_last (b : bool) (t : str) (c : ascii) :
  bang_after b (t ++ [c]) = Ascii.eqb c "!".
Proof. rewrite bang_after_app. reflexivity. Qed.

Lemma prev_after_last (prev : option ascii) (t : str) (c : ascii) :
  prev_after prev (t ++ [c]) = Some c.
Proof. rewrite prev_after_app. reflexivity. Qed.

(** [bang_after] follows the character the scan has just passed. *)
Lemma bang_sound (t : str) :
  forall prev b,
    (prev = Some "!"%char -> b = true) ->
    prev_after prev t = Some "!"%char -> bang_after b t = true.
Proof.
  induction t as [|c t IH]; intros prev b H E; simpl in *; [auto|].
  apply (IH (Some c)); [|exact E].
  intros K. injection K as ->. reflexivity.
Qed.

Lemma bang_after_nonempty (b b' : bool) (t : str) :
  t <> [] -> bang_after b t = bang_after b' t.
Proof. destruct t; [congruence | reflexivity]. Qed.

Lemma render_line_cons (p : piece) (ps : list piece) :
  render_line (p :: ps) = render p ++ render_line ps.
Proof. reflexivity. Qed.

Lemma render_line_app (ps qs : list piece) :
  render_line (ps ++ qs) = render_line ps ++ render_line qs.
Proof. unfold render_line. apply flat_map_app. Qed.

Lemma local_image_markup (alt name : str) :
  local_image alt name = image_markup alt (lit "images/" ++ name).
Proof. unfold local_image, image_markup. right_assoc. reflexivity. Qed.

(** [re.sub] at a match. *)
Lemma sub_scan_match {W : Type} (re : regex) (repl : match_obj -> W -> str * W)
    (whole mid post : str) (ms : marks) (i : nat) (prev : option ascii) (w : W) :
  mid <> [] ->
  match_at re [] i prev (mid ++ post) = Some (i + length mid, ms) ->
  sub_scan re repl whole i prev 0 (mid ++ post) w
  = (let (r, w1) := repl {| subject := whole; span_start := i;
                            span_end := i + length mid; boundaries := ms |} w in
     let (out, w2) := sub_scan re repl whole (i + length mid) (prev_after prev mid) 0 post w1 in
     (r ++ out, w2)).
Proof.
  intros Hmid M. destruct mid as [|c mid]; [congruence|].
  cbn [app sub_scan]. cbn [app] in M. rewrite M.
  destruct (repl _ w) as [r w1].
  replace (i + length (c :: mid) - i - 1) with (length mid) by (cbn [length]; lia).
  rewrite sub_scan_skip.
  replace (S i + length mid) with (i + length (c :: mid)) by (cbn [length]; lia).
  reflexivity.
Qed.

(** No image reference starts in a text without [[], unless the text ends
    with [!] and a [[] follows. *)
Lemma image_no_match_text (pre rest : str) :
  Forall no_bracket pre ->
  (bang_after false pre = true -> forall d t, rest = d :: t -> d <> "["%char) ->
  forall i prev, no_match_in image_re i prev pre rest.
Proof.
  intros F. induction F as [|c pre Hc F IH]; intros R i prev; cbn [no_match_in];
    [exact I|].
  split.
  - destruct (Ascii.eqb_spec c "!") as [->|Hb]; [|apply image_first, Hb].
    apply image_second. intros d t' E.
    destruct pre as [|x pre'].
    + simpl in E. exact (R eq_refl d t' E).
    + simpl in E. injection E as <- _. inversion F; assumption.
  - apply IH. intros B. apply R.
    destruct pre as [|x pre']; [discriminate B | exact B].
Qed.

(** The nested form starts with [[![]. *)
Lemma nested_second (body : str) (ms : marks) (i : nat) (p : option ascii) :
  (forall t, body <> "!"%char :: "["%char :: t) ->
  match_at nested_re ms i p ("["%char :: body) = None.
Proof.
  intros H. unfold nested_re. cbn [lits map lit list_ascii_of_string app].
  rewrite match_one. cbn [match_at in_cls].
  destruct body as [|c [|d b]]; try reflexivity.
  - destruct (Ascii.eqb c "!"); reflexivity.
  - destruct (Ascii.eqb_spec c "!") as [->|]; [|reflexivity].
    destruct (Ascii.eqb_spec d "[") as [->|]; [|reflexivity].
    exfalso. exact (H b eq_refl).
Qed.

Lemma body_not_nested (text tail : str) :
  Forall text_char text ->
  forall t, text ++ lit "](" ++ tail <> "!"%char :: "["%char :: t.
Proof.
  intros H t E. destruct text as [|c [|d text]]; cbn in E.
  - discriminate.
  - discriminate.
  - injection E as _ E _. inversion H as [|? ? _ H']; subst.
    inversion H' as [|? ? [Hd _] _]; subst. congruence.
Qed.

Lemma text_target_no_bracket (text url : str) :
  Forall text_char text -> Forall target_char url ->
  Forall no_bracket (text ++ lit "](" ++ url ++ lit ")").
Proof.
  intros H1 H2. rewrite <- (app_nil_r (lit ")")).
  apply body_no_bracket; auto using text_no_bracket, target_no_bracket.
Qed.


Lemma target_images (name : str) :
  Forall target_char name -> Forall target_char (lit "images/" ++ name).
Proof.
  intros H. apply Forall_app. split; [|exact H].
  repeat constructor; discriminate.
Qed.

Lemma is_hex_target (c : ascii) : is_hex c -> target_char c.
Proof.
  unfold is_hex, target_char. simpl. intros H.
  repeat (destruct H as [<-|H]; [repeat split; discriminate|]). contradiction.
Qed.

Lemma local_name_target (w : world) (url name : str) :
  Forall target_char url -> local_name w url = Some name -> Forall target_char name.
Proof.
  intros H. unfold local_name.
  destruct (Url.urlparse_path (bracketed_ok w) url) as [path|] eqn:E; [|discriminate].
  cbv zeta. intros K.
  match type of K with Some ?n = _ => assert (K' : name = n) by congruence end.
  subst name. clear K.
  apply Forall_app. split.
  { repeat constructor; discriminate. }
  apply Forall_app. split.
  { eapply Forall_impl; [apply is_hex_target | apply url_hash_is_hex]. }
  destruct (negb (truthy (Url.splitext_ext path))).
  - repeat constructor; discriminate.
  - apply splitext_chars. eapply urlparse_path_chars; eauto.
Qed.

(** What [fetched] answers is a part of a line again, with the same text. *)
Lemma fetched_ok (text url : str) (w : world) :
  Forall text_char text -> Forall target_char url ->
  piece_ok (fst (fetched text url w)).
Proof.
  intros Ht Hu. unfold fetched.
  destruct (download_image url w) as [[name|] w'] eqn:D; cbn [fst piece_ok].
  - split; [exact Ht|]. apply target_images.
    apply (local_name_target w url); [exact Hu | exact (download_image_name _ _ _ _ D)].
  - apply text_no_bracket, Ht.
Qed.

Lemma fetched_label (text url : str) (w : world) :
  label (fst (fetched text url w)) = text.
Proof. unfold fetched. destruct (download_image url w) as [[name|] w']; reflexivity. Qed.

Lemma fetched_shape (text url : str) (w : world) :
  (exists name, fst (fetched text url w) = Image text (lit "images/" ++ name))
  \/ fst (fetched text url w) = Text text.
Proof.
  unfold fetched. destruct (download_image url w) as [[name|] w'];
    [left; exists name; reflexivity | right; reflexivity].
Qed.

(** The replacement of [replace_image], [replace_link] and
    [replace_nested_image] once the image was asked for. *)
Lemma fetched_render (text url : str) (w : world) :
  (let (local_filename, w') := download_image url w in
   if got local_filename
   then (local_image text (name_of local_filename), w')
   else (text, w'))
  = (render (fst (fetched text url w)), snd (fetched text url w)).
Proof.
  unfold fetched. destruct (download_image url w) as [[name|] w'] eqn:D.
  - cbn [got name_of fst snd render].
    rewrite (local_name_truthy w url name (download_image_name _ _ _ _ D)).
    rewrite local_image_markup. reflexivity.
  - reflexivity.
Qed.

Lemma replace_image_at (a alt url post : str) (w : world) :
  replace_image {| subject := a ++ image_markup alt url ++ post;
                   span_start := length a;
                   span_end := length a + length (image_markup alt url);
                   boundaries := [(End 2, length a + 2 + length alt + 2 + length url);
                                  (Start 2, length a + 2 + length alt + 2);
                                  (End 1, length a + 2 + length alt);
                                  (Start 1, length a + 2)] |} w
  = (render (fst (localize (Image alt url) w)), snd (localize (Image alt url) w)).
Proof.
  destruct (image_groups a alt url post) as (G0 & G1 & G2). cbv zeta in G0, G1, G2.
  unfold replace_image. rewrite G0, G1, G2. cbn [localize].
  destruct (startswith url "http"); cbn [negb]; [apply fetched_render | reflexivity].
Qed.

Lemma replace_link_at (a text url post : str) (w : world) :
  replace_link {| subject := a ++ link_markup text url ++ post;
                  span_start := length a;
                  span_end := length a + length (link_markup text url);
                  boundaries := [(End 2, length a + 1 + length text + 2 + length url);
                                 (Start 2, length a + 1 + length text + 2);
                                 (End 1, length a + 1 + length text);
                                 (Start 1, length a + 1)] |} w
  = (render (fst (unlink (Link text url) w)), snd (unlink (Link text url) w)).
Proof.
  destruct (link_groups a text url post) as (G0 & G1 & G2). cbv zeta in G0, G1, G2.
  unfold replace_link. rewrite G0, G1, G2. cbn [unlink]. fold (image_target url).
  destruct (startswith url "#"); [reflexivity|].
  destruct (image_target url); [apply fetched_render | reflexivity].
Qed.

(** A line that may come after a [!] does not begin with [[]. *)
Lemma clear_first (ps : list piece) :
  Forall piece_ok ps -> Forall plain ps -> links_clear true ps = true ->
  forall d t, render_line ps = d :: t -> d <> "["%char.
Proof.
  induction 1 as [|p ps Hp _ IH]; intros Hn Hc d t E; [discriminate|].
  inversion Hn as [|? ? Hn1 Hn2]; subst.
  cbn [links_clear] in Hc. apply andb_prop in Hc as [Hc1 Hc2].
  destruct p as [x|alt url|text url|alt inner outer]; cbn [render_line flat_map render] in E.
  - destruct x as [|c x].
    + apply (IH Hn2 Hc2 d t E).
    + cbn in E. injection E as <- _. cbn in Hp. inversion Hp; assumption.
  - cbn in E. injection E as <- _. discriminate.
  - discriminate.
  - contradiction.
Qed.

Lemma app_assoc3 (a x r : str) : a ++ x ++ r = (a ++ x) ++ r.
Proof. apply app_assoc. Qed.

(** The image pass, part by part. *)
Lemma image_pass_pieces (ps : list piece) :
  forall a b w,
    Forall piece_ok ps -> Forall plain ps -> links_clear b ps = true ->
    sub_scan image_re replace_image (a ++ render_line ps) (length a) (prev_after None a) 0
      (render_line ps) w
    = (let (ps', w') := each localize ps w in (render_line ps', w')).
Proof.
  induction ps as [|p ps IH]; intros a b w Hok Hpl Hc; [reflexivity|].
  inversion Hok as [|? ? Hp Hok']; subst. inversion Hpl as [|? ? Hn Hpl']; subst.
  cbn [links_clear] in Hc. apply andb_prop in Hc as [Hc1 Hc2].
  rewrite render_line_cons.
  assert (Next : forall w1,
             sub_scan image_re replace_image (a ++ render p ++ render_line ps)
               (length a + length (render p)) (prev_after (prev_after None a) (render p)) 0
               (render_line ps) w1
             = (let (ps', w') := each localize ps w1 in (render_line ps', w'))).
  { intros w1. rewrite app_assoc3, <- length_app, <- prev_after_app.
    apply (IH _ (bang_after b (label p))); assumption. }
  destruct p as [x|alt url|text url|alt inner outer]; cbn [render label] in *.
  - rewrite sub_scan_no_match.
    + rewrite Next. cbn [each localize]. destruct (each localize ps w) as [ps' w'].
      reflexivity.
    + apply image_no_match_text; [exact Hp|].
      intros B. apply clear_first; try assumption.
      destruct x as [|c x]; [discriminate B|].
      rewrite (bang_after_nonempty b false) in Hc2 by discriminate.
      rewrite B in Hc2. exact Hc2.
  - destruct Hp as [Ha Hu].
    rewrite (sub_scan_match image_re replace_image _ (image_markup alt url) (render_line ps)
               _ (length a) (prev_after None a) w (image_markup_not_nil alt url)
               (image_match alt url (render_line ps) (length a) (prev_after None a) Ha Hu)).
    rewrite replace_image_at. cbn [each].
    destruct (localize (Image alt url) w) as [p' w1]. cbn [fst snd].
    rewrite Next. destruct (each localize ps w1) as [ps' w']. reflexivity.
  - destruct Hp as [Ht Hu]. rewrite sub_scan_no_match.
    + rewrite Next. cbn [each localize]. destruct (each localize ps w) as [ps' w'].
      reflexivity.
    + unfold link_markup. right_assoc. cbn [no_match_in]. split.
      * apply image_first. discriminate.
      * change (text ++ "]"%char :: "("%char :: url ++ [")"%char])
          with (text ++ lit "](" ++ url ++ lit ")").
        apply image_no_match_text.
        -- apply text_target_no_bracket; assumption.
        -- replace (text ++ lit "](" ++ url ++ lit ")")
             with ((text ++ lit "](" ++ url) ++ [")"%char])
             by (rewrite <- !app_assoc; reflexivity).
           rewrite bang_after_last. discriminate.
  - contradiction.
Qed.


Lemma link_markup_last (text url : str) :
  link_markup text url = (lit "[" ++ text ++ lit "](" ++ url) ++ [")"%char].
Proof. unfold link_markup. rewrite <- !app_assoc. reflexivity. Qed.

Lemma image_markup_last (alt url : str) :
  image_markup alt url = (lit "![" ++ alt ++ lit "](" ++ url) ++ [")"%char].
Proof. unfold image_markup. rewrite <- !app_assoc. reflexivity. Qed.

(** After a part, the scan has passed a [!] only if the texts may end
    with one. *)
Lemma render_bang (p : piece) (a : str) (b : bool) :
  plain p ->
  (prev_after None a = Some "!"%char -> b = true) ->
  prev_after None (a ++ render p) = Some "!"%char -> bang_after b (label p) = true.
Proof.
  intros Hp H. rewrite prev_after_app.
  destruct p as [x|alt url|text url|alt inner outer]; cbn [render label].
  - apply bang_sound, H.
  - rewrite image_markup_last, prev_after_last. discriminate.
  - rewrite link_markup_last, prev_after_last. discriminate.
  - contradiction.
Qed.

(** The link pass, part by part. *)
Lemma link_pass_pieces (ps : list piece) :
  forall a b w,
    (prev_after None a = Some "!"%char -> b = true) ->
    Forall piece_ok ps -> Forall plain ps -> links_clear b ps = true ->
    sub_scan link_re replace_link (a ++ render_line ps) (length a) (prev_after None a) 0
      (render_line ps) w
    = (let (ps', w') := each unlink ps w in (render_line ps', w')).
Proof.
  induction ps as [|p ps IH]; intros a b w Hb Hok Hpl Hc; [reflexivity|].
  inversion Hok as [|? ? Hp Hok']; subst. inversion Hpl as [|? ? Hn Hpl']; subst.
  cbn [links_clear] in Hc. apply andb_prop in Hc as [Hc1 Hc2].
  rewrite render_line_cons.
  assert (Next : forall w1,
             sub_scan link_re replace_link (a ++ render p ++ render_line ps)
               (length a + length (render p)) (prev_after (prev_after None a) (render p)) 0
               (render_line ps) w1
             = (let (ps', w') := each unlink ps w1 in (render_line ps', w'))).
  { intros w1. rewrite app_assoc3, <- length_app, <- prev_after_app.
    apply (IH _ (bang_after b (label p))); try assumption.
    apply render_bang; assumption. }
  destruct p as [x|alt url|text url|alt inner outer]; cbn [render label] in *.
  - rewrite sub_scan_no_match by (apply link_no_match_in, Hp).
    rewrite Next. cbn [each unlink]. destruct (each unlink ps w) as [ps' w']. reflexivity.
  - destruct Hp as [Ha Hu]. rewrite sub_scan_no_match.
    + rewrite Next. cbn [each unlink]. destruct (each unlink ps w) as [ps' w'].
      reflexivity.
    + unfold image_markup. right_assoc. cbn [no_match_in app]. split.
      * apply link_first. discriminate.
      * split; [apply link_after_bang|].
        change (alt ++ "]"%char :: "("%char :: url ++ [")"%char])
          with (alt ++ lit "](" ++ url ++ lit ")").
        apply link_no_match_in, text_target_no_bracket; assumption.
  - destruct Hp as [Ht Hu].
    assert (Hprev : prev_after None a <> Some "!"%char).
    { intros E. apply Hb in E. subst b. discriminate Hc1. }
    rewrite (sub_scan_match link_re replace_link _ (link_markup text url) (render_line ps)
               _ (length a) (prev_after None a) w ltac:(discriminate)
               (link_match text url (render_line ps) (length a) (prev_after None a)
                  Hprev Ht Hu)).
    rewrite replace_link_at. cbn [each].
    destruct (unlink (Link text url) w) as [p' w1]. cbn [fst snd].
    rewrite Next. destruct (each unlink ps w1) as [ps' w']. reflexivity.
  - contradiction.
Qed.


Lemma remote_shape (outer : str) :
  remote outer = true ->
  exists s c host,
    outer = lit "http" ++ s ++ lit "://" ++ c :: host /\ (s = [] \/ s = ["s"%char]).
Proof.
  unfold remote. intros H. apply orb_prop in H as [H|H]; apply andb_prop in H as [P L];
    apply startswith_iff in P as [t ->]; apply Nat.ltb_lt in L;
    rewrite length_app in L; destruct t as [|c host]; try (simpl in L; lia).
  - exists [], c, host. split; [reflexivity | left; reflexivity].
  - exists ["s"%char], c, host. split; [reflexivity | right; reflexivity].
Qed.

Lemma remote_http (outer : str) : remote outer = true -> startswith outer "http" = true.
Proof.
  intros H. destruct (remote_shape outer H) as (s & c & host & -> & _). reflexivity.
Qed.

(** The end of the nested pattern, [://[^\)]+)\)], on the end of the outer
    URL. *)
Lemma host_match (c : ascii) (host tail : str) (ms : marks) (i : nat) (prev : option ascii) :
  Forall target_char (c :: host) ->
  match_at (lits "://" ++ [Many1 (NotChr ")"); Close 2] ++ lits ")") ms i prev
    (lit "://" ++ c :: host ++ lit ")" ++ tail)
  = Some (i + 3 + S (length host) + 1, (End 2, i + 3 + S (length host)) :: ms).
Proof.
  intros H. inversion H as [|? ? Hc Hh]; subst.
  cbn [lits map lit list_ascii_of_string app]. rewrite !match_one.
  cbn [match_at in_cls].
  assert (Ec : Ascii.eqb c ")" = false) by (apply Ascii.eqb_neq, Hc).
  rewrite Ec. cbn [negb].
  apply greedy_loop_run.
  - eapply Forall_impl; [|exact Hh]. intros d (_ & Hd & _). simpl.
    apply Ascii.eqb_neq in Hd. rewrite Hd. reflexivity.
  - intros d s' E. injection E as <- _. reflexivity.
  - cbn [match_at in_cls]. rewrite Ascii.eqb_refl. f_equal. f_equal; [lia|].
    f_equal. f_equal. lia.
Qed.


Lemma match_open (g : nat) (re : regex) (ms : marks) (i : nat) (prev : option ascii) (s : str) :
  match_at (Open g :: re) ms i prev s = match_at re ((Start g, i) :: ms) i prev s.
Proof. reflexivity. Qed.

Lemma match_close (g : nat) (re : regex) (ms : marks) (i : nat) (prev : option ascii) (s : str) :
  match_at (Close g :: re) ms i prev s = match_at re ((End g, i) :: ms) i prev s.
Proof. reflexivity. Qed.

Lemma match_lazy (k : cls) (re : regex) (ms : marks) (i : nat) (prev : option ascii) (s : str) :
  match_at (Lazy k :: re) ms i prev s = lazy_loop k (match_at re ms) i prev s.
Proof. reflexivity. Qed.

(** A lazy [.*?] before a literal character stops at the first occurrence
    of that character. *)
Lemma lazy_dot_stop (stop : ascii) (re : regex) (ms : marks) (t s : str)
    (i : nat) (prev : option ascii) (r : nat * marks) :
  Forall (fun c => in_cls Dot c = true /\ c <> stop) t ->
  match_at (One (Chr stop) :: re) ms (i + length t) (prev_after prev t) s = Some r ->
  match_at (Lazy Dot :: One (Chr stop) :: re) ms i prev (t ++ s) = Some r.
Proof.
  intros Ht H. rewrite match_lazy, (lazy_loop_skip Dot _ stop t); [|intros j p d u Hd; apply match_one_other, Hd | exact Ht].
  apply lazy_loop_here, H.
Qed.

Lemma match_maybe_skip (k : cls) (re : regex) (ms : marks) (i : nat) (prev : option ascii)
    (c : ascii) (s : str) :
  in_cls k c = false ->
  match_at (Maybe k :: re) ms i prev (c :: s) = match_at re ms i prev (c :: s).
Proof. intros H. cbn [match_at]. rewrite H. reflexivity. Qed.

Lemma match_maybe_take (k : cls) (re : regex) (ms : marks) (i : nat) (prev : option ascii)
    (c : ascii) (s : str) (r : nat * marks) :
  in_cls k c = true ->
  match_at re ms (S i) (Some c) s = Some r ->
  match_at (Maybe k :: re) ms i prev (c :: s) = Some r.
Proof. intros H M. cbn [match_at]. rewrite H, M. reflexivity. Qed.

Ltac same_nat := lengths; cbn [length]; lia.

Ltac same_marks :=
  apply f_equal; apply f_equal2; [same_nat|];
  repeat (apply f_equal2; [apply f_equal2; [reflexivity | same_nat]|]);
  reflexivity.

Lemma nested_match (alt inner outer tail : str) (i : nat) (prev : option ascii) :
  Forall text_char alt -> Forall target_char inner ->
  Forall target_char outer -> remote outer = true ->
  match_at nested_re [] i prev (nested_markup alt inner outer ++ tail)
  = Some (i + length (nested_markup alt inner outer),
          [(End 2, i + 1 + length (image_markup alt inner) + 2 + length outer);
           (Start 2, i + 1 + length (image_markup alt inner) + 2);
           (End 1, i + 1 + length (image_markup alt inner));
           (Start 1, i + 1)]).
Proof.
  intros Ha Hi Ho Hr.
  destruct (remote_shape outer Hr) as (s & c & host & -> & Hs).
  assert (Hhost : Forall target_char (c :: host)).
  { apply Forall_app in Ho as [_ Ho]. apply Forall_app in Ho as [_ Ho].
    apply Forall_app in Ho as [_ Ho]. exact Ho. }
  unfold nested_re, nested_markup, image_markup.
  cbn [lits map lit list_ascii_of_string app]. right_assoc.
  rewrite match_one, match_open, !match_one.
  apply lazy_dot_stop; [apply dot_text, Ha|]. rewrite !match_one.
  apply lazy_dot_stop; [apply dot_target, Hi|].
  rewrite match_one, match_close, !match_one, match_open, !match_one.
  assert (T := fun ms j p => host_match c host tail ms j p Hhost).
  cbn [lits map lit list_ascii_of_string app] in T.
  destruct Hs as [-> | ->]; cbn [app].
  - rewrite match_maybe_skip by reflexivity. rewrite T. same_marks.
  - erewrite match_maybe_take; [|reflexivity|apply T]. same_marks.
Qed.

Lemma nested_groups (pre alt inner outer post : str) :
  let m := {| subject := pre ++ nested_markup alt inner outer ++ post;
              span_start := length pre;
              span_end := length pre + length (nested_markup alt inner outer);
              boundaries :=
                [(End 2, length pre + 1 + length (image_markup alt inner) + 2 + length outer);
                 (Start 2, length pre + 1 + length (image_markup alt inner) + 2);
                 (End 1, length pre + 1 + length (image_markup alt inner));
                 (Start 1, length pre + 1)] |} in
  group m 0 = nested_markup alt inner outer
  /\ group m 1 = image_markup alt inner /\ group m 2 = outer.
Proof.
  cbv zeta. unfold group.
  cbn [subject span_start span_end boundaries boundary mark_eqb Nat.eqb].
  split; [|split].
  - apply slice_mid; reflexivity.
  - replace (pre ++ nested_markup alt inner outer ++ post)
      with ((pre ++ lit "[") ++ image_markup alt inner ++ (lit "](" ++ outer ++ lit ")" ++ post))
      by (unfold nested_markup; rewrite <- !app_assoc; reflexivity).
    apply slice_mid; [rewrite length_app; reflexivity | reflexivity].
  - replace (pre ++ nested_markup alt inner outer ++ post)
      with ((pre ++ lit "[" ++ image_markup alt inner ++ lit "](") ++ outer ++ (lit ")" ++ post))
      by (unfold nested_markup; rewrite <- !app_assoc; reflexivity).
    apply slice_mid; [rewrite !length_app; simpl; lia | reflexivity].
Qed.

(** The alt text [replace_nested_image] reads from the inner reference. *)
Lemma alt_search (alt inner : str) :
  Forall text_char alt ->
  match search alt_re (image_markup alt inner) with
  | Some alt_match => group alt_match 1
  | None => []
  end = alt.
Proof.
  intros Ha. unfold search, alt_re, image_markup.
  cbn [lits map lit list_ascii_of_string app search_scan]. right_assoc.
  assert (M : match_at [One (Chr "!"); One (Chr "["); Open 1; Lazy Dot; Close 1; One (Chr "]")]
                [] 0 None
                ("!"%char :: "["%char :: alt ++ "]"%char :: "("%char :: inner ++ [")"%char])
              = Some (2 + length alt + 1, [(End 1, 2 + length alt); (Start 1, 2)])).
  { rewrite !match_one, match_open. rewrite match_lazy.
    rewrite (lazy_loop_skip Dot _ "]"%char alt);
      [|intros j p d u Hd; rewrite match_close; apply match_one_other, Hd
       |apply dot_text, Ha].
    apply lazy_loop_here. rewrite match_close, match_one. cbn [match_at].
    apply f_equal, f_equal2; [lia | reflexivity]. }
  destruct alt as [|a0 alt'].
  - reflexivity.
  - cbn [app] in M |- *. cbn [search_scan]. rewrite M.
    unfold group. cbn [boundaries boundary mark_eqb Nat.eqb subject].
    change ("!"%char :: "["%char :: a0 :: alt' ++ "]"%char :: "("%char :: inner ++ [")"%char])
      with (lit "![" ++ (a0 :: alt') ++ (lit "](" ++ inner ++ lit ")")).
    apply slice_mid; reflexivity.
Qed.


Lemma replace_nested_at (a alt inner outer post : str) (w : world) :
  Forall text_char alt -> remote outer = true ->
  replace_nested_image
    {| subject := a ++ nested_markup alt inner outer ++ post;
       span_start := length a;
       span_end := length a + length (nested_markup alt inner outer);
       boundaries :=
         [(End 2, length a + 1 + length (image_markup alt inner) + 2 + length outer);
          (Start 2, length a + 1 + length (image_markup alt inner) + 2);
          (End 1, length a + 1 + length (image_markup alt inner));
          (Start 1, length a + 1)] |} w
  = (render (fst (unwrap (Nested alt inner outer) w)),
     snd (unwrap (Nested alt inner outer) w)).
Proof.
  intros Ha Hr.
  destruct (nested_groups a alt inner outer post) as (G0 & G1 & G2). cbv zeta in G0, G1, G2.
  unfold replace_nested_image. rewrite G0, G1, G2, (alt_search alt inner Ha).
  rewrite (remote_http outer Hr). cbn [unwrap]. apply fetched_render.
Qed.

(** No nested form starts in an image reference or in a hyperlink. *)
Lemma nested_none_in_reference (text url rest : str) (i : nat) (prev : option ascii) :
  Forall text_char text -> Forall target_char url ->
  no_match_in nested_re i prev ("["%char :: text ++ lit "](" ++ url ++ lit ")") rest.
Proof.
  intros Ht Hu. cbn [no_match_in app]. split.
  - apply nested_second. rewrite <- !app_assoc. apply body_not_nested, Ht.
  - apply nested_no_match_in, text_target_no_bracket; assumption.
Qed.

(** The pass over the nested forms, part by part. *)
Lemma nested_pass_pieces (ps : list piece) :
  forall a w,
    Forall piece_ok ps ->
    sub_scan nested_re replace_nested_image (a ++ render_line ps) (length a)
      (prev_after None a) 0 (render_line ps) w
    = (let (ps', w') := each unwrap ps w in (render_line ps', w')).
Proof.
  induction ps as [|p ps IH]; intros a w Hok; [reflexivity|].
  inversion Hok as [|? ? Hp Hok']; subst.
  rewrite render_line_cons.
  assert (Next : forall w1,
             sub_scan nested_re replace_nested_image (a ++ render p ++ render_line ps)
               (length a + length (render p)) (prev_after (prev_after None a) (render p)) 0
               (render_line ps) w1
             = (let (ps', w') := each unwrap ps w1 in (render_line ps', w'))).
  { intros w1. rewrite app_assoc3, <- length_app, <- prev_after_app.
    apply IH; assumption. }
  destruct p as [x|alt url|text url|alt inner outer]; cbn [render] in *.
  - rewrite sub_scan_no_match by (apply nested_no_match_in, Hp).
    rewrite Next. cbn [each unwrap]. destruct (each unwrap ps w) as [ps' w']. reflexivity.
  - destruct Hp as [Ha Hu]. rewrite sub_scan_no_match.
    + rewrite Next. cbn [each unwrap]. destruct (each unwrap ps w) as [ps' w'].
      reflexivity.
    + unfold image_markup. right_assoc. cbn [no_match_in app]. split.
      * apply nested_first. discriminate.
      * apply (nested_none_in_reference alt url); assumption.
  - destruct Hp as [Ht Hu]. rewrite sub_scan_no_match.
    + rewrite Next. cbn [each unwrap]. destruct (each unwrap ps w) as [ps' w'].
      reflexivity.
    + unfold link_markup. right_assoc.
      apply (nested_none_in_reference text url); assumption.
  - destruct Hp as (Ha & Hi & Ho & Hr).
    rewrite (sub_scan_match nested_re replace_nested_image _ (nested_markup alt inner outer)
               (render_line ps) _ (length a) (prev_after None a) w ltac:(discriminate)
               (nested_match alt inner outer (render_line ps) (length a) (prev_after None a)
                  Ha Hi Ho Hr)).
    rewrite (replace_nested_at a alt inner outer (render_line ps) w Ha Hr). cbn [each].
    destruct (unwrap (Nested alt inner outer) w) as [p' w1]. cbn [fst snd].
    rewrite Next. destruct (each unwrap ps w1) as [ps' w']. reflexivity.
Qed.

(** What the rules keep: the characters of the parts, the texts, and with
    them the place of the hyperlinks after [!]. *)
Lemma unwrap_ok (p : piece) (w : world) :
  piece_ok p ->
  piece_ok (fst (unwrap p w)) /\ plain (fst (unwrap p w))
  /\ label (fst (unwrap p w)) = label p
  /\ (forall text url, fst (unwrap p w) = Link text url -> p = Link text url).
Proof.
  intros H. destruct p as [x|alt url|text url|alt inner outer]; cbn [unwrap fst];
    try (split; [exact H | split; [exact I | split; [reflexivity | auto]]]).
  destruct H as (Ha & _ & Ho & _).
  split; [apply fetched_ok; assumption|]. split; [|split; [apply fetched_label|]].
  - destruct (fetched_shape alt outer w) as [(n & ->) | ->]; exact I.
  - intros text url E.
    destruct (fetched_shape alt outer w) as [(n & K) | K]; rewrite K in E; discriminate.
Qed.

Lemma localize_ok (p : piece) (w : world) :
  piece_ok p -> plain p ->
  piece_ok (fst (localize p w)) /\ plain (fst (localize p w))
  /\ label (fst (localize p w)) = label p
  /\ (forall text url, fst (localize p w) = Link text url -> p = Link text url).
Proof.
  intros H Hp. destruct p as [x|alt url|text url|alt inner outer]; cbn [localize fst];
    try (split; [exact H | split; [exact I | split; [reflexivity | auto]]]);
    [|contradiction].
  destruct (startswith url "http");
    [|split; [exact H | split; [exact I | split; [reflexivity | auto]]]].
  destruct H as (Ha & Hu).
  split; [apply fetched_ok; assumption|]. split; [|split; [apply fetched_label|]].
  - destruct (fetched_shape alt url w) as [(n & ->) | ->]; exact I.
  - intros text url' E.
    destruct (fetched_shape alt url w) as [(n & K) | K]; rewrite K in E; discriminate.
Qed.

Lemma each_keeps (f : piece -> world -> piece * world) (Q : piece -> Prop) (ps : list piece) :
  (forall p w, piece_ok p -> Q p ->
     piece_ok (fst (f p w)) /\ plain (fst (f p w))
     /\ label (fst (f p w)) = label p
     /\ (forall text url, fst (f p w) = Link text url -> p = Link text url)) ->
  forall w b,
    Forall piece_ok ps -> Forall Q ps -> links_clear b ps = true ->
    Forall piece_ok (fst (each f ps w)) /\ Forall plain (fst (each f ps w))
    /\ links_clear b (fst (each f ps w)) = true.
Proof.
  intros Hf. induction ps as [|p ps IH]; intros w b Hok HQ Hc; cbn [each fst].
  - repeat split; constructor.
  - inversion Hok as [|? ? Hp Hok']; subst. inversion HQ as [|? ? Hq HQ']; subst.
    cbn [links_clear] in Hc. apply andb_prop in Hc as [Hc1 Hc2].
    destruct (Hf p w Hp Hq) as (F1 & F2 & F3 & F4).
    destruct (f p w) as [p' w1]. cbn [fst] in *.
    destruct (IH w1 (bang_after b (label p)) Hok' HQ' Hc2) as (I1 & I2 & I3).
    destruct (each f ps w1) as [ps' w2]. cbn [fst] in *.
    split; [constructor; assumption|]. split; [constructor; assumption|].
    cbn [links_clear]. rewrite F3, I3, andb_true_r.
    destruct p' as [x|alt url|text url|alt inner outer]; try reflexivity.
    rewrite (F4 text url eq_refl) in Hc1. exact Hc1.
Qed.

(** A line made of parts is cleaned part by part. *)
Lemma clean_line_pieces (ps : list piece) (w : world) :
  well_formed ps ->
  clean_line (render_line ps) w
  = (render_line (fst (clean_pieces ps w)), snd (clean_pieces ps w)).
Proof.
  intros [Hok Hc]. unfold clean_line, clean_pieces, sub.
  assert (P1 := nested_pass_pieces ps [] w Hok). cbn [app length prev_after fold_left] in P1.
  rewrite P1.
  destruct (each_keeps unwrap (fun _ => True) ps
              (fun p w' H _ => unwrap_ok p w' H) w false Hok
              ltac:(apply Forall_forall; intros; exact I) Hc) as (K1 & K2 & K3).
  destruct (each unwrap ps w) as [ps1 w1]. cbn [fst] in K1, K2, K3.
  assert (P2 := image_pass_pieces ps1 [] false w1 K1 K2 K3).
  cbn [app length prev_after fold_left] in P2. rewrite P2.
  destruct (each_keeps localize plain ps1 localize_ok w1 false K1 K2 K3) as (L1 & L2 & L3).
  destruct (each localize ps1 w1) as [ps2 w2]. cbn [fst] in L1, L2, L3.
  assert (P3 := link_pass_pieces ps2 [] false w2 ltac:(discriminate) L1 L2 L3).
  cbn [app length prev_after fold_left] in P3. rewrite P3.
  destruct (each unlink ps2 w2) as [ps3 w3]. reflexivity.
Qed.

End PieceFacts.

Module OutcomeFacts.
Import Regex Cleaner FetcherFacts LineFacts PieceFacts WorldGrowth.

Lemma fetched_grows (text url : str) (w : world) : grows w (snd (fetched text url w)).
Proof.
  unfold fetched. assert (G := download_image_grows url w).
  destruct (download_image url w) as [[name|] w']; exact G.
Qed.

Lemma each_related (f : piece -> world -> piece * world) (R : piece -> piece -> Prop)
    (w0 : world) :
  (forall p w, grows w0 w -> R p (fst (f p w)) /\ grows w (snd (f p w))) ->
  forall ps w,
    grows w0 w ->
    Forall2 R ps (fst (each f ps w)) /\ grows w0 (snd (each f ps w)).
Proof.
  intros Hf. induction ps as [|p ps IH]; intros w G; cbn [each].
  - split; [constructor | exact G].
  - destruct (Hf p w G) as [R1 G1]. destruct (f p w) as [p' w1]. cbn [fst snd] in *.
    destruct (IH w1 (grows_trans _ _ _ G G1)) as [R2 G2].
    destruct (each f ps w1) as [ps' w2]. cbn [fst snd] in *.
    split; [constructor; assumption | exact G2].
Qed.

Lemma fetched_step (w0 w : world) (text url : str) :
  grows w0 w ->
  fetched_later w0 text url (fst (fetched text url w)) /\ grows w (snd (fetched text url w)).
Proof. intros G. split; [exists w; split; [exact G | reflexivity] | apply fetched_grows]. Qed.

Lemma unwrap_step (w0 : world) (p : piece) (w : world) :
  grows w0 w -> unwrapped w0 p (fst (unwrap p w)) /\ grows w (snd (unwrap p w)).
Proof.
  intros G. destruct p as [x|alt url|text url|alt inner outer]; cbn [unwrap unwrapped fst snd];
    try (split; [reflexivity | apply grows_refl]).
  apply fetched_step, G.
Qed.

Lemma localize_step (w0 : world) (p : piece) (w : world) :
  grows w0 w -> localized w0 p (fst (localize p w)) /\ grows w (snd (localize p w)).
Proof.
  intros G. destruct p as [x|alt url|text url|alt inner outer]; cbn [localize localized fst snd];
    try (split; [reflexivity | apply grows_refl]).
  destruct (startswith url "http"); [apply fetched_step, G|].
  split; [reflexivity | apply grows_refl].
Qed.

Lemma unlink_step (w0 : world) (p : piece) (w : world) :
  grows w0 w -> unlinked w0 p (fst (unlink p w)) /\ grows w (snd (unlink p w)).
Proof.
  intros G. destruct p as [x|alt url|text url|alt inner outer]; cbn [unlink unlinked fst snd];
    try (split; [reflexivity | apply grows_refl]).
  destruct (startswith url "#"); [split; [reflexivity | apply grows_refl]|].
  destruct (image_target url); [apply fetched_step, G|].
  split; [reflexivity | apply grows_refl].
Qed.

Lemma Forall2_chain (R1 R2 R3 R : piece -> piece -> Prop) :
  (forall a b c d, R1 a b -> R2 b c -> R3 c d -> R a d) ->
  forall l1 l2 l3 l4,
    Forall2 R1 l1 l2 -> Forall2 R2 l2 l3 -> Forall2 R3 l3 l4 -> Forall2 R l1 l4.
Proof.
  intros H l1 l2 l3 l4 F1. revert l3 l4.
  induction F1 as [|a b l1 l2 Hab _ IH]; intros l3 l4 F2 F3.
  - inversion F2; subst. inversion F3; subst. constructor.
  - inversion F2 as [|? c ? l3' Hbc F2']; subst.
    inversion F3 as [|? d ? l4' Hcd F3']; subst.
    constructor; [eapply H; eauto | apply IH with (l3 := l3'); assumption].
Qed.

Lemma becomes_chain (w : world) (a b c d : piece) :
  unwrapped w a b -> localized w b c -> unlinked w c d -> becomes w a d.
Proof.
  intros U L K.
  destruct a as [x|alt url|text url|alt inner outer]; cbn [unwrapped becomes] in *.
  - subst b. cbn in L. subst c. cbn in K. exact K.
  - subst b. cbn [localized] in L. destruct (startswith url "http").
    + destruct L as (w' & G & ->).
      destruct (fetched_shape alt url w') as [(n & E) | E]; rewrite E in K;
        cbn in K; subst d; exists w'; (split; [exact G | symmetry; exact E]).
    + subst c. cbn in K. exact K.
  - subst b. cbn in L. subst c. exact K.
  - destruct U as (w' & G & ->).
    destruct (fetched_shape alt outer w') as [(n & E) | E]; rewrite E in L;
      cbn in L; subst c; cbn in K; subst d; exists w'; (split; [exact G | symmetry; exact E]).
Qed.

(** Each part of a cleaned line is the outcome of the part it comes
    from. *)
Lemma clean_pieces_becomes (ps : list piece) (w : world) :
  Forall2 (becomes w) ps (fst (clean_pieces ps w)).
Proof.
  unfold clean_pieces.
  destruct (each_related unwrap (unwrapped w) w (unwrap_step w) ps w (grows_refl w)) as [F1 G1].
  destruct (each unwrap ps w) as [ps1 w1]. cbn [fst snd] in *.
  destruct (each_related localize (localized w) w (localize_step w) ps1 w1 G1) as [F2 G2].
  destruct (each localize ps1 w1) as [ps2 w2]. cbn [fst snd] in *.
  destruct (each_related unlink (unlinked w) w (unlink_step w) ps2 w2 G2) as [F3 _].
  exact (Forall2_chain _ _ _ _ (becomes_chain w) _ _ _ _ F1 F2 F3).
Qed.


Lemma Forall2_right (R : piece -> piece -> Prop) (l l' : list piece) :
  Forall2 R l l' -> Forall (fun q => exists p, In p l /\ R p q) l'.
Proof.
  induction 1 as [|p q l l' H _ IH]; constructor.
  - exists p. split; [left; reflexivity | exact H].
  - eapply Forall_impl; [|exact IH]. intros q' (p' & I & K). exists p'.
    split; [right; exact I | exact K].
Qed.

Lemma fetched_settled (ps : list piece) (text url : str) (w : world) :
  settled ps (fst (fetched text url w)).
Proof.
  destruct (fetched_shape text url w) as [(n & ->) | ->]; cbn [settled];
    [right; reflexivity | exact I].
Qed.

(** Every image reference of a cleaned line is a reference of the line
    that was kept or has its target under [images/], and every hyperlink
    left points into the document. *)
Lemma clean_pieces_settled (ps : list piece) (w : world) :
  Forall (settled ps) (fst (clean_pieces ps w)).
Proof.
  eapply Forall_impl; [|exact (Forall2_right _ _ _ (clean_pieces_becomes ps w))].
  intros q (p & Hin & B).
  destruct p as [x|alt url|text url|alt inner outer]; cbn [becomes] in B.
  - subst q. exact I.
  - destruct (startswith url "http") eqn:E.
    + destruct B as (w' & _ & ->). apply fetched_settled.
    + subst q. left. split; [exact Hin | exact E].
  - destruct (startswith url "#") eqn:E; [subst q; exact E|].
    destruct (image_target url).
    + destruct B as (w' & _ & ->). apply fetched_settled.
    + subst q. exact I.
  - destruct B as (w' & _ & ->). apply fetched_settled.
Qed.

Lemma unlink_ok (p : piece) (w : world) :
  piece_ok p -> plain p ->
  piece_ok (fst (unlink p w)) /\ plain (fst (unlink p w))
  /\ label (fst (unlink p w)) = label p
  /\ (forall text url, fst (unlink p w) = Link text url -> p = Link text url).
Proof.
  intros H Hp. destruct p as [x|alt url|text url|alt inner outer]; cbn [unlink fst];
    try (split; [exact H | split; [exact I | split; [reflexivity | auto]]]);
    [|contradiction].
  destruct (startswith url "#");
    [split; [exact H | split; [exact I | split; [reflexivity | auto]]]|].
  destruct H as (Ht & Hu). destruct (image_target url).
  - split; [apply fetched_ok; assumption|]. split; [|split; [apply fetched_label|]].
    + destruct (fetched_shape text url w) as [(n & ->) | ->]; exact I.
    + intros text' url' E.
      destruct (fetched_shape text url w) as [(n & K) | K]; rewrite K in E; discriminate.
  - cbn [fst]. split; [apply text_no_bracket, Ht|].
    split; [exact I | split; [reflexivity | discriminate]].
Qed.

(** A cleaned line is made of parts again. *)
Lemma clean_pieces_ok (ps : list piece) (w : world) :
  well_formed ps -> well_formed (fst (clean_pieces ps w)).
Proof.
  intros [Hok Hc]. unfold clean_pieces.
  destruct (each_keeps unwrap (fun _ => True) ps
              (fun p w' H _ => unwrap_ok p w' H) w false Hok
              ltac:(apply Forall_forall; intros; exact I) Hc) as (K1 & K2 & K3).
  destruct (each unwrap ps w) as [ps1 w1]. cbn [fst] in K1, K2, K3.
  destruct (each_keeps localize plain ps1 localize_ok w1 false K1 K2 K3) as (L1 & L2 & L3).
  destruct (each localize ps1 w1) as [ps2 w2]. cbn [fst] in L1, L2, L3.
  destruct (each_keeps unlink plain ps2 unlink_ok w2 false L1 L2 L3) as (M1 & M2 & M3).
  split; assumption.
Qed.

Lemma same_store_refl (w : world) : same_store w w.
Proof. repeat split. Qed.

(** A refused download answers [None] and leaves the images directory as
    it is. *)
Lemma refused_download (w0 w : world) (url : str) :
  refused w0 url -> same_store w0 w ->
  fst (download_image url w) = None /\ same_store w0 (snd (download_image url w)).
Proof.
  intros R (S1 & S2 & S3).
  assert (N : local_name w url = local_name w0 url)
    by (unfold local_name; rewrite S3; reflexivity).
  unfold download_image. rewrite N.
  destruct R as [R | (name & R1 & R2 & R3)]; rewrite ?R, ?R1.
  - split; [reflexivity | repeat split; assumption].
  - assert (E : file_exists w name = false) by (unfold file_exists; rewrite S1; exact R2).
    rewrite E, S2, R3. cbn [negb fst snd]. split; [reflexivity|].
    repeat split; assumption.
Qed.

Lemma refused_fetched (w0 w : world) (text url : str) :
  refused w0 url -> same_store w0 w ->
  fst (fetched text url w) = Text text /\ same_store w0 (snd (fetched text url w)).
Proof.
  intros R S. destruct (refused_download w0 w url R S) as [D1 D2]. unfold fetched.
  destruct (download_image url w) as [[n|] w']; cbn [fst snd] in *;
    [discriminate | split; [reflexivity | exact D2]].
Qed.

Lemma each_failed (f : piece -> world -> piece * world) (g : piece -> piece) (w0 : world) :
  (forall p w, doomed w0 p -> same_store w0 w ->
     fst (f p w) = g p /\ same_store w0 (snd (f p w))) ->
  forall ps w,
    Forall (doomed w0) ps -> same_store w0 w ->
    fst (each f ps w) = map g ps /\ same_store w0 (snd (each f ps w)).
Proof.
  intros Hf. induction ps as [|p ps IH]; intros w D S; cbn [each map].
  - split; [reflexivity | exact S].
  - inversion D as [|? ? D1 D2]; subst.
    destruct (Hf p w D1 S) as [E1 S1]. destruct (f p w) as [p' w1]. cbn [fst snd] in *.
    destruct (IH w1 D2 S1) as [E2 S2]. destruct (each f ps w1) as [ps' w2].
    cbn [fst snd] in *. subst. split; [reflexivity | exact S2].
Qed.

Lemma doomed_map (g : piece -> piece) (w0 : world) (ps : list piece) :
  (forall p, doomed w0 p -> doomed w0 (g p)) ->
  Forall (doomed w0) ps -> Forall (doomed w0) (map g ps).
Proof.
  intros H F. induction F; cbn [map]; constructor; auto.
Qed.

(** When every download of a line is refused, each reference that asks
    for one gives way to its text. *)
Lemma clean_pieces_refused (ps : list piece) (w : world) :
  Forall (doomed w) ps ->
  fst (clean_pieces ps w) = map degraded ps /\ same_store w (snd (clean_pieces ps w)).
Proof.
  intros D. unfold clean_pieces.
  destruct (each_failed unwrap unwrap_failed w) with (ps := ps) (w := w) as [E1 S1];
    [|exact D | apply same_store_refl|].
  { intros p w' Dp S. destruct p as [x|alt url|text url|alt inner outer];
      cbn [unwrap unwrap_failed fst snd]; try (split; [reflexivity | exact S]).
    apply refused_fetched; [exact Dp | exact S]. }
  destruct (each unwrap ps w) as [ps1 w1]. cbn [fst snd] in *. subst ps1.
  destruct (each_failed localize localize_failed w) with (ps := map unwrap_failed ps) (w := w1)
    as [E2 S2]; [| |exact S1|].
  { intros p w' Dp S. destruct p as [x|alt url|text url|alt inner outer];
      cbn [localize localize_failed fst snd]; try (split; [reflexivity | exact S]).
    destruct (startswith url "http") eqn:E; [|split; [reflexivity | exact S]].
    apply refused_fetched; [exact (Dp E) | exact S]. }
  { apply doomed_map; [|exact D]. intros [x|alt url|text url|alt inner outer] Dp;
      cbn [unwrap_failed doomed]; auto. }
  destruct (each localize (map unwrap_failed ps) w1) as [ps2 w2]. cbn [fst snd] in *.
  subst ps2.
  destruct (each_failed unlink unlink_failed w)
    with (ps := map localize_failed (map unwrap_failed ps)) (w := w2) as [E3 S3];
    [| |exact S2|].
  { intros p w' Dp S. destruct p as [x|alt url|text url|alt inner outer];
      cbn [unlink unlink_failed fst snd]; try (split; [reflexivity | exact S]).
    destruct (startswith url "#") eqn:E; [split; [reflexivity | exact S]|].
    destruct (image_target url) eqn:T; [|split; [reflexivity | exact S]].
    apply refused_fetched; [exact (Dp E T) | exact S]. }
  { apply doomed_map; [|apply doomed_map; [|exact D]].
    - intros [x|alt url|text url|alt inner outer] Dp; cbn [localize_failed doomed]; auto.
      destruct (startswith url "http"); [exact I | exact Dp].
    - intros [x|alt url|text url|alt inner outer] Dp; cbn [unwrap_failed doomed]; auto. }
  split; [|exact S3]. rewrite E3, !map_map. apply map_ext.
  intros [x|alt url|text url|alt inner outer];
    cbn [unwrap_failed localize_failed unlink_failed degraded]; try reflexivity.
  destruct (startswith url "http"); reflexivity.
Qed.

End OutcomeFacts.

(** ** The claims on images and links *)

Module FetcherClaims.
Import Regex Cleaner FetcherFacts LineFacts CleanLine.

Lemma str_eqb_refl (s : str) : str_eqb s s = true.
Proof. apply str_eqb_eq. reflexivity. Qed.

(** C2: the local file name is a function of the URL alone: [image_], the
    first 12 hexadecimal digits of the MD5 digest of the URL, and the
    extension of the URL's path, or [.jpg] when the path has none.  Hence,
    when the image is fetched or already there, the line
    [![cat](http://x.com/a.png)] is cleaned to
    [![cat](images/image_427559590272.png)], [427559590272] being the first
    12 digits of the digest of that URL. *)
Theorem local_name_of_url :
  (forall w url name,
      local_name w url = Some name ->
      exists path,
        Url.urlparse_path (bracketed_ok w) url = Some path
        /\ name = lit "image_" ++ firstn 12 (MD5.hexdigest url)
                  ++ (if truthy (Url.splitext_ext path)
                      then Url.splitext_ext path else lit ".jpg")
        /\ length (firstn 12 (MD5.hexdigest url)) = 12
        /\ Forall is_hex (firstn 12 (MD5.hexdigest url)))
  /\ (forall w w' url name name',
         local_name w url = Some name -> local_name w' url = Some name' ->
         name = name')
  /\ (forall w w' url name,
         download_image url w = (Some name, w') -> local_name w url = Some name)
  /\ (forall w,
         got (fst (download_image "http://x.com/a.png" w)) = true ->
         fst (clean_line "![cat](http://x.com/a.png)" w)
         = lit "![cat](images/image_427559590272.png)"
         /\ firstn 12 (MD5.hexdigest "http://x.com/a.png") = lit "427559590272").
Proof.
  split; [|split; [|split]].
  - intros w url name H. unfold local_name in H.
    destruct (Url.urlparse_path (bracketed_ok w) url) as [path|]; [|discriminate].
    exists path. split; [reflexivity|]. split.
    + cbv zeta in H.
      match type of H with Some ?n = _ => assert (K : name = n) by congruence end.
      rewrite K. destruct (truthy (Url.splitext_ext path)); reflexivity.
    + split; [apply url_hash_length | apply url_hash_is_hex].
  - intros w w' url name name' H H'. unfold local_name in H, H'.
    destruct (Url.urlparse_path (bracketed_ok w) url) as [p|] eqn:E; [|discriminate].
    destruct (Url.urlparse_path (bracketed_ok w') url) as [p'|] eqn:E'; [|discriminate].
    apply urlparse_path_any_verdict in E, E'. rewrite E in E'. injection E' as <-.
    cbv zeta in H, H'. congruence.
  - intros w w' url name. apply download_image_name.
  - intros w G. split; [|vm_compute; reflexivity].
    assert (E := clean_line_image [] (lit "cat") (lit "http://x.com/a.png") [] w).
    cbn [app] in E. rewrite app_nil_r in E.
    change (image_markup (lit "cat") (lit "http://x.com/a.png"))
      with (lit "![cat](http://x.com/a.png)") in E.
    rewrite E; try (repeat constructor; discriminate).
    change (startswith (lit "http://x.com/a.png") (lit "http")) with true.
    cbn [negb].
    destruct (download_image (lit "http://x.com/a.png") w) as [[name|] w'] eqn:D;
      [|discriminate].
    apply download_image_name in D.
    assert (N : local_name w (lit "http://x.com/a.png")
                = Some (lit "image_427559590272.png")) by (vm_compute; reflexivity).
    rewrite N in D. injection D as <-. reflexivity.
Qed.

Lemma local_name_of_url_witness :
  got (fst (download_image "http://x.com/a.png" online)) = true
  /\ fst (clean_line "![cat](http://x.com/a.png)" online)
     = lit "![cat](images/image_427559590272.png)".
Proof.
  split; [vm_compute; reflexivity|].
  apply (proj2 (proj2 (proj2 local_name_of_url)) online).
  vm_compute. reflexivity.
Defined.

Lemma file_exists_added (w : world) (url name : str) :
  file_exists (with_request w url [name]) name = true.
Proof. unfold file_exists. simpl. rewrite str_eqb_refl. reflexivity. Qed.

Lemma local_name_with_request (w : world) (url u : str) (created : list str) :
  local_name (with_request w u created) url = local_name w url.
Proof. reflexivity. Qed.

(** C3: when a file with the computed name is in the images directory,
    [download_image] answers that name and the world is unchanged: nothing
    is asked from the network.  So after a run that answered a name, a
    second run for the same URL changes nothing, and the two runs together
    made one request when the file was not there, none when it was. *)
Theorem download_image_cached :
  (forall url w name,
      local_name w url = Some name -> file_exists w name = true ->
      download_image url w = (Some name, w))
  /\ (forall url w name w1,
         download_image url w = (Some name, w1) ->
         download_image url w1 = (Some name, w1)
         /\ (file_exists w name = false -> requests w1 = url :: requests w)
         /\ (file_exists w name = true -> requests w1 = requests w)).
Proof.
  assert (A : forall url w name,
             local_name w url = Some name -> file_exists w name = true ->
             download_image url w = (Some name, w)).
  { intros url w name H E. unfold download_image. rewrite H, E. reflexivity. }
  split; [exact A|].
  intros url w name w1 D.
  assert (N := download_image_name _ _ _ _ D).
  unfold download_image in D. rewrite N in D.
  destruct (file_exists w name) eqn:E; cbn [negb] in D.
  - injection D as <-. split; [apply A; assumption|]. split; [discriminate | reflexivity].
  - destruct (network w (requests w) url name); try discriminate.
    injection D as <-. split; [|split; [reflexivity | discriminate]].
    apply A; [exact N | apply file_exists_added].
Qed.

Lemma download_image_cached_witness :
  let url : str := "http://x.com/a.png" in
  download_image url online
  = (Some (lit "image_427559590272.png"), with_request online url [lit "image_427559590272.png"])
  /\ download_image url (with_request online url [lit "image_427559590272.png"])
     = (Some (lit "image_427559590272.png"),
        with_request online url [lit "image_427559590272.png"]).
Proof.
  assert (D : download_image (lit "http://x.com/a.png") online
              = (Some (lit "image_427559590272.png"),
                 with_request online (lit "http://x.com/a.png")
                   [lit "image_427559590272.png"]))
    by (vm_compute; reflexivity).
  split; [exact D|].
  exact (proj1 (proj2 download_image_cached _ _ _ _ D)).
Defined.

End FetcherClaims.

Module CleanerClaims.
Import Regex Cleaner PatternFacts FetcherFacts LineFacts PieceFacts OutcomeFacts.

(** C1, as stated, fails.  An image reference with a local target outside
    [images/] is left as it is.  With a [[] earlier on the line, as in a
    task list, the reference is taken for the end of a hyperlink and is cut
    to pieces although its image was fetched.  When a reference whose alt
    text ends with [!] gives way to that text, the hyperlink that follows
    it is left as a reference to a remote image. *)
Lemma local_reference_kept :
  (exists alt url,
      fst (clean_content "![a](pic.png)" "Title" online)
      = image_markup alt url ++ [newline]
      /\ startswith url "images/" = false)
  /\ fst (clean_line "- [ ] buy ![a](http://x.com/a.png)" online) = lit "-  ] buy ![a"
  /\ fst (clean_line "![a!](http://x.com/1.png)[b](http://c.d/e.png)" offline)
     = lit "a" ++ image_markup "b" "http://c.d/e.png".
Proof.
  split; [|split; vm_compute; reflexivity].
  exists (lit "a"), (lit "pic.png"). split; vm_compute; reflexivity.
Qed.

(** C1, amended: a line made of texts without [[], image references,
    hyperlinks and nested references, where no hyperlink comes right after
    [!], is cleaned part by part.  A nested reference is fetched from its
    outer URL; an image reference whose URL starts with [http] is fetched,
    and one whose URL does not is kept as written; a fetched reference
    becomes [![alt](images/<local name>)] when the download answers a name
    and its alt text when the download fails.  The cleaned line is made of
    such parts again, and each of its image references is a reference of
    the line whose URL does not start with [http] or has its target under
    [images/]. *)
Theorem image_reference_cleaned (ps : list piece) (w : world) :
  well_formed ps ->
  clean_line (render_line ps) w
  = (render_line (fst (clean_pieces ps w)), snd (clean_pieces ps w))
  /\ well_formed (fst (clean_pieces ps w))
  /\ Forall (settled ps) (fst (clean_pieces ps w)).
Proof.
  intros H. split; [apply clean_line_pieces, H|].
  split; [apply clean_pieces_ok, H | apply clean_pieces_settled].
Qed.

Lemma image_reference_cleaned_witness :
  let ps := [Image "a" "http://x/1.png"; Text " and "; Image "b" "pic.png"; Text " ";
             Nested "" "images/f.png" "https://u/p.png"] in
  well_formed ps
  /\ fst (clean_line "![a](http://x/1.png) and ![b](pic.png) [![](images/f.png)](https://u/p.png)"
            online)
     = lit "![a](images/image_94a63be3988c.png) and ![b](pic.png) ![](images/image_3da7f3b7b9ff.png)".
Proof.
  cbv zeta.
  assert (W : well_formed [Image "a" "http://x/1.png"; Text " and "; Image "b" "pic.png";
                           Text " "; Nested "" "images/f.png" "https://u/p.png"]).
  { split; [|reflexivity]. repeat constructor; discriminate. }
  split; [exact W|].
  change (lit "![a](http://x/1.png) and ![b](pic.png) [![](images/f.png)](https://u/p.png)")
    with (render_line [Image "a" "http://x/1.png"; Text " and "; Image "b" "pic.png";
                       Text " "; Nested "" "images/f.png" "https://u/p.png"]).
  rewrite (proj1 (image_reference_cleaned _ online W)). vm_compute. reflexivity.
Defined.

(** C4, as stated, fails.  The path of the target ends with [.png], yet
    the link is replaced by its text, because the target itself ends with
    the query.  A hyperlink inside the text of another is stripped and
    leaves the outer one standing; a target holding [)] is cut at it; and
    a hyperlink that comes to stand after [!] is left as it is. *)
Lemma link_with_query_stripped :
  (fst (clean_line "[pic](http://x.com/a.png?w=1)" online) = lit "pic"
   /\ Url.urlparse_path (fun _ => true) "http://x.com/a.png?w=1" = Some (lit "/a.png")
   /\ endswith (Url.lower "/a.png") ".png" = true)
  /\ fst (clean_line "[[x](u)](v)" online) = lit "[x](v)"
  /\ fst (clean_line "[a](http://e.com/x_(y))" online) = lit "a)"
  /\ fst (clean_line "![a!](http://x.com/1.png)[b](http://c.d)" offline)
     = lit "a!" ++ link_markup "b" "http://c.d".
Proof. repeat split; vm_compute; reflexivity. Qed.

(** C4, amended: in a line made of texts without [[], image references,
    hyperlinks and nested references, where no hyperlink comes right after
    [!], each hyperlink [[text](target)] is cleaned so: a target starting
    with [#] leaves the link as written; else a target that starts with
    [http] and itself ends with one of [.jpg .jpeg .png .gif .webp .svg],
    whatever the case, is fetched, and the link becomes the image reference
    [![text](images/<local name>)] when the download answers a name and its
    visible text when the download fails; else the link is replaced by its
    visible text.  The texts between the references stay as they are.
    [[click here](http://example.com)] is cleaned to [click here]. *)
Theorem link_cleaned (ps : list piece) (w : world) :
  well_formed ps ->
  clean_line (render_line ps) w
  = (render_line (fst (clean_pieces ps w)), snd (clean_pieces ps w))
  /\ Forall2 (becomes w) ps (fst (clean_pieces ps w))
  /\ clean_line "[click here](http://example.com)" w = (lit "click here", w).
Proof.
  intros H. split; [apply clean_line_pieces, H|]. split; [apply clean_pieces_becomes|].
  - change (lit "[click here](http://example.com)")
      with (render_line [Link "click here" "http://example.com"]).
    rewrite clean_line_pieces; [reflexivity|].
    split; [|reflexivity]. repeat constructor; discriminate.
Qed.

Lemma link_cleaned_witness :
  let ps := [Text "Hello! "; Link "click" "http://e.com"; Text " "; Link "top" "#top";
             Text " "; Link "pic" "http://x.com/a.PNG"] in
  well_formed ps
  /\ fst (clean_line "Hello! [click](http://e.com) [top](#top) [pic](http://x.com/a.PNG)" online)
     = lit "Hello! click [top](#top) ![pic](images/image_3a0e00a27c47.PNG)"
  /\ Forall2 (becomes online) ps (fst (clean_pieces ps online)).
Proof.
  cbv zeta.
  assert (W : well_formed [Text "Hello! "; Link "click" "http://e.com"; Text " ";
                           Link "top" "#top"; Text " "; Link "pic" "http://x.com/a.PNG"]).
  { split; [|reflexivity]. repeat constructor; discriminate. }
  split; [exact W|].
  destruct (link_cleaned _ online W) as (E & B & _).
  split; [|exact B].
  change (lit "Hello! [click](http://e.com) [top](#top) [pic](http://x.com/a.PNG)")
    with (render_line [Text "Hello! "; Link "click" "http://e.com"; Text " ";
                       Link "top" "#top"; Text " "; Link "pic" "http://x.com/a.PNG"]).
  rewrite E. vm_compute. reflexivity.
Defined.

Lemma write_chapters_length (cp cs : str) (read : str -> str) (files : list (nat * str)) :
  forall w, length (fst (Book.write_chapters cp cs read files w)) = length files.
Proof.
  induction files as [|[n f] rest IH]; intros w; [reflexivity|].
  cbn [Book.write_chapters]. destruct (clean_content _ _ w) as [c w1].
  specialize (IH w1). destruct (Book.write_chapters cp cs read rest w1) as [cs' w2].
  simpl in *. rewrite IH. reflexivity.
Qed.

Lemma write_chapters_nth (cp cs : str) (read : str -> str) (files : list (nat * str)) :
  forall w k n f,
    nth_error files k = Some (n, f) ->
    nth_error (fst (Book.write_chapters cp cs read files w)) k
    = Some (Chapters.format_02d n ++ lit " - " ++ Normalizer.clean_filename f cp cs,
            fst (clean_content (read f)
                   (replace (Normalizer.clean_filename f cp cs) Normalizer.md [])
                   (snd (Book.write_chapters cp cs read (firstn k files) w)))).
Proof.
  induction files as [|[m g] rest IH]; intros w k n f H; [destruct k; discriminate|].
  destruct k as [|k].
  - injection H as -> ->. cbn [Book.write_chapters firstn snd].
    destruct (clean_content _ _ w) as [c w1].
    destruct (Book.write_chapters cp cs read rest w1) as [others w2]. reflexivity.
  - cbn [nth_error] in H. cbn [Book.write_chapters firstn].
    destruct (clean_content (read g) _ w) as [c w1].
    assert (K := IH w1 k n f H).
    destruct (Book.write_chapters cp cs read rest w1) as [others w2].
    destruct (Book.write_chapters cp cs read (firstn k rest) w1) as [o3 w3].
    cbn [fst snd nth_error] in *. exact K.
Qed.

Lemma enumerate_nth (files : list str) (k : nat) (f : str) :
  nth_error files k = Some f ->
  nth_error (Chapters.enumerate_from_1 files) k = Some (S k, f).
Proof.
  unfold Chapters.enumerate_from_1.
  assert (E : forall n, nth_error files k = Some f ->
              nth_error (combine (seq n (length files)) files) k = Some (n + k, f)).
  { revert k. induction files as [|x l IH]; intros k n H; destruct k as [|k]; simpl in *;
      try discriminate.
    - injection H as ->. rewrite Nat.add_0_r. reflexivity.
    - rewrite (IH k (S n) H). f_equal. f_equal. lia. }
  intros H. rewrite (E 1 H). reflexivity.
Qed.

(** C10, as stated, fails where the alt text holds square brackets: the
    download fails and the reference gives way to its alt text [[b]], which
    with the [(z)] that follows is then taken for a hyperlink and reduced
    to [b]; the cleaned line is not the line with the reference replaced by
    its alt text. *)
Lemma failed_download_alt_rewritten :
  fst (download_image "http://x.com/a.png" offline) = None
  /\ (exists m,
         search image_re "![[b]](http://x.com/a.png)(z)" = Some m
         /\ group m 0 = lit "![[b]](http://x.com/a.png)"
         /\ group m 1 = lit "[b]"
         /\ group m 2 = lit "http://x.com/a.png")
  /\ fst (clean_line "![[b]](http://x.com/a.png)(z)" offline) = lit "b"
  /\ lit "b" <> lit "[b]" ++ lit "(z)".
Proof.
  split; [vm_compute; reflexivity|].
  split; [|split; [vm_compute; reflexivity | discriminate]].
  eexists. split; [vm_compute; reflexivity|]. repeat split; vm_compute; reflexivity.
Qed.

(** C10, amended: a download that fails (the URL cannot be parsed, or the
    network or the disk fails) is answered by [None], not by an exception,
    and the reference that asked for it gives way to its text.  A line made
    of texts without [[], image references, hyperlinks and nested
    references, where no hyperlink comes right after [!], is cleaned part
    by part whatever the downloads answer; when all its downloads are
    refused, every reference that asks for one is replaced by its alt or
    visible text.  The loop over the lines goes on with the next line, and
    every markdown file of the book is written with its text cleaned in the
    world the files before it have left. *)
Theorem download_failure_degrades :
  (forall url w, local_name w url = None -> download_image url w = (None, w))
  /\ (forall url w name,
         local_name w url = Some name -> file_exists w name = false ->
         network w (requests w) url name <> Retrieved ->
         fst (download_image url w) = None)
  /\ (forall text url w,
         fst (download_image url w) = None ->
         fetched text url w = (Text text, snd (download_image url w)))
  /\ (forall ps w,
         well_formed ps ->
         clean_line (render_line ps) w
         = (render_line (fst (clean_pieces ps w)), snd (clean_pieces ps w)))
  /\ (forall ps w,
         well_formed ps -> Forall (doomed w) ps ->
         fst (clean_line (render_line ps) w) = render_line (map degraded ps))
  /\ (forall title ps rest found cleaned w,
         well_formed ps ->
         found = true \/ startswith (strip (render_line ps)) "# " = false ->
         cleaned <> [] \/ truthy (strip (render_line ps)) = true ->
         clean_loop title (render_line ps :: rest) found cleaned w
         = clean_loop title rest found
             (cleaned ++ [render_line (fst (clean_pieces ps w))])
             (snd (clean_pieces ps w)))
  /\ (forall walk read w k f,
         nth_error (Chapters.get_files_by_timestamp walk) k = Some f ->
         let files := Chapters.get_files_by_timestamp walk in
         let common_prefix := Normalizer.find_common_prefix files in
         let common_suffix := Normalizer.find_common_suffix files in
         let cleaned_name := Normalizer.clean_filename f common_prefix common_suffix in
         exists written w',
           Book.clean_markdown_files walk read w = (Some written, w')
           /\ length written = length files
           /\ nth_error written k
              = Some (Chapters.format_02d (S k) ++ lit " - " ++ cleaned_name,
                      fst (clean_content (read f) (replace cleaned_name Normalizer.md [])
                             (snd (Book.write_chapters common_prefix common_suffix read
                                     (firstn k (Chapters.enumerate_from_1 files)) w))))).
Proof.
  split; [|split; [|split; [|split; [|split; [|split]]]]].
  - intros url w H. unfold download_image. rewrite H. reflexivity.
  - intros url w name H E N. unfold download_image. rewrite H, E. cbn [negb].
    destruct (network w (requests w) url name); [congruence | reflexivity | reflexivity].
  - intros text url w H. unfold fetched.
    destruct (download_image url w) as [[n|] w']; [discriminate | reflexivity].
  - intros ps w H. apply clean_line_pieces, H.
  - intros ps w H D. rewrite (clean_line_pieces ps w H). cbn [fst].
    rewrite (proj1 (clean_pieces_refused ps w D)). reflexivity.
  - intros title ps rest found cleaned w H Hh Hb. cbn [clean_loop].
    assert (G1 : negb found && startswith (strip (render_line ps)) "# " = false).
    { destruct Hh as [-> | ->]; [reflexivity | apply andb_false_r]. }
    assert (G2 : negb (match cleaned with [] => false | _ => true end)
                 && negb (truthy (strip (render_line ps))) = false).
    { destruct Hb as [Hb | ->]; [|apply andb_false_r].
      destruct cleaned; [congruence | reflexivity]. }
    rewrite G1, G2, (clean_line_pieces ps w H). reflexivity.
  - intros walk read w k f H. cbv zeta. unfold Book.clean_markdown_files.
    remember (Chapters.get_files_by_timestamp walk) as files eqn:E.
    assert (N := write_chapters_nth (Normalizer.find_common_prefix files)
                   (Normalizer.find_common_suffix files) read
                   (Chapters.enumerate_from_1 files) w k (S k) f
                   (enumerate_nth files k f H)).
    assert (L := write_chapters_length (Normalizer.find_common_prefix files)
                   (Normalizer.find_common_suffix files) read
                   (Chapters.enumerate_from_1 files) w).
    assert (Len : length (Chapters.enumerate_from_1 files) = length files).
    { unfold Chapters.enumerate_from_1. rewrite length_combine, length_seq. lia. }
    destruct files as [|f0 fs]; [destruct k; discriminate|].
    destruct (Book.write_chapters _ _ read (Chapters.enumerate_from_1 (f0 :: fs)) w)
      as [written w'].
    exists written, w'. split; [reflexivity|]. split; [|exact N].
    cbn [fst] in L. rewrite L. exact Len.
Qed.

Lemma download_failure_degrades_witness :
  let ps := [Text "a "; Image "cat" "http://x.com/a.png"; Text " b ";
             Nested "" "images/f.png" "http://u/p.png"; Link "pic" "http://x.com/b.png"] in
  well_formed ps /\ Forall (doomed offline) ps
  /\ fst (clean_line
            "a ![cat](http://x.com/a.png) b [![](images/f.png)](http://u/p.png)[pic](http://x.com/b.png)"
            offline)
     = lit "a cat b pic".
Proof.
  cbv zeta.
  assert (W : well_formed [Text "a "; Image "cat" "http://x.com/a.png"; Text " b ";
                           Nested "" "images/f.png" "http://u/p.png";
                           Link "pic" "http://x.com/b.png"]).
  { split; [|reflexivity]. repeat constructor; discriminate. }
  assert (R : forall url name,
             local_name offline url = Some name -> refused offline url).
  { intros url name N. right. exists name. split; [exact N|].
    split; [reflexivity | intros reqs; reflexivity]. }
  assert (D : Forall (doomed offline)
                [Text "a "; Image "cat" "http://x.com/a.png"; Text " b ";
                 Nested "" "images/f.png" "http://u/p.png";
                 Link "pic" "http://x.com/b.png"]).
  { repeat (apply Forall_cons || apply Forall_nil); cbn [doomed]; try exact I; intros;
      eapply R; vm_compute; reflexivity. }
  split; [exact W|]. split; [exact D|].
  exact (proj1 (proj2 (proj2 (proj2 (proj2 download_failure_degrades)))) _ offline W D).
Defined.

End CleanerClaims.


(** ** The order of names *)

Module NameOrder.
Import Epub.

Lemma nat_of_ascii_inj (x y : ascii) : nat_of_ascii x = nat_of_ascii y -> x = y.
Proof.
  intros H. rewrite <- (ascii_nat_embedding x), <- (ascii_nat_embedding y), H. reflexivity.
Qed.

Lemma str_leb_refl (a : str) : str_leb a a = true.
Proof. induction a as [|x a IH]; simpl; [reflexivity|]. rewrite Ascii.eqb_refl. exact IH. Qed.

Lemma str_leb_total (a b : str) : str_leb a b = false -> str_leb b a = true.
Proof.
  revert b; induction a as [|x a IH]; intros [|y b] H; simpl in *; try congruence.
  rewrite Ascii.eqb_sym. destruct (Ascii.eqb_spec x y) as [->|N]; [apply IH, H|].
  apply Nat.ltb_ge in H. apply Nat.ltb_lt.
  assert (nat_of_ascii x <> nat_of_ascii y) by (intros E; apply N, nat_of_ascii_inj, E).
  lia.
Qed.

Lemma str_leb_trans (a b c : str) :
  str_leb a b = true -> str_leb b c = true -> str_leb a c = true.
Proof.
  revert b c; induction a as [|x a IH]; intros [|y b] [|z c] H1 H2; simpl in *;
    try congruence.
  destruct (Ascii.eqb_spec x y) as [->|N1].
  - destruct (Ascii.eqb_spec y z) as [->|N2]; [eapply IH; eauto | exact H2].
  - destruct (Ascii.eqb_spec y z) as [->|N2].
    + destruct (Ascii.eqb_spec x z); [congruence | exact H1].
    + apply Nat.ltb_lt in H1, H2.
      destruct (Ascii.eqb_spec x z) as [->|N3]; [lia | apply Nat.ltb_lt; lia].
Qed.

Lemma str_leb_antisym (a b : str) :
  str_leb a b = true -> str_leb b a = true -> a = b.
Proof.
  revert b; induction a as [|x a IH]; intros [|y b] H1 H2; simpl in *; try congruence.
  rewrite Ascii.eqb_sym in H2. destruct (Ascii.eqb_spec x y) as [->|N].
  - f_equal. apply IH; assumption.
  - apply Nat.ltb_lt in H1, H2. lia.
Qed.

Section Sorting.
Context {A : Type} (key : A -> str).

Lemma insert_by_perm (x : A) (l : list A) : Permutation (insert_by key x l) (x :: l).
Proof.
  induction l as [|y l IH]; simpl; [apply Permutation_refl|].
  destruct (str_leb (key x) (key y)); [apply Permutation_refl|].
  eapply perm_trans; [apply perm_skip, IH | apply perm_swap].
Qed.

Lemma sorted_by_perm (l : list A) : Permutation (sorted_by key l) l.
Proof.
  induction l as [|x l IH]; simpl; [constructor|].
  eapply perm_trans; [apply insert_by_perm | apply perm_skip, IH].
Qed.

Lemma insert_by_sorted (x : A) (l : list A) :
  StronglySorted (by_key key) l -> StronglySorted (by_key key) (insert_by key x l).
Proof.
  induction 1 as [|y l S IH H]; simpl.
  - repeat constructor.
  - destruct (str_leb (key x) (key y)) eqn:E.
    + constructor; [constructor; assumption|].
      constructor; [exact E|]. eapply Forall_impl; [|exact H].
      intros z Hz. unfold by_key in *. eapply str_leb_trans; eauto.
    + constructor; [exact IH|].
      apply (Permutation_Forall (Permutation_sym (insert_by_perm x l))).
      constructor; [apply str_leb_total, E | exact H].
Qed.

Lemma sorted_by_sorted (l : list A) : StronglySorted (by_key key) (sorted_by key l).
Proof.
  induction l as [|x l IH]; simpl; [constructor | apply insert_by_sorted, IH].
Qed.

(** Two sorted arrangements of a list without two equal keys are the
    same. *)
Lemma sorted_unique (l1 l2 : list A) :
  StronglySorted (by_key key) l1 -> StronglySorted (by_key key) l2 ->
  Permutation l1 l2 -> NoDup (map key l1) -> l1 = l2.
Proof.
  intros S1. revert l2. induction S1 as [|x l1 S1 IH H1]; intros l2 S2 P N.
  - apply Permutation_nil in P. subst. reflexivity.
  - destruct l2 as [|y l2]; [apply Permutation_sym, Permutation_nil in P; discriminate|].
    inversion S2 as [|? ? S2' H2]; subst.
    inversion N as [|? ? Nx N']; subst.
    assert (E : x = y).
    { assert (Ix : In x (y :: l2)) by (apply (Permutation_in _ P); left; reflexivity).
      assert (Iy : In y (x :: l1))
        by (apply (Permutation_in _ (Permutation_sym P)); left; reflexivity).
      destruct Ix as [Ix|Ix]; [congruence|]. destruct Iy as [Iy|Iy]; [congruence|].
      rewrite Forall_forall in H1, H2.
      assert (K : key x = key y) by (apply str_leb_antisym; [apply H1, Iy | apply H2, Ix]).
      exfalso. apply Nx. rewrite K. apply in_map, Iy. }
    subst y. f_equal. apply IH; [assumption | eapply Permutation_cons_inv; eauto | assumption].
Qed.

Lemma by_key_trans : Relations_1.Transitive (by_key key).
Proof. intros x y z. unfold by_key. apply str_leb_trans. Qed.

(** The sorted list is the one arrangement in the order of the keys. *)
Lemma sorted_by_unique (l chapters : list A) :
  NoDup (map key l) -> Permutation chapters l -> Sorted (by_key key) chapters ->
  sorted_by key l = chapters.
Proof.
  intros N P S. symmetry. apply sorted_unique.
  - apply Sorted_StronglySorted; [exact by_key_trans | exact S].
  - apply sorted_by_sorted.
  - eapply perm_trans; [exact P | apply Permutation_sym, sorted_by_perm].
  - eapply Permutation_NoDup; [|exact N].
    apply Permutation_map, Permutation_sym, P.
Qed.

(** The head of the sorted list is an element with the least key. *)
Lemma sorted_by_head (l : list A) (x : A) (rest : list A) :
  sorted_by key l = x :: rest ->
  In x l /\ forall y, In y l -> str_leb (key x) (key y) = true.
Proof.
  intros E. assert (S := sorted_by_sorted l). assert (P := sorted_by_perm l).
  rewrite E in S, P. split.
  - apply (Permutation_in _ P). left. reflexivity.
  - intros y Hy. apply (Permutation_in _ (Permutation_sym P)) in Hy.
    destruct Hy as [<-|Hy]; [apply str_leb_refl|].
    inversion S as [|? ? _ H]; subst. rewrite Forall_forall in H. apply H, Hy.
Qed.

Lemma sorted_by_nil (l : list A) : sorted_by key l = [] -> l = [].
Proof.
  intros E. assert (P := sorted_by_perm l). rewrite E in P.
  apply Permutation_nil in P. exact P.
Qed.

End Sorting.

End NameOrder.

(** ** The cover *)

Module CoverFacts.
Import Regex RegexFacts PatternFacts ScanFacts LineFacts PieceFacts Epub CoverSpec NameOrder.

Lemma image_exists_iff (b : book) (n : str) :
  image_exists b n = true <-> In n (image_names b).
Proof.
  unfold image_exists, image_names. rewrite existsb_exists, in_map_iff. split.
  - intros (e & I & E). apply str_eqb_eq in E. exists e. split; assumption.
  - intros (e & E & I). exists e. split; [exact I | apply str_eqb_eq, E].
Qed.

Lemma image_exists_false (b : book) (n : str) :
  ~ In n (image_names b) -> image_exists b n = false.
Proof.
  intros H. destruct (image_exists b n) eqn:E; [|reflexivity].
  apply image_exists_iff in E. contradiction.
Qed.

(** The first loop answers the first cover name found. *)
Lemma cover_loop_first (b : book) (exts : list str) :
  forall earlier name later,
    map (fun ext => lit "cover" ++ ext) exts = earlier ++ name :: later ->
    In name (image_names b) ->
    (forall n, In n earlier -> ~ In n (image_names b)) ->
    cover_loop b exts None = Some name.
Proof.
  induction exts as [|ext exts IH]; intros earlier name later E I N.
  - destruct earlier; discriminate.
  - destruct earlier as [|n0 earlier]; cbn [map app] in E; injection E as E1 E2.
    + assert (E1' : lit "cover" ++ ext = name) by exact E1.
      cbn [cover_loop]. rewrite E1', (proj2 (image_exists_iff b name) I). reflexivity.
    + assert (E1' : lit "cover" ++ ext = n0) by exact E1.
      cbn [cover_loop]. rewrite E1', (image_exists_false b n0 (N n0 (or_introl eq_refl))).
      apply (IH earlier name later E2 I). intros n Hn. apply N. right. exact Hn.
Qed.

Lemma cover_loop_none (b : book) (exts : list str) :
  (forall n, In n (map (fun ext => lit "cover" ++ ext) exts) -> ~ In n (image_names b)) ->
  cover_loop b exts None = None.
Proof.
  induction exts as [|ext exts IH]; intros N; [reflexivity|].
  cbn [cover_loop]. rewrite (image_exists_false b _ (N _ (or_introl eq_refl))).
  apply IH. intros n Hn. apply N. right. exact Hn.
Qed.

(** [re.search] passes a text in which the pattern matches nowhere. *)
Lemma search_scan_no_match (re : regex) (whole pre rest : str) :
  forall i prev,
    no_match_in re i prev pre rest ->
    search_scan re whole i prev (pre ++ rest)
    = search_scan re whole (i + length pre) (prev_after prev pre) rest.
Proof.
  induction pre as [|c pre IH]; intros i prev H.
  - simpl. rewrite Nat.add_0_r. reflexivity.
  - destruct H as [H1 H2]. cbn [app search_scan]. cbn [app] in H1. rewrite H1.
    rewrite (IH (S i) (Some c) H2). cbn [length]. rewrite Nat.add_succ_r. reflexivity.
Qed.

Lemma occurs_at_later (sub s : str) (c : ascii) (i : nat) :
  occurs_at sub s i -> occurs_at sub (c :: s) (S i).
Proof. intros (a & b & -> & <-). exists (c :: a), b. split; reflexivity. Qed.

(** No reference starts in a text without [![], unless a [[] follows its
    last character. *)
Lemma first_image_none_in (pre rest : str) :
  (forall i, ~ occurs_at (lit "![") pre i) ->
  (forall d t, rest = d :: t -> d <> "["%char) ->
  forall i prev, no_match_in first_image_re i prev pre rest.
Proof.
  induction pre as [|c pre IH]; intros H R i prev; cbn [no_match_in]; [exact I|].
  split.
  - unfold first_image_re. cbn [lits map lit list_ascii_of_string app].
    destruct (Ascii.eqb_spec c "!") as [->|N]; [|apply match_one_other, N].
    rewrite match_one. destruct pre as [|d pre].
    + destruct rest as [|d t]; [reflexivity|].
      apply match_one_other. exact (R d t eq_refl).
    + apply match_one_other. intros ->.
      apply (H 0). exists [], pre. split; reflexivity.
  - apply IH; [|exact R]. intros j O. apply (H (S j)). apply occurs_at_later, O.
Qed.

Lemma dot_without (stop : ascii) (t : str) :
  Forall (fun c => c <> stop /\ c <> newline) t ->
  Forall (fun c => in_cls Dot c = true /\ c <> stop) t.
Proof.
  apply Forall_impl. intros c [H1 H2]. split; [|exact H1].
  simpl. apply Ascii.eqb_neq in H2. rewrite H2. reflexivity.
Qed.

(** [first_image_re] on an image reference. *)
Lemma first_image_match (alt target tail : str) (i : nat) (prev : option ascii) :
  Forall (fun c => c <> "]"%char /\ c <> newline) alt ->
  Forall (fun c => c <> ")"%char /\ c <> newline) target ->
  match_at first_image_re [] i prev (image_markup alt target ++ tail)
  = Some (i + length (image_markup alt target),
          [(End 1, i + 2 + length alt + 2 + length target);
           (Start 1, i + 2 + length alt + 2)]).
Proof.
  intros Ha Ht. unfold first_image_re, image_markup.
  cbn [lits map lit list_ascii_of_string app]. right_assoc.
  rewrite !match_one.
  apply lazy_dot_stop; [apply dot_without, Ha|]. rewrite !match_one, match_open, match_lazy.
  rewrite (lazy_loop_skip Dot _ ")"%char target);
    [|intros j p d u Hd; rewrite match_close; apply match_one_other, Hd
     |apply dot_without, Ht].
  apply lazy_loop_here. rewrite match_close, match_one. cbn [match_at].
  apply f_equal, f_equal2; [lengths; cbn [length]; lia|].
  apply f_equal2; [apply f_equal2; [reflexivity | lia]|].
  apply f_equal2; [apply f_equal2; [reflexivity | lia] | reflexivity].
Qed.

Lemma split_scan_skip (sub t r piece : str) :
  split_scan sub (length t) piece (t ++ r) = split_scan sub 0 piece r.
Proof. induction t as [|c t IH]; [reflexivity | exact IH]. Qed.

Lemma occurs_at_0 (sub s : str) : startswith s sub = true -> occurs_at sub s 0.
Proof. intros H. apply startswith_iff in H as [t ->]. exists [], t. split; reflexivity. Qed.

(** [split] on a text without the separator. *)
Lemma split_scan_none (sub s : str) :
  (forall i, ~ occurs_at sub s i) ->
  forall piece, split_scan sub 0 piece s = [piece ++ s].
Proof.
  induction s as [|c s IH]; intros H piece; cbn [split_scan].
  - rewrite app_nil_r. reflexivity.
  - destruct (startswith (c :: s) sub) eqn:E.
    + exfalso. exact (H 0 (occurs_at_0 _ _ E)).
    + rewrite IH; [rewrite <- app_assoc; reflexivity|].
      intros i O. apply (H (S i)), occurs_at_later, O.
Qed.

Lemma split_scan_not_nil (sub s : str) :
  forall skip piece, split_scan sub skip piece s <> [].
Proof.
  induction s as [|c s IH]; intros skip piece; cbn [split_scan]; [discriminate|].
  destruct skip; [|apply IH]. destruct (startswith (c :: s) sub); [discriminate | apply IH].
Qed.

Lemma last_cons_not_nil (x : str) (l : list str) (d : str) :
  l <> [] -> last (x :: l) d = last l d.
Proof. destruct l; [congruence | reflexivity]. Qed.

(** Two occurrences of [images/] do not overlap. *)
Lemma images_apart (a rest : str) :
  startswith (a ++ lit "images/" ++ rest) "images/" = true ->
  a = [] \/ exists a', a = lit "images/" ++ a'.
Proof.
  intros H.
  destruct a as [|c1 [|c2 [|c3 [|c4 [|c5 [|c6 [|c7 a]]]]]]];
    try (left; reflexivity);
    try (exfalso; cbn in H; rewrite ?andb_false_r in H; discriminate H).
  right. exists a. apply startswith_iff in H as [t E].
  cbn in E. injection E as -> -> -> -> -> -> -> _. reflexivity.
Qed.

(** The last piece of [split] is what follows the last [images/]. *)
Lemma split_last_images (name : str) :
  (forall i, ~ occurs_at (lit "images/") name i) ->
  forall n a piece,
    length a <= n ->
    last (split_scan (lit "images/") 0 piece (a ++ lit "images/" ++ name)) [] = name.
Proof.
  intros H. induction n as [|n IH]; intros a piece L.
  - destruct a; [|simpl in L; lia].
    cbn [app lit list_ascii_of_string split_scan startswith Ascii.eqb Bool.eqb andb length Nat.sub].
    rewrite (split_scan_none _ name H). reflexivity.
  - destruct (startswith (a ++ lit "images/" ++ name) "images/") eqn:E.
    + destruct (images_apart a name E) as [-> | (a' & ->)].
      * apply (IH [] piece). simpl. lia.
      * rewrite <- app_assoc.
        change (lit "images/" ++ a' ++ lit "images/" ++ name)
          with ("i"%char :: lit "mages/" ++ a' ++ lit "images/" ++ name).
        cbn [split_scan]. 
        change ("i"%char :: lit "mages/" ++ a' ++ lit "images/" ++ name)
          with (lit "images/" ++ a' ++ lit "images/" ++ name).
        rewrite startswith_app.
        change (length (lit "images/") - 1) with (length (lit "mages/")).
        rewrite split_scan_skip, last_cons_not_nil by apply split_scan_not_nil.
        apply IH. rewrite length_app in L. simpl in L. lia.
    + destruct a as [|c a]; [discriminate E|].
      cbn [app split_scan]. cbn [app] in E. rewrite E.
      apply IH. simpl in L. lia.
Qed.

(** What [find_first_image] makes of the target of the first reference. *)
Lemma names_file_split (target name : str) :
  names_file target name ->
  (if contains target "images/" then last (split target "images/") [] else target) = name.
Proof.
  intros [(a & -> & H) | [H ->]].
  - destruct (contains (a ++ lit "images/" ++ name) "images/") eqn:C.
    + unfold split. apply (split_last_images name H (length a)). lia.
    + exfalso. apply (contains_false _ _ C (length a)).
      exists a, name. split; reflexivity.
  - destruct (contains target "images/") eqn:C; [|reflexivity].
    exfalso. destruct (contains_true _ _ C) as (i & _ & O & _). exact (H i O).
Qed.

Lemma find_first_image_reference (text target name : str) :
  first_reference text target -> names_file target name ->
  find_first_image text = Some name.
Proof.
  intros (before & alt & after & -> & Hb & Ha & Ht) Hn.
  unfold find_first_image, search.
  rewrite (search_scan_no_match first_image_re _ before (image_markup alt target ++ after) 0 None).
  2:{ apply first_image_none_in; [exact Hb|]. intros d t E. rewrite image_markup_shape in E.
      injection E as <- _. discriminate. }
  assert (G : group {| subject := before ++ image_markup alt target ++ after;
                       span_start := 0 + length before;
                       span_end := 0 + length before + length (image_markup alt target);
                       boundaries := [(End 1, 0 + length before + 2 + length alt + 2
                                               + length target);
                                      (Start 1, 0 + length before + 2 + length alt + 2)] |} 1
              = target).
  { unfold group. cbn [subject boundaries boundary mark_eqb Nat.eqb].
    replace (before ++ image_markup alt target ++ after)
      with ((before ++ lit "![" ++ alt ++ lit "](") ++ target ++ (lit ")" ++ after))
      by (unfold image_markup; rewrite <- !app_assoc; reflexivity).
    apply slice_mid; [rewrite !length_app; simpl; lia | reflexivity]. }
  assert (M := first_image_match alt target after (0 + length before)
                 (prev_after None before) Ha Ht).
  revert G. generalize (before ++ image_markup alt target ++ after) as whole.
  intros whole G.
  destruct (image_markup alt target ++ after) as [|c s] eqn:E.
  { rewrite image_markup_shape in E. discriminate. }
  cbn [search_scan]. rewrite M, G, <- (names_file_split target name Hn).
  destruct (contains target "images/"); reflexivity.
Qed.

Lemma find_first_image_none (text : str) :
  no_reference text -> find_first_image text = None.
Proof.
  intros H. unfold find_first_image, search.
  assert (E := search_scan_no_match first_image_re text text [] 0 None).
  rewrite app_nil_r in E. rewrite E.
  - reflexivity.
  - apply first_image_none_in; [exact H | intros d t K; discriminate].
Qed.


Lemma nothing_got (text : str) :
  yields_nothing text -> Cleaner.got (find_first_image text) = false.
Proof.
  intros [H | (target & R & N)].
  - rewrite (find_first_image_none text H). reflexivity.
  - rewrite (find_first_image_reference text target [] R N). reflexivity.
Qed.

Lemma truthy_not_nil (s : str) : s <> [] -> truthy s = true.
Proof. destruct s; [congruence | reflexivity]. Qed.

(** The second loop stops at the first chapter that yields a name. *)
Lemma chapter_loop_reference (before : list (str * str)) (chapter text : str)
    (after : list (str * str)) (name : str) :
  Forall (fun c => yields_nothing (snd c)) before ->
  yields text name ->
  forall start, chapter_loop (before ++ (chapter, text) :: after) start = Some name.
Proof.
  intros Hb (target & R & N & Hn).
  induction Hb as [|[c t] before H _ IH]; intros start; cbn [app chapter_loop].
  - rewrite (find_first_image_reference text target name R N). cbn [Cleaner.got].
    rewrite (truthy_not_nil name Hn). reflexivity.
  - cbn [snd] in H. rewrite (nothing_got t H). apply IH.
Qed.

Lemma chapter_loop_nothing (chapters : list (str * str)) :
  Forall (fun c => yields_nothing (snd c)) chapters ->
  forall start, Cleaner.got start = false ->
                Cleaner.got (chapter_loop chapters start) = false.
Proof.
  induction 1 as [|[c t] chapters H _ IH]; intros start G; cbn [chapter_loop]; [exact G|].
  cbn [snd] in H. rewrite (nothing_got t H). apply IH, nothing_got, H.
Qed.

Lemma image_file_iff (e : image_entry) :
  img_is_file e && existsb (str_eqb (Url.lower (suffix (img_name e)))) image_suffixes = true
  <-> image_file e.
Proof.
  unfold image_file. rewrite andb_true_iff, existsb_exists. split.
  - intros [F (x & I & E)]. apply str_eqb_eq in E. subst x. split; assumption.
  - intros [F I]. split; [exact F|]. exists (Url.lower (suffix (img_name e))).
    split; [exact I | apply str_eqb_eq; reflexivity].
Qed.

(** The third rule answers the image file whose name comes first. *)
Lemma image_files_first (b : book) (name : str) :
  first_image_file b name ->
  exists f rest, image_files b = f :: rest /\ img_name f = name.
Proof.
  intros (e & I & F & En & Least). unfold image_files.
  set (ok := fun f => img_is_file f
                      && existsb (str_eqb (Url.lower (suffix (img_name f)))) image_suffixes).
  assert (Ie : In e (filter ok (images b))).
  { apply filter_In. split; [exact I | apply image_file_iff, F]. }
  destruct (sorted_by img_name (filter ok (images b))) as [|f rest] eqn:S.
  { apply sorted_by_nil in S. rewrite S in Ie. contradiction. }
  exists f, rest. split; [reflexivity|].
  destruct (sorted_by_head img_name _ f rest S) as [If Lf].
  apply filter_In in If as [If Ff]. apply image_file_iff in Ff.
  apply str_leb_antisym; [rewrite <- En; apply Lf, Ie | apply Least; assumption].
Qed.

Lemma image_files_none (b : book) : no_image_file b -> image_files b = [].
Proof.
  intros H. unfold image_files.
  destruct (filter _ (images b)) as [|x l] eqn:E; [reflexivity|].
  assert (I : In x (x :: l)) by (left; reflexivity).
  rewrite <- E in I. apply filter_In in I as [I F].
  exfalso. apply (H x I), image_file_iff, F.
Qed.

Lemma cover_names_not_nil (name : str) : In name cover_names -> name <> [].
Proof.
  intros H. simpl in H.
  repeat (destruct H as [<-|H]; [discriminate|]). contradiction.
Qed.

Lemma images_some (b : book) (e : image_entry) :
  In e (images b) -> exists es, images_dir b = Some es.
Proof.
  unfold images. destruct (images_dir b) as [es|]; [exists es; reflexivity | contradiction].
Qed.

Lemma suffix_nil : suffix [] = [].
Proof. reflexivity. Qed.

(** The name the code selects is the name the rules select. *)
Lemma selects_name (b : book) (chapters : list (str * str)) (name : str) :
  sorted_by fst (md_listing b) = chapters ->
  selects b chapters name ->
  cover_image_name b = Some name /\ name <> [].
Proof.
  intros S H. unfold cover_image_name. rewrite S.
  destruct H as [name (earlier & later & E & I & N)
                | before chapter text after name NC E Hb Hy
                | name NC Hc (e & I & F & En & Least)].
  - assert (Hn : name <> []).
    { apply cover_names_not_nil. rewrite E. apply in_or_app. right. left. reflexivity. }
    rewrite (cover_loop_first b cover_extensions earlier name later E I N).
    repeat (cbn [Cleaner.got negb andb]; rewrite ?(truthy_not_nil name Hn)).
    split; [reflexivity | exact Hn].
  - rewrite (cover_loop_none b cover_extensions NC). cbn [Cleaner.got negb andb].
    rewrite E, (chapter_loop_reference before chapter text after name Hb Hy).
    destruct Hy as (target & _ & _ & Hn).
    destruct (before ++ (chapter, text) :: after) eqn:K; [destruct before; discriminate|].
    repeat (cbn [Cleaner.got negb andb]; rewrite ?(truthy_not_nil name Hn)).
    split; [reflexivity | exact Hn].
  - rewrite (cover_loop_none b cover_extensions NC). cbn [Cleaner.got negb andb].
    assert (G : Cleaner.got (if match chapters with [] => false | _ :: _ => true end
                             then chapter_loop chapters None else None) = false).
    { destruct chapters; [reflexivity|]. apply chapter_loop_nothing; [exact Hc | reflexivity]. }
    rewrite G. cbn [negb andb].
    destruct (images_some b e I) as (es & D). rewrite D.
    destruct (image_files_first b name) as (f & rest & Ef & Nf).
    { exists e. split; [exact I | split; [exact F | split; [exact En | exact Least]]]. }
    rewrite Ef, Nf. split; [reflexivity|].
    intros ->. destruct F as [_ F]. rewrite En, suffix_nil in F. simpl in F.
    repeat (destruct F as [F|F]; [discriminate|]). contradiction.
Qed.

Lemma selects_none_name (b : book) (chapters : list (str * str)) :
  sorted_by fst (md_listing b) = chapters ->
  selects_none b chapters -> Cleaner.got (cover_image_name b) = false.
Proof.
  intros S (NC & Hc & NI). unfold cover_image_name. rewrite S.
  rewrite (cover_loop_none b cover_extensions NC). cbn [Cleaner.got negb andb].
  assert (G : Cleaner.got (if match chapters with [] => false | _ :: _ => true end
                           then chapter_loop chapters None else None) = false).
  { destruct chapters; [reflexivity|]. apply chapter_loop_nothing; [exact Hc | reflexivity]. }
  rewrite G. cbn [negb andb]. rewrite (image_files_none b NI).
  destruct (images_dir b); exact G.
Qed.

(** The loop over the images directory keeps the file of the name. *)
Lemma keep_found (selected : option str) (name : str) (l : list image_entry)
    (e : image_entry) :
  Cleaner.got selected = true -> Cleaner.name_of selected = name ->
  NoDup (map img_name l) -> In e l -> img_name e = name -> img_is_file e = true ->
  forall kept,
    fold_left (fun kept f =>
                 if img_is_file f && Cleaner.got selected
                    && str_eqb (img_name f) (Cleaner.name_of selected)
                 then Some (img_data f, suffix (img_name f)) else kept) l kept
    = Some (img_data e, suffix name).
Proof.
  intros G Nm. rewrite G, Nm. clear G Nm.
  induction l as [|x l IH]; intros N I En F kept; [contradiction|].
  inversion N as [|? ? Nx N']; subst. cbn [fold_left].
  destruct I as [->|I].
  - rewrite F, (proj2 (str_eqb_eq _ _) eq_refl). cbn [andb].
    assert (Skip : forall k,
               fold_left (fun kept f =>
                            if img_is_file f && true && str_eqb (img_name f) (img_name e)
                            then Some (img_data f, suffix (img_name f)) else kept) l k = k).
    { clear - Nx. induction l as [|y l IH]; intros k; [reflexivity|]. cbn [fold_left].
      assert (Ny : str_eqb (img_name y) (img_name e) = false).
      { destruct (str_eqb (img_name y) (img_name e)) eqn:E; [|reflexivity].
        apply str_eqb_eq in E. exfalso. apply Nx. left. exact E. }
      rewrite Ny, andb_false_r. apply IH. intros K. apply Nx. right. exact K. }
    apply Skip.
  - apply IH; auto.
Qed.

Lemma keep_missing (selected : option str) (l : list image_entry) :
  (forall e, In e l -> img_name e = Cleaner.name_of selected -> img_is_file e = false) ->
  forall kept,
    fold_left (fun kept f =>
                 if img_is_file f && Cleaner.got selected
                    && str_eqb (img_name f) (Cleaner.name_of selected)
                 then Some (img_data f, suffix (img_name f)) else kept) l kept
    = kept.
Proof.
  induction l as [|x l IH]; intros H kept; [reflexivity|]. cbn [fold_left].
  assert (E : img_is_file x && Cleaner.got selected
              && str_eqb (img_name x) (Cleaner.name_of selected) = false).
  { destruct (str_eqb (img_name x) (Cleaner.name_of selected)) eqn:E;
      [|apply andb_false_r].
    apply str_eqb_eq in E. rewrite (H x (or_introl eq_refl) E). reflexivity. }
  rewrite E. apply IH. intros e I. apply H. right. exact I.
Qed.

(** The cover handed to the book, from the name selected. *)
Lemma cover_set_of (b : book) (name : str) :
  NoDup (image_names b) -> cover_image_name b = Some name -> name <> [] ->
  (forall cover, cover_of b name cover -> cover_set b = Some cover)
  /\ (no_cover_of b name -> cover_set b = None).
Proof.
  intros N S Hn. unfold cover_set. rewrite S.
  assert (G : Cleaner.got (Some name) = true) by (apply truthy_not_nil, Hn).
  split.
  - intros cover (e & I & En & F & D & X & ->).
    rewrite (keep_found (Some name) name (images b) e G eq_refl N I En F).
    rewrite (truthy_not_nil _ D), (truthy_not_nil _ X). reflexivity.
  - intros H.
    destruct (List.find (fun e => img_is_file e && str_eqb (img_name e) name) (images b))
      as [e|] eqn:E.
    + apply find_some in E as [I E]. apply andb_prop in E as [F En].
      apply str_eqb_eq in En.
      rewrite (keep_found (Some name) name (images b) e G eq_refl N I En F).
      destruct (H e I En) as [K | [K | K]].
      * congruence.
      * rewrite K. reflexivity.
      * rewrite K. cbn [truthy]. rewrite andb_false_r. reflexivity.
    + rewrite keep_missing; [reflexivity|].
      intros e I En. cbn [Cleaner.name_of] in En.
      assert (K := find_none _ _ E e I). cbn beta in K.
      rewrite En, (proj2 (str_eqb_eq _ _) eq_refl), andb_true_r in K. exact K.
Qed.

Lemma cover_set_without (b : book) :
  Cleaner.got (cover_image_name b) = false -> cover_set b = None.
Proof.
  intros G. unfold cover_set. rewrite G.
  assert (E : forall l k,
             fold_left (fun (kept : option (str * str)) f =>
                          if img_is_file f && false
                             && str_eqb (img_name f) (Cleaner.name_of (cover_image_name b))
                          then Some (img_data f, suffix (img_name f)) else kept) l k = k).
  { induction l as [|x l IH]; intros k; simpl; [reflexivity|].
    rewrite andb_false_r. simpl. apply IH. }
  rewrite E. reflexivity.
Qed.

End CoverFacts.

Module CoverClaim.
Import Epub CoverSpec NameOrder CoverFacts.

(** C9, as stated, fails.  The name the rules select need not be a file
    of the images directory: the chapter refers to [pic.png], rule 2 yields
    that name and wins, no file has it, so the book gets no cover, although
    rule 3 would yield [image_0.png].  And a file named [cover.gif] is not
    looked for: the book whose images directory holds it gets no cover. *)
Lemma cover_not_the_selected_image :
  (selects book_without_referenced_image (md_listing book_without_referenced_image)
     "pic.png"
   /\ first_image_file book_without_referenced_image "image_0.png"
   /\ create_epub book_without_referenced_image = Some ([lit "01 - A.md"], None))
  /\ (In (lit "cover.gif") (image_names book_with_gif_cover)
      /\ create_epub book_with_gif_cover = Some ([lit "01 - A.md"], None)).
Proof.
  split; [split; [|split]|split]; try reflexivity.
  - apply (by_reference _ _ [] (lit "01 - A.md") (lit "![a](pic.png)") []).
    + intros n Hn [E|[]]. simpl in Hn.
      repeat (destruct Hn as [<-|Hn]; [discriminate E|]). contradiction.
    + reflexivity.
    + constructor.
    + exists (lit "pic.png"). split; [|split; [|discriminate]].
      * exists [], (lit "a"), []. split; [reflexivity|].
        split; [apply contains_false; reflexivity|].
        split; repeat constructor; discriminate.
      * right. split; [apply contains_false; reflexivity | reflexivity].
  - eexists. split; [left; reflexivity|]. split; [|split; [reflexivity|]].
    + split; [reflexivity | right; right; left; reflexivity].
    + intros e' [<-|[]] _. reflexivity.
  - left. reflexivity.
Qed.

(** C9, amended: the chapters being the markdown files in the order of
    their names, the cover name is selected by three rules, the first that
    yields a name winning: the first of [cover.webp], [cover.png],
    [cover.jpg], [cover.jpeg] found in the images directory; else, for the
    first chapter whose first image reference names a file, that name (the
    target, or what follows its last [images/]); else the first, by name,
    of the regular files of the images directory with the extension [.jpg],
    [.jpeg], [.png] or [.webp].  The book gets as cover the file of the
    images directory with the selected name, stored as [cover] with its
    extension; it gets no cover when that file is missing, is not a regular
    file, is empty or has no extension, and when no rule yields a name. *)
Theorem cover_selection (b : book) (chapters : list (str * str)) :
  one_entry_per_name b -> in_name_order b chapters -> chapters <> [] ->
  create_epub b = Some (map fst chapters, cover_set b)
  /\ (forall name,
         selects b chapters name ->
         (forall cover, cover_of b name cover -> cover_set b = Some cover)
         /\ (no_cover_of b name -> cover_set b = None))
  /\ (selects_none b chapters -> cover_set b = None).
Proof.
  intros [N1 N2] [P S] Hne.
  assert (E : sorted_by fst (md_listing b) = chapters)
    by (apply sorted_by_unique; assumption).
  split; [|split].
  - unfold create_epub. rewrite E. destruct chapters; [congruence | reflexivity].
  - intros name H. destruct (selects_name b chapters name E H) as [Sel Hn].
    apply cover_set_of; assumption.
  - intros H. apply cover_set_without, (selects_none_name b chapters E H).
Qed.

Lemma cover_selection_witness :
  let chapters := [("01 - A.md" : str, "intro ![a](images/image_1.png) end" : str);
                   ("02 - B.md" : str, "text ![b](images/image_2.png)" : str)] in
  one_entry_per_name sample_book /\ in_name_order sample_book chapters
  /\ selects sample_book chapters "image_1.png"
  /\ cover_set sample_book = Some (lit "cover.png", lit "y").
Proof.
  cbv zeta.
  assert (U : one_entry_per_name sample_book).
  { split; repeat constructor; simpl; intuition discriminate. }
  assert (O : in_name_order sample_book
                [("01 - A.md" : str, "intro ![a](images/image_1.png) end" : str);
                 ("02 - B.md" : str, "text ![b](images/image_2.png)" : str)]).
  { split; [apply perm_swap|]. repeat constructor. }
  assert (R : selects sample_book
                [("01 - A.md" : str, "intro ![a](images/image_1.png) end" : str);
                 ("02 - B.md" : str, "text ![b](images/image_2.png)" : str)]
                "image_1.png").
  { apply (by_reference _ _ [] (lit "01 - A.md") (lit "intro ![a](images/image_1.png) end")
             [("02 - B.md" : str, "text ![b](images/image_2.png)" : str)]).
    - intros n Hn [E|[E|[]]]; simpl in Hn;
        repeat (destruct Hn as [<-|Hn]; [discriminate E|]); contradiction.
    - reflexivity.
    - constructor.
    - exists (lit "images/image_1.png"). split; [|split; [|discriminate]].
      + exists (lit "intro "), (lit "a"), (lit " end"). split; [reflexivity|].
        split; [apply contains_false; reflexivity|].
        split; repeat constructor; discriminate.
      + left. exists []. split; [reflexivity | apply contains_false; reflexivity]. }
  split; [exact U|]. split; [exact O|]. split; [exact R|].
  apply (proj1 (proj2 (cover_selection sample_book _ U O ltac:(discriminate)))
           (lit "image_1.png") R).
  eexists. split; [right; left; reflexivity|].
  split; [reflexivity|]. split; [reflexivity|]. split; [discriminate|].
  split; [discriminate | reflexivity].
Defined.

End CoverClaim.


(** ** The model on concrete inputs *)

Module Examples.
Import Regex Cleaner Normalizer Chapters.

(** [hashlib.md5(b"").hexdigest()] and [hashlib.md5(b"abc").hexdigest()]. *)
Example md5_empty : MD5.hexdigest [] = lit "d41d8cd98f00b204e9800998ecf8427e".
Proof. vm_compute. reflexivity. Qed.

Example md5_abc : MD5.hexdigest "abc" = lit "900150983cd24fb0d6963f7d28e17f72".
Proof. vm_compute. reflexivity. Qed.

(** [urlparse(url).path] and [splitext]: the query and the fragment are
    not part of the path, parameters are cut from its last segment, and a
    leading dot starts no extension. *)
Example path_with_query :
  Url.urlparse_path (fun _ => true) "http://u@h:80/p/q.jpeg?x#y" = Some (lit "/p/q.jpeg").
Proof. vm_compute. reflexivity. Qed.

Example path_with_params :
  Url.urlparse_path (fun _ => true) "http://x.com/a.tar.gz;p=1" = Some (lit "/a.tar.gz").
Proof. vm_compute. reflexivity. Qed.

Example path_unbalanced_bracket :
  Url.urlparse_path (fun _ => true) "http://[x/a.png" = None.
Proof. vm_compute. reflexivity. Qed.

Example ext_hidden : Url.splitext_ext "/.hidden" = [].
Proof. vm_compute. reflexivity. Qed.

Example ext_last : Url.splitext_ext "/a.tar.gz" = lit ".gz".
Proof. vm_compute. reflexivity. Qed.

(** A remote image without extension gets [.jpg]. *)
Example name_default_extension :
  local_name online "http://x.com/picture"
  = Some (lit "image_" ++ firstn 12 (MD5.hexdigest "http://x.com/picture") ++ lit ".jpg").
Proof. vm_compute. reflexivity. Qed.

(** The nested form of the clipper is unwrapped to the outer URL. *)
Example nested_unwrapped :
  fst (clean_line "[![](images/f.png)](http://u/p.png) tail" online)
  = lit "![](images/image_25943fe1bb23.png) tail".
Proof. vm_compute. reflexivity. Qed.

(** Two references to one URL on a line: one request. *)
Example same_url_twice :
  let (line, w) := clean_line "![a](http://x/1.png) ![b](http://x/1.png)" online in
  line = lit "![a](images/image_94a63be3988c.png) ![b](images/image_94a63be3988c.png)"
  /\ requests w = [lit "http://x/1.png"].
Proof. vm_compute. split; reflexivity. Qed.

(** The first heading takes the title and leading blank lines go. *)
Example first_heading :
  fst (clean_content (newlines 2 ++ lit "# Old title" ++ newlines 1 ++ lit "text"
                      ++ newlines 1 ++ lit "# Next") "New" online)
  = lit "# New" ++ newlines 1 ++ lit "text" ++ newlines 1 ++ lit "# Next" ++ newlines 1.
Proof. vm_compute. reflexivity. Qed.

(** Names sharing ["Blog - Part "] lose ["Blog - "]: the common prefix is
    cut after its last separator. *)
Example blog_prefix :
  find_common_prefix ["Blog - Part 1.md" : str; "Blog - Part 2.md" : str] = lit "Blog - ".
Proof. vm_compute. reflexivity. Qed.

(** Files are numbered by time, the oldest first; files that are not
    markdown are left out. *)
Example numbered_by_time :
  new_filenames [("Blog - B.md" : str, 5%Z); ("x.txt" : str, 1%Z);
                 ("Blog - A.md" : str, 2%Z); ("Blog - C.md" : str, 5%Z)]
  = ["01 - A.md" : str; "02 - B.md" : str; "03 - C.md" : str].
Proof. vm_compute. reflexivity. Qed.

(** A single file: its whole name is the common prefix and is stripped. *)
Example single_file :
  new_filenames [("chapter.md" : str, 1%Z)] = ["01 - .md" : str].
Proof. vm_compute. reflexivity. Qed.

End Examples.

(** * Further properties of the code *)

(** ** Files in time order *)

Module FilesByTime.
Import Normalizer Chapters SortFacts.

(** [get_files_by_timestamp] answers the names of the walked files that end
    with [.md], each once, in ascending order of modification time, files
    of equal time in the order of the walk. *)
Theorem get_files_by_timestamp_ordered (walk : list entry) :
  exists sorted,
    get_files_by_timestamp walk = map fst sorted
    /\ Permutation sorted (filter (fun e => endswith (fst e) md) walk)
    /\ Sorted (fun a b => (snd a <= snd b)%Z) sorted
    /\ (forall t, filter (fun e => (snd e =? t)%Z) sorted
                  = filter (fun e => (snd e =? t)%Z)
                      (filter (fun e => endswith (fst e) md) walk))
    /\ Forall (fun name => endswith name md = true) (get_files_by_timestamp walk).
Proof.
  unfold get_files_by_timestamp.
  set (md_files := filter (fun e => endswith (fst e) md) walk).
  exists (sort_by_mtime md_files).
  split; [reflexivity|]. split; [apply sort_by_mtime_perm|].
  split; [apply sort_by_mtime_sorted|]. split; [intros t; apply sort_by_mtime_stable|].
  apply Forall_forall. intros name H. apply in_map_iff in H as (e & <- & He).
  apply (Permutation_in _ (sort_by_mtime_perm md_files)) in He.
  apply filter_In in He. tauto.
Qed.

End FilesByTime.

(** ** What the common prefix and suffix are *)

Module Affixes.
Import Normalizer NormalizerFacts PrefixFacts.

Lemma discard_short_cases (s : str) :
  (discard_short s = [] \/ (discard_short s = s /\ 4 <= length s)).
Proof.
  unfold discard_short. destruct (Nat.ltb_spec (length s) 4); [left | right]; auto.
Qed.

(** For a non-empty list, [find_common_prefix] answers the longest common
    prefix of the names (the filenames with [.md] removed), cut right after
    its last [" - "] when that separator occurs and does not start at index
    0, and left whole otherwise; an answer shorter than 4 characters is
    replaced by the empty string. *)
Theorem find_common_prefix_spec (filenames : list str) :
  filenames <> [] ->
  exists p kept,
    longest_common_prefix (replaced_names filenames) p
    /\ (((forall i, ~ occurs_at sep p i) /\ kept = p)
        \/ (occurs_at sep p 0 /\ (forall j, occurs_at sep p j -> j = 0) /\ kept = p)
        \/ (exists a b, a <> [] /\ p = a ++ sep ++ b
                        /\ (forall j, occurs_at sep p j -> j <= length a)
                        /\ kept = a ++ sep))
    /\ find_common_prefix filenames = discard_short kept.
Proof.
  intros Hne. destruct filenames as [|f fs]; [congruence|].
  unfold find_common_prefix, replaced_names. cbn [map].
  set (first := replace f md []).
  set (others := map (fun f0 => replace f0 md []) fs).
  destruct (prefix_for_spec others first) as [L1 L2].
  set (p := prefix_for first others) in *.
  exists p.
  assert (LCP : longest_common_prefix (first :: others) p).
  { split; [exact L1|]. intros t Ht. apply is_prefix_length, L2, Ht. }
  destruct (contains p sep) eqn:C.
  - destruct (contains_true _ _ C) as (i0 & _ & O & _).
    destruct (rfind_from_spec sep p 0 ltac:(lia)) as [[_ N] | (i & R1 & R2 & R3)].
    { exfalso. exact (N _ O). }
    fold (rfind p sep) in R1. rewrite R1. simpl (0 + Z.of_nat i)%Z.
    destruct (Z.gtb_spec (Z.of_nat i) 0) as [G|G].
    + destruct R2 as (a & b & Hp & Ha).
      exists (a ++ sep). split; [exact LCP|]. split.
      * right. right. exists a, b. split; [|split; [exact Hp|split; [|reflexivity]]].
        -- intros ->. simpl in Ha. lia.
        -- intros j Hj. rewrite Ha. apply R3, Hj.
      * rewrite len_gt_3. f_equal. unfold upto.
        replace (Z.to_nat (Z.of_nat i + 3)) with (i + 3) by lia.
        rewrite Hp, <- Ha, app_assoc.
        replace (length a + 3) with (length (a ++ sep)) by (rewrite length_app; reflexivity).
        rewrite firstn_app, Nat.sub_diag, firstn_all. simpl. apply app_nil_r.
    + assert (i = 0) by lia. subst i.
      exists p. split; [exact LCP|]. split.
      * right. left. split; [exact R2|]. split; [|reflexivity].
        intros j Hj. apply R3 in Hj. lia.
      * apply len_gt_3.
  - exists p. split; [exact LCP|]. split.
    + left. split; [apply contains_false, C | reflexivity].
    + apply len_gt_3.
Qed.

Lemma find_common_prefix_spec_witness :
  let filenames : list str := ["Blog - Part 1.md" : str; "Blog - Part 2.md" : str] in
  filenames <> []
  /\ exists p kept,
       longest_common_prefix (replaced_names filenames) p
       /\ (((forall i, ~ occurs_at sep p i) /\ kept = p)
           \/ (occurs_at sep p 0 /\ (forall j, occurs_at sep p j -> j = 0) /\ kept = p)
           \/ (exists a b, a <> [] /\ p = a ++ sep ++ b
                           /\ (forall j, occurs_at sep p j -> j <= length a)
                           /\ kept = a ++ sep))
       /\ find_common_prefix filenames = discard_short kept.
Proof.
  split; [discriminate | apply find_common_prefix_spec; discriminate].
Defined.

Lemma upto_is_prefix (s : str) (n : Z) : is_prefix (upto s n) s.
Proof. apply firstn_is_prefix. Qed.

Lemma from_is_suffix (s : str) (n : Z) : is_suffix (from s n) s.
Proof. exists (firstn (Z.to_nat n) s). symmetry. apply firstn_skipn. Qed.

Lemma Forall_is_prefix_trans (p q : str) (names : list str) :
  is_prefix p q -> Forall (is_prefix q) names -> Forall (is_prefix p) names.
Proof.
  intros H. apply Forall_impl. intros n Hn. eapply is_prefix_trans; eauto.
Qed.

Lemma Forall_is_suffix_trans (p q : str) (names : list str) :
  is_suffix p q -> Forall (is_suffix q) names -> Forall (is_suffix p) names.
Proof.
  intros H. apply Forall_impl. intros n Hn. eapply is_suffix_trans; eauto.
Qed.

(** What [find_common_prefix] and [find_common_suffix] answer is empty or
    at least 4 characters long, and it begins, or ends, every name: the
    tests [startswith] and [endswith] of [clean_filename] cannot fail on
    the name itself. *)
Theorem common_affixes_fit (filenames : list str) :
  let p := find_common_prefix filenames in
  let s := find_common_suffix filenames in
  (p = [] \/ 4 <= length p)
  /\ Forall (is_prefix p) (replaced_names filenames)
  /\ (s = [] \/ 4 <= length s)
  /\ Forall (is_suffix s) (replaced_names filenames).
Proof.
  cbv zeta. destruct filenames as [|f fs].
  { simpl. repeat split; auto. }
  unfold find_common_prefix, find_common_suffix, replaced_names. cbn [map].
  set (first := replace f md []).
  set (others := map (fun f0 => replace f0 md []) fs).
  destruct (prefix_for_spec others first) as [P1 _].
  destruct (suffix_for_spec others first) as [S1 _].
  set (p := prefix_for first others) in *.
  set (s := suffix_for first others) in *.
  rewrite !len_gt_3.
  set (p' := if contains p sep then _ else p).
  set (s' := if contains s sep then _ else s).
  assert (Hp : is_prefix p' p).
  { unfold p'. destruct (contains p sep); [|apply is_prefix_refl].
    destruct (rfind p sep >? 0)%Z; [apply upto_is_prefix | apply is_prefix_refl]. }
  assert (Hs : is_suffix s' s).
  { unfold s'. destruct (contains s sep); [|apply is_suffix_refl].
    destruct (find s sep >=? 0)%Z; [apply from_is_suffix | apply is_suffix_refl]. }
  clearbody p' s'.
  destruct (discard_short_cases p') as [-> | [-> Lp]];
    destruct (discard_short_cases s') as [-> | [-> Ls]];
    repeat split; auto;
    try (apply Forall_forall; intros x _; apply is_prefix_nil);
    try (apply Forall_forall; intros x _; apply is_suffix_nil);
    try (eapply Forall_is_prefix_trans; eassumption);
    try (eapply Forall_is_suffix_trans; eassumption).
Qed.

End Affixes.

(** ** One file, and the numbers of the chapters *)

Module ChapterNames.
Import Normalizer NormalizerFacts Chapters.

Lemma startswith_refl (s : str) : startswith s s = true.
Proof. apply startswith_iff. apply is_prefix_refl. Qed.

Lemma prefix_for_nil (p : str) : prefix_for p [] = p.
Proof. reflexivity. Qed.

(** A book of one file whose name, without [.md], has at least 4
    characters and no [" - "]: the whole name is the common prefix and the
    common suffix, and the file is written as [01 - .md]. *)
Theorem single_file_loses_its_name (f : str) (t : Z) :
  endswith f md = true ->
  4 <= length (replace f md []) ->
  contains (replace f md []) sep = false ->
  find_common_prefix [f] = replace f md []
  /\ find_common_suffix [f] = replace f md []
  /\ new_filenames [(f, t)] = [lit "01 - .md"].
Proof.
  intros Hmd Hlen Hsep.
  assert (P : find_common_prefix [f] = replace f md []).
  { unfold find_common_prefix. cbn [map prefix_for]. rewrite Hsep, len_gt_3.
    unfold discard_short. destruct (Nat.ltb_spec (length (replace f md [])) 4); [lia|].
    reflexivity. }
  assert (S : find_common_suffix [f] = replace f md []).
  { unfold find_common_suffix. cbn [map suffix_for]. rewrite Hsep, len_gt_3.
    unfold discard_short. destruct (Nat.ltb_spec (length (replace f md [])) 4); [lia|].
    reflexivity. }
  split; [exact P|]. split; [exact S|].
  unfold new_filenames, get_files_by_timestamp. cbn [filter fst]. rewrite Hmd.
  cbn [sort_by_mtime fold_right insert_by_mtime map fst enumerate_from_1 length seq combine].
  rewrite P, S. unfold clean_filename.
  set (n := replace f md []) in *.
  assert (T : truthy n = true) by (destruct n; [simpl in Hlen; lia | reflexivity]).
  rewrite T, startswith_refl. cbn [andb]. rewrite skipn_all.
  assert (E : endswith [] n = false).
  { unfold endswith. cbn [rev]. destruct (rev n) eqn:R; [|reflexivity].
    apply (f_equal (@length ascii)) in R. rewrite length_rev in R. simpl in R. lia. }
  rewrite E. reflexivity.
Qed.

Lemma single_file_loses_its_name_witness :
  endswith "chapter.md" md = true
  /\ new_filenames [("chapter.md" : str, 7%Z)] = [lit "01 - .md"].
Proof.
  split; [reflexivity|].
  apply (single_file_loses_its_name "chapter.md" 7%Z); vm_compute; try reflexivity.
  repeat constructor.
Defined.

(** Reading the digits of a decimal numeral gives its value. *)
Lemma leading_number_uint (d : Decimal.uint) :
  forall acc r,
    (forall c r', r = c :: r' -> Url.is_digit c = false) ->
    leading_number acc (lit (NilEmpty.string_of_uint d) ++ r) = Nat.of_uint_acc d acc.
Proof.
  induction d; intros acc r Hr;
    cbn [NilEmpty.string_of_uint lit list_ascii_of_string app leading_number
         Nat.of_uint_acc];
    try (match goal with
         | |- context [Url.is_digit ?c] => change (Url.is_digit c) with true
         end;
         cbv iota; rewrite IHd by exact Hr; f_equal; rewrite Nat.tail_mul_spec;
         match goal with
         | |- context [nat_of_ascii ?c] =>
             let v := eval vm_compute in (nat_of_ascii c) in
             change (nat_of_ascii c) with v
         end; lia).
  destruct r as [|c r']; [reflexivity|].
  cbn [leading_number]. rewrite (Hr c r' eq_refl). reflexivity.
Qed.

Lemma leading_number_decimal (n : nat) (r : str) :
  (forall c r', r = c :: r' -> Url.is_digit c = false) ->
  leading_number 0 (decimal n ++ r) = n.
Proof.
  intros Hr. unfold decimal, NilZero.string_of_uint.
  rewrite <- (DecimalNat.Unsigned.of_to n) at 2. unfold Nat.of_uint.
  destruct (Nat.to_uint n) eqn:E; try (rewrite <- E; apply leading_number_uint, Hr);
    try apply (leading_number_uint _ 0 r Hr).
  cbn [lit list_ascii_of_string app leading_number]. change (Url.is_digit "0") with true.
  cbv iota. simpl. destruct r as [|c r']; [reflexivity|].
  cbn [leading_number]. rewrite (Hr c r' eq_refl). reflexivity.
Qed.

Lemma leading_number_zeros (k : nat) (s : str) :
  leading_number 0 (repeat "0"%char k ++ s) = leading_number 0 s.
Proof. induction k as [|k IH]; [reflexivity|]. simpl. exact IH. Qed.

(** The number is read back from a written name. *)
Lemma leading_number_format (n : nat) (rest : str) :
  leading_number 0 (format_02d n ++ lit " - " ++ rest) = n.
Proof.
  unfold format_02d. rewrite <- app_assoc, leading_number_zeros.
  apply leading_number_decimal. intros c r' E. injection E as <- _. reflexivity.
Qed.

(** The names [clean_markdown_files] writes begin with the numbers 1, 2,
    ... in the order of writing, whatever the count; so no two files of a
    run have the same name, and no chapter overwrites another. *)
Theorem new_filenames_numbered (walk : list entry) :
  map (leading_number 0) (new_filenames walk)
  = seq 1 (length (get_files_by_timestamp walk))
  /\ NoDup (new_filenames walk).
Proof.
  assert (A : map (leading_number 0) (new_filenames walk)
              = seq 1 (length (get_files_by_timestamp walk))).
  { unfold new_filenames, enumerate_from_1.
    generalize (find_common_prefix (get_files_by_timestamp walk)) as cp.
    generalize (find_common_suffix (get_files_by_timestamp walk)) as cs.
    intros cs cp. generalize 1 as k.
    induction (get_files_by_timestamp walk) as [|f fs IH]; intros k; [reflexivity|].
    cbn [length seq combine map]. rewrite leading_number_format, IH. reflexivity. }
  split; [exact A|].
  apply (NoDup_map_inv (leading_number 0)). rewrite A. apply seq_NoDup.
Qed.

End ChapterNames.

(** ** The images directory and the network through a run *)

Module WorldFacts.
Import Regex RegexFacts Cleaner ScanFacts FetcherFacts WorldGrowth.

Lemma replace_nested_image_grows (m : match_obj) (w : world) :
  grows w (snd (replace_nested_image m w)).
Proof.
  unfold replace_nested_image. destruct (startswith (group m 2) "http"); [|apply grows_refl].
  assert (G := download_image_grows (group m 2) w).
  destruct (download_image (group m 2) w) as [n w']. destruct (got n); exact G.
Qed.

Lemma replace_image_grows (m : match_obj) (w : world) :
  grows w (snd (replace_image m w)).
Proof.
  unfold replace_image.
  destruct (negb (startswith (group m 2) "http")); [apply grows_refl|].
  assert (G := download_image_grows (group m 2) w).
  destruct (download_image (group m 2) w) as [n w']. destruct (got n); exact G.
Qed.

Lemma replace_link_grows (m : match_obj) (w : world) :
  grows w (snd (replace_link m w)).
Proof.
  unfold replace_link. destruct (startswith (group m 2) "#"); [apply grows_refl|].
  destruct (_ && _); [|apply grows_refl].
  assert (G := download_image_grows (group m 2) w).
  destruct (download_image (group m 2) w) as [n w']. destruct (got n); exact G.
Qed.

(** A substitution whose replacement function lets the world grow lets it
    grow. *)
Lemma sub_scan_grows (re : regex) (repl : match_obj -> world -> str * world)
    (whole : str) :
  (forall m w, grows w (snd (repl m w))) ->
  forall s i prev skip w,
    grows w (snd (sub_scan re repl whole i prev skip s w)).
Proof.
  intros H. induction s as [|c s IH]; intros i prev skip w; [apply grows_refl|].
  cbn [sub_scan]. destruct skip as [|k]; [|apply IH].
  destruct (match_at re [] i prev (c :: s)) as [[e ms]|].
  - assert (G := H {| subject := whole; span_start := i; span_end := e;
                      boundaries := ms |} w).
    destruct (repl _ w) as [r w1]. cbn [snd] in G.
    assert (G2 := IH (S i) (Some c) (e - i - 1) w1).
    destruct (sub_scan re repl whole (S i) (Some c) (e - i - 1) s w1) as [out w2].
    cbn [snd] in *. eapply grows_trans; eauto.
  - assert (G2 := IH (S i) (Some c) 0 w).
    destruct (sub_scan re repl whole (S i) (Some c) 0 s w) as [out w1]. exact G2.
Qed.

Lemma clean_line_grows (line : str) (w : world) :
  grows w (snd (clean_line line w)).
Proof.
  unfold clean_line, sub.
  assert (A := sub_scan_grows nested_re replace_nested_image line
                 replace_nested_image_grows line 0 None 0 w).
  destruct (sub_scan nested_re replace_nested_image line 0 None 0 line w) as [l1 w1].
  assert (B := sub_scan_grows image_re replace_image l1 replace_image_grows l1 0 None 0 w1).
  destruct (sub_scan image_re replace_image l1 0 None 0 l1 w1) as [l2 w2].
  assert (C := sub_scan_grows link_re replace_link l2 replace_link_grows l2 0 None 0 w2).
  cbn [snd] in *. eapply grows_trans; [exact A|]. eapply grows_trans; eauto.
Qed.

Lemma clean_loop_grows (title : str) (lines : list str) :
  forall found cleaned w, grows w (snd (clean_loop title lines found cleaned w)).
Proof.
  induction lines as [|line rest IH]; intros found cleaned w; [apply grows_refl|].
  cbn [clean_loop]. destruct (_ && _); [apply IH|].
  destruct (_ && _); [apply IH|].
  assert (A := clean_line_grows line w). destruct (clean_line line w) as [l w1].
  eapply grows_trans; [exact A | apply IH].
Qed.

Lemma clean_content_grows (content title : str) (w : world) :
  grows w (snd (clean_content content title w)).
Proof.
  unfold clean_content.
  assert (A := clean_loop_grows title (split_lines content) false [] w).
  destruct (clean_loop title (split_lines content) false [] w) as [c w']. exact A.
Qed.

Lemma write_chapters_grows (cp cs : str) (read : str -> str) (files : list (nat * str)) :
  forall w, grows w (snd (Book.write_chapters cp cs read files w)).
Proof.
  induction files as [|[n f] rest IH]; intros w; [apply grows_refl|].
  cbn [Book.write_chapters].
  assert (A := clean_content_grows (read f)
                 (replace (Normalizer.clean_filename f cp cs) Normalizer.md []) w).
  destruct (clean_content _ _ w) as [c w1]. cbn [snd] in A.
  assert (B := IH w1). destruct (Book.write_chapters cp cs read rest w1) as [o w2].
  cbn [snd] in *. eapply grows_trans; eauto.
Qed.

(** Cleaning a book never removes a file from the images directory and
    never drops a recorded request: the world after the run comes after the
    world before it. *)
Theorem clean_markdown_files_grows (walk : list Chapters.entry) (read : str -> str)
    (w : world) :
  grows w (snd (Book.clean_markdown_files walk read w)).
Proof.
  unfold Book.clean_markdown_files.
  destruct (Chapters.get_files_by_timestamp walk) as [|f fs] eqn:E; [apply grows_refl|].
  rewrite <- E.
  assert (A := write_chapters_grows
                 (Normalizer.find_common_prefix (Chapters.get_files_by_timestamp walk))
                 (Normalizer.find_common_suffix (Chapters.get_files_by_timestamp walk))
                 read (Chapters.enumerate_from_1 (Chapters.get_files_by_timestamp walk)) w).
  destruct (Book.write_chapters _ _ read _ w) as [wr w']. exact A.
Qed.

Lemma In_skipn_occurs (c : ascii) (p : str) (d : nat) :
  In c (skipn d p) -> exists j, d <= j /\ occurs_at [c] p j.
Proof.
  intros H. apply in_split in H as (a & b & H).
  assert (L : d <= length p).
  { destruct (Nat.le_gt_cases d (length p)) as [L|L]; [exact L|].
    rewrite skipn_all2 in H by lia. destruct a; discriminate. }
  exists (length (firstn d p ++ a)). split.
  - rewrite length_app, firstn_length_le by exact L. lia.
  - exists (firstn d p ++ a), b. split; [|reflexivity].
    rewrite <- app_assoc. cbn [app]. rewrite <- H. symmetry. apply firstn_skipn.
Qed.

(** The extension [splitext] answers holds no [/]. *)
Lemma splitext_no_slash (p : str) : ~ In "/"%char (Url.splitext_ext p).
Proof.
  unfold Url.splitext_ext.
  destruct (rfind p "." >? rfind p "/")%Z eqn:G; cbn [andb]; [|intros []].
  destruct (Url.splitext_while _ _ _ _); [|intros []].
  apply Z.gtb_lt in G. unfold from. intros H.
  apply In_skipn_occurs in H as (j & Hj & O).
  unfold rfind in G.
  destruct (rfind_from_spec (lit "/") p 0 ltac:(lia)) as [[_ N] | (i & R & _ & M)].
  - exact (N j O).
  - apply M in O. fold (rfind p ".") in *. rewrite R in G. lia.
Qed.

Lemma is_hex_no_slash (c : ascii) : is_hex c -> c <> "/"%char.
Proof.
  unfold is_hex. simpl. intros H.
  repeat (destruct H as [<-|H]; [discriminate|]). contradiction.
Qed.

(** When [download_image] answers a name, a file of that name is in the
    images directory afterwards, and the name holds no [/]: the file is
    written in the images directory itself, whatever the URL. *)
Theorem download_image_file_present (url : str) (w w' : world) (name : str) :
  download_image url w = (Some name, w') ->
  file_exists w' name = true
  /\ ~ In "/"%char name
  /\ is_prefix (lit "image_") name.
Proof.
  intros D. assert (N := download_image_name _ _ _ _ D).
  split; [|split].
  - unfold download_image in D. rewrite N in D.
    destruct (file_exists w name) eqn:E; cbn [negb] in D.
    + injection D as <-. exact E.
    + destruct (network w (requests w) url name); try discriminate.
      injection D as <-. unfold file_exists. simpl.
      assert (R : str_eqb name name = true) by (apply str_eqb_eq; reflexivity).
      rewrite R. reflexivity.
  - unfold local_name in N.
    destruct (Url.urlparse_path (bracketed_ok w) url) as [path|]; [|discriminate].
    cbv zeta in N.
    match type of N with Some ?n = _ => assert (K : name = n) by congruence end.
    rewrite K. clear N K. intros H.
    apply in_app_or in H as [H|H].
    { simpl in H. repeat (destruct H as [H|H]; [discriminate|]). contradiction. }
    apply in_app_or in H as [H|H].
    { assert (X := url_hash_is_hex url). rewrite Forall_forall in X.
      exact (is_hex_no_slash _ (X _ H) eq_refl). }
    destruct (negb (truthy (Url.splitext_ext path))).
    + simpl in H. repeat (destruct H as [H|H]; [discriminate|]). contradiction.
    + exact (splitext_no_slash path H).
  - unfold local_name in N.
    destruct (Url.urlparse_path (bracketed_ok w) url) as [path|]; [|discriminate].
    cbv zeta in N.
    match type of N with Some ?n = _ => assert (K : name = n) by congruence end.
    rewrite K. eexists. reflexivity.
Qed.

Lemma download_image_file_present_witness :
  download_image "http://x.com/a/../b.png" online
  = (Some (lit "image_" ++ firstn 12 (MD5.hexdigest "http://x.com/a/../b.png") ++ lit ".png"),
     with_request online "http://x.com/a/../b.png"
       [lit "image_" ++ firstn 12 (MD5.hexdigest "http://x.com/a/../b.png") ++ lit ".png"])
  /\ ~ In "/"%char
         (lit "image_" ++ firstn 12 (MD5.hexdigest "http://x.com/a/../b.png") ++ lit ".png").
Proof.
  assert (D : download_image "http://x.com/a/../b.png" online
              = (Some (lit "image_" ++ firstn 12 (MD5.hexdigest "http://x.com/a/../b.png")
                       ++ lit ".png"),
                 with_request online "http://x.com/a/../b.png"
                   [lit "image_" ++ firstn 12 (MD5.hexdigest "http://x.com/a/../b.png")
                    ++ lit ".png"]))
    by (vm_compute; reflexivity).
  split; [exact D|].
  exact (proj1 (proj2 (download_image_file_present _ _ _ _ D))).
Defined.

Lemma split_lines_chars (P : ascii -> Prop) (content : str) :
  Forall P content -> Forall (Forall P) (split_lines content).
Proof.
  induction 1 as [|c s Hc H IH]; simpl; [repeat constructor|].
  destruct (Ascii.eqb c newline); [constructor; [constructor | exact IH]|].
  destruct (split_lines s) as [|l ls]; [repeat constructor; exact Hc|].
  inversion IH; subst. constructor; [constructor; assumption | assumption].
Qed.

Lemma clean_line_plain (line : str) (w : world) :
  Forall no_bracket line -> clean_line line w = (line, w).
Proof.
  intros H. unfold clean_line.
  rewrite (sub_none nested_re) by (apply nested_no_match_in, H).
  rewrite (sub_none image_re)
    by (apply image_no_match_in; [exact H | intros d t E; discriminate]).
  apply sub_none, link_no_match_in, H.
Qed.

Lemma clean_loop_plain (title : str) (lines : list str) :
  Forall (Forall no_bracket) lines ->
  forall found cleaned w, snd (clean_loop title lines found cleaned w) = w.
Proof.
  induction 1 as [|line rest Hl _ IH]; intros found cleaned w; [reflexivity|].
  cbn [clean_loop]. destruct (_ && _); [apply IH|].
  destruct (_ && _); [apply IH|].
  rewrite (clean_line_plain line w Hl). apply IH.
Qed.

(** A line without [[] is left as it is, and a text without [[] is cleaned
    without a request to the network and without a change to the images
    directory. *)
Theorem no_bracket_no_download :
  (forall line w, Forall no_bracket line -> clean_line line w = (line, w))
  /\ (forall content title w,
         Forall no_bracket content -> snd (clean_content content title w) = w).
Proof.
  split; [exact clean_line_plain|].
  intros content title w H. unfold clean_content.
  assert (A := clean_loop_plain title (split_lines content)
                 (split_lines_chars _ content H) false [] w).
  destruct (clean_loop title (split_lines content) false [] w) as [c w']. exact A.
Qed.

Lemma no_bracket_no_download_witness :
  Forall no_bracket (lit "plain text (no markup)")
  /\ clean_line "plain text (no markup)" offline = (lit "plain text (no markup)", offline).
Proof.
  assert (H : Forall no_bracket (lit "plain text (no markup)"))
    by (repeat constructor; discriminate).
  split; [exact H | exact (proj1 no_bracket_no_download _ offline H)].
Defined.

End WorldFacts.
